(** * junebug: the question-challenge CSV parser, validator and round engine

    A shallow embedding of
      - src/app/question-challenge-home/question-challenge-home.component.ts
        (parseCSV, parseAndValidateCSV, shuffleArray), and
      - the question-challenge component kept in src/app/home/home.component.ts
        (its own parseCSV, the timer, selectAnswer, submitAnswers, canSubmit,
        getCumulativePercent).

    JavaScript strings are sequences of UTF-16 code units; a code unit is an
    [N].  Signals are plain record fields, [sig.set v] is a record update. *)

From Stdlib Require Import List Bool Arith NArith ZArith Lia.
From Stdlib Require Import Ascii String DecimalString.
From Stdlib Require Import Permutation QArith Qround.
From Stdlib Require Import Floats.
Import ListNotations.

Set Implicit Arguments.

(* ================================================================== *)
(** ** JavaScript strings *)
(* ================================================================== *)

Module JS.

Definition CodeUnit := N.
Definition jsstring := list CodeUnit.

(** A string literal of the source, as code units. *)
Definition lit (s : string) : jsstring :=
  List.map N_of_ascii (list_ascii_of_string s).

(** The double quote, the comma, line feed and carriage return. *)
Definition QUOTE : CodeUnit := 34%N.
Definition COMMA : CodeUnit := 44%N.
Definition LF    : CodeUnit := 10%N.
Definition CR    : CodeUnit := 13%N.

Definition jsstring_eq_dec : forall a b : jsstring, {a = b} + {a <> b} :=
  list_eq_dec N.eq_dec.

(** [a === b] on strings. *)
Definition streq (a b : jsstring) : bool :=
  if jsstring_eq_dec a b then true else false.

(** ECMAScript WhiteSpace and LineTerminator code points: what
    [String.prototype.trim] strips. *)
Definition isWhiteSpace (c : CodeUnit) : bool :=
  ((9 <=? c) && (c <=? 13) ||
   (c =? 32) || (c =? 160) || (c =? 5760) ||
   (8192 <=? c) && (c <=? 8202) ||
   (c =? 8232) || (c =? 8233) || (c =? 8239) || (c =? 8287) ||
   (c =? 12288) || (c =? 65279))%N.

Fixpoint trimStart (s : jsstring) : jsstring :=
  match s with
  | [] => []
  | c :: r => if isWhiteSpace c then trimStart r else s
  end.

Definition trimEnd (s : jsstring) : jsstring := rev (trimStart (rev s)).

(** [s.trim()] *)
Definition trim (s : jsstring) : jsstring := trimEnd (trimStart s).

(** A string is falsy exactly when it is empty: [!s]. *)
Definition falsy (s : jsstring) : bool :=
  match s with [] => true | _ => false end.

(** [s.split(sep)] for a one-character separator. *)
Fixpoint split (sep : CodeUnit) (s : jsstring) : list jsstring :=
  match s with
  | [] => [[]]
  | c :: r =>
      if (c =? sep)%N then [] :: split sep r
      else match split sep r with
           | [] => [[c]]
           | h :: t => (c :: h) :: t
           end
  end.

(** [parts.join(sep)] *)
Fixpoint join (sep : jsstring) (parts : list jsstring) : jsstring :=
  match parts with
  | [] => []
  | [p] => p
  | p :: ps => p ++ sep ++ join sep ps
  end.

(** Template-literal rendering of an integer: [`${n}`]. *)
Definition numToString (z : Z) : jsstring :=
  lit (NilEmpty.string_of_int (Z.to_int z)).

(** [arr.indexOf(x)]: the first index holding a strictly equal element,
    or [-1]. *)
Fixpoint indexOfFrom (i : Z) (arr : list jsstring) (x : jsstring) : Z :=
  match arr with
  | [] => (-1)%Z
  | a :: r => if streq a x then i else indexOfFrom (i + 1)%Z r x
  end.

Definition indexOf (arr : list jsstring) (x : jsstring) : Z :=
  indexOfFrom 0%Z arr x.

(** [arr[i]] for a number [i]; [None] is [undefined]. *)
Definition get {A} (arr : list A) (i : Z) : option A :=
  if (i <? 0)%Z then None else nth_error arr (Z.to_nat i).

(** [arr.slice(0, count)]: a negative [count] is taken from the end. *)
Definition slice0 {A} (count : Z) (arr : list A) : list A :=
  if (count <? 0)%Z
  then firstn (Z.to_nat (Z.of_nat (List.length arr) + count)) arr
  else firstn (Z.to_nat count) arr.

(** [arr[i] = v] for an index inside the array. *)
Fixpoint assign {A} (arr : list A) (i : nat) (v : A) : list A :=
  match arr, i with
  | [], _ => []
  | _ :: r, O => v :: r
  | a :: r, S i' => a :: assign r i' v
  end.

(** [[arr[i], arr[j]] = [arr[j], arr[i]]].  Both indices are inside the
    array whenever [Math.random()] is in [0, 1); the array is left as it is
    otherwise. *)
Definition swap {A} (arr : list A) (i j : nat) : list A :=
  match nth_error arr i, nth_error arr j with
  | Some x, Some y => assign (assign arr i y) j x
  | _, _ => arr
  end.

End JS.

Import JS.

(* ================================================================== *)
(** ** The CSV scanner (question-challenge-home, parseCSV) *)
(* ================================================================== *)

Module Csv.

Definition Row := list jsstring.

(** The locals of [parseCSV]. *)
Record Scanner := mkScanner {
  rows : list Row;
  currentRow : Row;
  currentField : jsstring;
  inQuotes : bool;
  fieldStartedWithQuote : bool
}.

Definition init : Scanner := mkScanner [] [] [] false false.

(** [currentRow.some(field => field.length > 0)] *)
Definition someNonEmpty (r : Row) : bool :=
  existsb (fun field => negb (falsy field)) r.

(** The value pushed for the field being closed:
    [fieldStartedWithQuote ? currentField : currentField.trim()]. *)
Definition fieldValue (s : Scanner) : jsstring :=
  if fieldStartedWithQuote s then currentField s else trim (currentField s).

Definition appendChar (s : Scanner) (c : CodeUnit) : Scanner :=
  mkScanner (rows s) (currentRow s) (currentField s ++ [c])
            (inQuotes s) (fieldStartedWithQuote s).

Definition endField (s : Scanner) : Scanner :=
  mkScanner (rows s) (currentRow s ++ [fieldValue s]) [] (inQuotes s) false.

Definition endRow (s : Scanner) : Scanner :=
  let row := currentRow s ++ [fieldValue s] in
  mkScanner (if someNonEmpty row then rows s ++ [row] else rows s)
            [] [] (inQuotes s) false.

Definition isQuote (c : CodeUnit) : bool := (c =? QUOTE)%N.
Definition isComma (c : CodeUnit) : bool := (c =? COMMA)%N.
Definition isEol (c : CodeUnit) : bool := ((c =? LF) || (c =? CR))%N.

Definition nextIs (nextChar : option CodeUnit) (c : CodeUnit) : bool :=
  match nextChar with Some n => (n =? c)%N | None => false end.

(** One iteration of the [for] loop: the new locals, and whether the body
    executed its extra [i++]. *)
Definition scanChar (s : Scanner) (char : CodeUnit) (nextChar : option CodeUnit)
  : Scanner * bool :=
  if isQuote char then
    if falsy (currentField s) && negb (inQuotes s) then
      (mkScanner (rows s) (currentRow s) (currentField s) true true, false)
    else if inQuotes s && nextIs nextChar QUOTE then
      (appendChar s QUOTE, true)
    else if inQuotes s then
      (mkScanner (rows s) (currentRow s) (currentField s) false
                 (fieldStartedWithQuote s), false)
    else
      (appendChar s char, false)
  else if isComma char && negb (inQuotes s) then
    (endField s, false)
  else if isEol char && negb (inQuotes s) then
    (endRow s, (char =? CR)%N && nextIs nextChar LF)
  else
    (appendChar s char, false).

(** The loop from the current position to the end of the text. *)
Fixpoint scanLoop (s : Scanner) (text : jsstring) : Scanner :=
  match text with
  | [] => s
  | char :: rest =>
      let '(s', skip) := scanChar s char (hd_error rest) in
      match rest with
      | [] => s'
      | _ :: rest' => if skip then scanLoop s' rest' else scanLoop s' rest
      end
  end.

(** The last field and row are handled after the loop; [return rows]. *)
Definition finish (s : Scanner) : list Row := rows (endRow s).

Definition parseCSV (csvText : jsstring) : list Row :=
  finish (scanLoop init csvText).

(** *** The earlier variant of [parseCSV] kept in the same file: every
    quote toggles [inQuotes] and every field is trimmed. *)

Record Scanner0 := mkScanner0 {
  rows0 : list Row;
  currentRow0 : Row;
  currentField0 : jsstring;
  inQuotes0 : bool
}.

Definition endRow0 (s : Scanner0) : Scanner0 :=
  let row := currentRow0 s ++ [trim (currentField0 s)] in
  mkScanner0 (if someNonEmpty row then rows0 s ++ [row] else rows0 s)
             [] [] (inQuotes0 s).

Definition scanChar0 (s : Scanner0) (char : CodeUnit) (nextChar : option CodeUnit)
  : Scanner0 * bool :=
  if isQuote char then
    if inQuotes0 s && nextIs nextChar QUOTE then
      (mkScanner0 (rows0 s) (currentRow0 s) (currentField0 s ++ [QUOTE])
                  (inQuotes0 s), true)
    else
      (mkScanner0 (rows0 s) (currentRow0 s) (currentField0 s)
                  (negb (inQuotes0 s)), false)
  else if isComma char && negb (inQuotes0 s) then
    (mkScanner0 (rows0 s) (currentRow0 s ++ [trim (currentField0 s)]) []
                (inQuotes0 s), false)
  else if isEol char && negb (inQuotes0 s) then
    (endRow0 s, (char =? CR)%N && nextIs nextChar LF)
  else
    (mkScanner0 (rows0 s) (currentRow0 s) (currentField0 s ++ [char])
                (inQuotes0 s), false).

Fixpoint scanLoop0 (s : Scanner0) (text : jsstring) : Scanner0 :=
  match text with
  | [] => s
  | char :: rest =>
      let '(s', skip) := scanChar0 s char (hd_error rest) in
      match rest with
      | [] => s'
      | _ :: rest' => if skip then scanLoop0 s' rest' else scanLoop0 s' rest
      end
  end.

Definition parseCSV_v0 (csvText : jsstring) : list Row :=
  rows0 (endRow0 (scanLoop0 (mkScanner0 [] [] [] false) csvText)).

End Csv.

Import Csv.

(* ================================================================== *)
(** ** The upload validator (question-challenge-home, parseAndValidateCSV) *)
(* ================================================================== *)

Record Question := mkQuestion {
  question : jsstring;
  answers : list jsstring;
  correct : Z
}.

(** [Math.random()]: the source of randomness is a stream of numbers; a call
    takes the head.  Every number of a real stream lies in [0, 1). *)
Definition Rng := nat -> Q.

Definition Math_random (r : Rng) : Q * Rng := (r 0%nat, fun k => r (S k)).

Definition unitInterval (r : Rng) : Prop := forall k, (0 <= r k /\ r k < 1)%Q.

Module Upload.

(** [Math.floor(Math.random() * (i + 1))], the product taken exactly; the
    statements below hold for every stream of numbers of [0, 1), so for
    every index of [0 .. i] the shuffle can draw. *)
Definition pick (r : Q) (i : nat) : nat :=
  Z.to_nat (Qfloor (r * inject_Z (Z.of_nat (i + 1)))).

(** The loop [for (let i = ...; i > 0; i--)] of [shuffleArray], entered with
    the given [i]. *)
Fixpoint shuffleFrom {A} (i : nat) (shuffled : list A) (r : Rng)
  : list A * Rng :=
  match i with
  | O => (shuffled, r)
  | S i' =>
      let '(x, r') := Math_random r in
      let j := pick x i in
      shuffleFrom i' (swap shuffled i j) r'
  end.

Definition shuffleArray {A} (array : list A) (r : Rng) : list A * Rng :=
  shuffleFrom (List.length array - 1) array r.

(** The component's fields. *)
Record Home := mkHome {
  gameStarted : bool;
  questionsLoaded : bool;
  uploadError : option jsstring;
  fileName : option jsstring;
  questionCount : Z;
  questionsPerRound : Z;
  timeLimit : Z;
  uploadedQuestions : list Question
}.

(** Failure exit of [parseAndValidateCSV]:
    [uploadError.set(msg); questionsLoaded.set(false); return]. *)
Definition failWith (msg : jsstring) (h : Home) : Home :=
  mkHome (gameStarted h) false (Some msg) (fileName h) (questionCount h)
         (questionsPerRound h) (timeLimit h) (uploadedQuestions h).

(** Success exit of [parseAndValidateCSV]. *)
Definition accept (questions : list Question) (h : Home) : Home :=
  mkHome (gameStarted h) true None (fileName h)
         (Z.of_nat (List.length questions))
         (questionsPerRound h) (timeLimit h) questions.

(** The locals the row loop updates, and the random stream. *)
Record Acc := mkAcc {
  questions : list Question;
  errorMessages : list jsstring;
  rng : Rng
}.

Definition pushError (a : Acc) (msg : jsstring) : Acc :=
  mkAcc (questions a) (errorMessages a ++ [msg]) (rng a).

(** [`Line ${i + 1}: ...`] *)
Definition lineMsg (i : nat) (what : string) : jsstring :=
  lit "Line " ++ numToString (Z.of_nat i + 1) ++ lit ": " ++ lit what.

Definition msgNotEnough (i : nat) : jsstring :=
  lineMsg i "Not enough columns (need at least 5: question + 4 answers)".
Definition msgQuestionEmpty (i : nat) : jsstring :=
  lineMsg i "Question is empty".
Definition msgCorrectEmpty (i : nat) : jsstring :=
  lineMsg i "Correct answer is empty".
Definition msgWrongEmpty (i : nat) : jsstring :=
  lineMsg i "One or more wrong answers are empty".

(** [parts[k]] for an index inside the row. *)
Definition part (parts : Row) (k : nat) : jsstring := nth k parts [].

(** The body of the row loop at index [i], [parts = rows[i]]. *)
Definition validateRow (i : nat) (parts : Row) (a : Acc) : Acc :=
  if (List.length parts =? 0)%nat || falsy (part parts 0) then a
  else if (List.length parts <? 5)%nat then pushError a (msgNotEnough i)
  else
    let question := trim (part parts 0) in
    let correctAnswer := trim (part parts 1) in
    let wrongAnswers :=
      [trim (part parts 2); trim (part parts 3); trim (part parts 4)] in
    if falsy question then pushError a (msgQuestionEmpty i)
    else if falsy correctAnswer then pushError a (msgCorrectEmpty i)
    else if existsb falsy wrongAnswers then pushError a (msgWrongEmpty i)
    else
      let allAnswers := correctAnswer :: wrongAnswers in
      let '(shuffledAnswers, r') := shuffleArray allAnswers (rng a) in
      let correctIndex := indexOf shuffledAnswers correctAnswer in
      mkAcc (questions a ++ [mkQuestion question shuffledAnswers correctIndex])
            (errorMessages a) r'.

(** [for (let i = ...; i < rows.length; i++)], entered at index [i] with the
    rows from [i] on. *)
Fixpoint validateFrom (i : nat) (rest : list Row) (a : Acc) : Acc :=
  match rest with
  | [] => a
  | parts :: rest' => validateFrom (S i) rest' (validateRow i parts a)
  end.

(** The row loop of [parseAndValidateCSV]: the header [rows[0]] is skipped. *)
Definition validateRows (rows : list Row) (r : Rng) : Acc :=
  validateFrom 1 (tl rows) (mkAcc [] [] r).

Definition msgNoRows : jsstring :=
  lit "File must contain at least a header and one question.".

(** [`Errors found:\n${errorMessages.slice(0, 3).join('\n')}`] *)
Definition msgErrors (errorMessages : list jsstring) : jsstring :=
  lit "Errors found:" ++ [LF] ++ join [LF] (firstn 3 errorMessages).

(** [`Need at least ${minQuestions} valid questions. Found only ${n}.`] *)
Definition msgTooFew (minQuestions : Z) (found : nat) : jsstring :=
  lit "Need at least " ++ numToString minQuestions ++
  lit " valid questions. Found only " ++ numToString (Z.of_nat found) ++
  lit ".".

(** The validation after the rows were parsed. *)
Definition validate (rows : list Row) (r : Rng) (h : Home) : Home :=
  if (List.length rows <? 2)%nat then failWith msgNoRows h
  else
    let a := validateRows rows r in
    if (0 <? List.length (errorMessages a))%nat &&
       (List.length (questions a) =? 0)%nat
    then failWith (msgErrors (errorMessages a)) h
    else
      let minQuestions := questionsPerRound h in
      if (Z.of_nat (List.length (questions a)) <? minQuestions)%Z
      then failWith (msgTooFew minQuestions (List.length (questions a))) h
      else accept (questions a) h.

Definition parseAndValidateCSV (csvText : jsstring) (r : Rng) (h : Home)
  : Home :=
  validate (parseCSV csvText) r h.

End Upload.

(* ================================================================== *)
(** ** The fallback loader (question-challenge, parseCSV) *)
(* ================================================================== *)

Module Fallback.

(** The loader splits the text into lines and every line after the first
    into [parts]; what it then reads from [parts] (six columns, the last one
    the number of the correct answer) is not needed below. *)

(** [csvText.split('\n').filter(line => line.trim())] *)
Definition lines (csvText : jsstring) : list jsstring :=
  filter (fun line => negb (falsy (trim line))) (split LF csvText).

(** [parts] of one loop iteration: [lines[i].trim().split(',')]. *)
Definition lineParts (line : jsstring) : Row := split COMMA (trim line).

(** The [parts] arrays of the loop, which starts at [i = 1]. *)
Definition dataParts (csvText : jsstring) : list Row :=
  List.map lineParts (tl (lines csvText)).

End Fallback.

(* ================================================================== *)
(** ** The round engine (question-challenge component) *)
(* ================================================================== *)

Module Round.

Record QuestionState := mkQuestionState {
  qsQuestion : Question;
  selected : option Z           (* [None] is [null] *)
}.

(** The component's fields.  [timerInterval] is [true] while an interval
    handle is held, [false] for [null]. *)
Record Game := mkGame {
  questionSets : list QuestionState;
  timeRemaining : Z;
  roundComplete : bool;
  timeExpired : bool;
  showCongratulations : bool;
  currentRound : Z;
  currentRoundCorrect : Z;
  currentRoundTotal : Z;
  cumulativeCorrect : Z;
  cumulativeTotal : Z;
  roundTheme : Z;
  allQuestions : list Question;
  timerInterval : bool;
  questionsPerRound : Z;
  timeLimitSeconds : Z
}.

Definition setQuestionsPerRound (count : Z) (g : Game) : Game :=
  mkGame (questionSets g) (timeRemaining g) (roundComplete g) (timeExpired g)
    (showCongratulations g) (currentRound g) (currentRoundCorrect g)
    (currentRoundTotal g) (cumulativeCorrect g) (cumulativeTotal g)
    (roundTheme g) (allQuestions g) (timerInterval g) count
    (timeLimitSeconds g).

Definition setTimeLimit (seconds : Z) (g : Game) : Game :=
  mkGame (questionSets g) (timeRemaining g) (roundComplete g) (timeExpired g)
    (showCongratulations g) (currentRound g) (currentRoundCorrect g)
    (currentRoundTotal g) (cumulativeCorrect g) (cumulativeTotal g)
    (roundTheme g) (allQuestions g) (timerInterval g) (questionsPerRound g)
    seconds.

Definition stopTimer (g : Game) : Game :=
  mkGame (questionSets g) (timeRemaining g) (roundComplete g) (timeExpired g)
    (showCongratulations g) (currentRound g) (currentRoundCorrect g)
    (currentRoundTotal g) (cumulativeCorrect g) (cumulativeTotal g)
    (roundTheme g) (allQuestions g) false (questionsPerRound g)
    (timeLimitSeconds g).

(** [startTimer]: the old interval is cleared and a new one is armed. *)
Definition startTimer (g : Game) : Game :=
  let g := stopTimer g in
  mkGame (questionSets g) (timeRemaining g) (roundComplete g) (timeExpired g)
    (showCongratulations g) (currentRound g) (currentRoundCorrect g)
    (currentRoundTotal g) (cumulativeCorrect g) (cumulativeTotal g)
    (roundTheme g) (allQuestions g) true (questionsPerRound g)
    (timeLimitSeconds g).

(** [selectRandomQuestions(count)]: [shuffled] is the outcome of sorting a
    copy of [allQuestions] with the random comparator. *)
Definition selectRandomQuestions (shuffled : list Question) (count : Z)
  : list Question :=
  slice0 count shuffled.

(** [startNewRound]; [theme] is the outcome of
    [Math.floor(Math.random() * this.themes.length)]. *)
Definition startNewRound (shuffled : list Question) (theme : Z) (g : Game)
  : Game :=
  let selected := selectRandomQuestions shuffled (questionsPerRound g) in
  startTimer
    (mkGame (List.map (fun q => mkQuestionState q None) selected)
       (timeLimitSeconds g) false false false (currentRound g) 0 0
       (cumulativeCorrect g) (cumulativeTotal g) theme (allQuestions g)
       (timerInterval g) (questionsPerRound g) (timeLimitSeconds g)).

(** The callback of [setInterval], run once per elapsed second while the
    interval is armed. *)
Definition tick (g : Game) : Game :=
  if timerInterval g then
    let current := timeRemaining g in
    if (current >? 0)%Z then
      mkGame (questionSets g) (current - 1) (roundComplete g) (timeExpired g)
        (showCongratulations g) (currentRound g) (currentRoundCorrect g)
        (currentRoundTotal g) (cumulativeCorrect g) (cumulativeTotal g)
        (roundTheme g) (allQuestions g) (timerInterval g)
        (questionsPerRound g) (timeLimitSeconds g)
    else
      let g := stopTimer g in
      mkGame (questionSets g) (timeRemaining g) true true
        (showCongratulations g) (currentRound g) (currentRoundCorrect g)
        (currentRoundTotal g) (cumulativeCorrect g) (cumulativeTotal g)
        (roundTheme g) (allQuestions g) (timerInterval g)
        (questionsPerRound g) (timeLimitSeconds g)
  else g.

Definition setQuestionSets (qs : list QuestionState) (g : Game) : Game :=
  mkGame qs (timeRemaining g) (roundComplete g) (timeExpired g)
    (showCongratulations g) (currentRound g) (currentRoundCorrect g)
    (currentRoundTotal g) (cumulativeCorrect g) (cumulativeTotal g)
    (roundTheme g) (allQuestions g) (timerInterval g) (questionsPerRound g)
    (timeLimitSeconds g).

(** [selectAnswer]; [None] is the TypeError of writing a property of
    [undefined], when [questionIndex] is outside [questionSets]. *)
Definition selectAnswer (questionIndex answerIndex : Z) (g : Game)
  : option Game :=
  if roundComplete g then Some g
  else
    match get (questionSets g) questionIndex with
    | None => None
    | Some qs =>
        Some (setQuestionSets
                (assign (questionSets g) (Z.to_nat questionIndex)
                        (mkQuestionState (qsQuestion qs) (Some answerIndex)))
                g)
    end.

(** [qs.selected !== null] *)
Definition answered (qs : QuestionState) : bool :=
  match selected qs with Some _ => true | None => false end.

(** [qs.selected === qs.question.correct] *)
Definition isRight (qs : QuestionState) : bool :=
  match selected qs with
  | Some a => (a =? correct (qsQuestion qs))%Z
  | None => false
  end.

(** The [forEach] that counts the correct answers into [correctCount]. *)
Definition countCorrect (qss : list QuestionState) : Z :=
  fold_left (fun correctCount qs =>
               if isRight qs then (correctCount + 1)%Z else correctCount)
            qss 0%Z.

Definition submitAnswers (g : Game) : Game :=
  if roundComplete g then g
  else
    let allAnswered := forallb answered (questionSets g) in
    if negb allAnswered then g
    else
      let g := stopTimer g in
      let correctCount := countCorrect (questionSets g) in
      let total := Z.of_nat (List.length (questionSets g)) in
      mkGame (questionSets g) (timeRemaining g) true (timeExpired g)
        (if negb (timeExpired g) then true else showCongratulations g)
        (currentRound g) correctCount total
        (cumulativeCorrect g + correctCount) (cumulativeTotal g + total)
        (roundTheme g) (allQuestions g) (timerInterval g)
        (questionsPerRound g) (timeLimitSeconds g).

Definition nextRound (shuffled : list Question) (theme : Z) (g : Game)
  : Game :=
  startNewRound shuffled theme
    (mkGame (questionSets g) (timeRemaining g) (roundComplete g)
       (timeExpired g) (showCongratulations g) (currentRound g + 1)
       (currentRoundCorrect g) (currentRoundTotal g) (cumulativeCorrect g)
       (cumulativeTotal g) (roundTheme g) (allQuestions g) (timerInterval g)
       (questionsPerRound g) (timeLimitSeconds g)).

(** [loadQuestionsFromData(questions)], the entry of the questions of an
    upload. *)
Definition loadQuestionsFromData (questions shuffled : list Question)
  (theme : Z) (g : Game) : Game :=
  let g :=
    mkGame (questionSets g) (timeRemaining g) (roundComplete g)
      (timeExpired g) (showCongratulations g) (currentRound g)
      (currentRoundCorrect g) (currentRoundTotal g) (cumulativeCorrect g)
      (cumulativeTotal g) (roundTheme g) questions (timerInterval g)
      (questionsPerRound g) (timeLimitSeconds g) in
  if (0 <? List.length (allQuestions g))%nat
  then startNewRound shuffled theme g else g.

(** The field initialisers of the component. *)
Definition newGame : Game :=
  mkGame [] 90 false false false 1 0 0 0 0 0 [] false 4 90.

(** [goBack]: leaving the game resets the statistics. *)
Definition goBack (g : Game) : Game :=
  let g := stopTimer g in
  mkGame (questionSets g) (timeRemaining g) (roundComplete g) (timeExpired g)
    (showCongratulations g) 1 0 0 0 0 (roundTheme g) (allQuestions g)
    (timerInterval g) (questionsPerRound g) (timeLimitSeconds g).

Definition canSubmit (g : Game) : bool :=
  negb (roundComplete g) && forallb answered (questionSets g).

(** *** Numbers of the percentage: IEEE 754 binary64 *)

(** An integer counter as a Number: exact for the counters of a session,
    which stay far below 2^53. *)
Definition toNumber (z : Z) : float :=
  if (z <? 0)%Z then (- of_uint63 (Uint63.of_Z (- z)))%float
  else of_uint63 (Uint63.of_Z z).

(** [Math.round(x)] of a finite [x]: the integer closest to [x], the one
    toward plus infinity of two equally close, that is the floor of
    [x + 1/2] computed exactly.  (Infinities and NaN are returned as they
    are by JavaScript; none arises below, and the model gives 0.) *)
Definition Math_round (x : float) : Z :=
  match Prim2SF x with
  | S754_finite sign m e =>
      let v := if sign then Z.neg m else Z.pos m in
      if (0 <=? e)%Z then (v * 2 ^ e)%Z
      else ((2 * v + 2 ^ (- e)) / 2 ^ (1 - e))%Z
  | _ => 0%Z
  end.

Definition getCumulativePercent (g : Game) : Z :=
  let total := cumulativeTotal g in
  if (total =? 0)%Z then 0%Z
  else Math_round ((toNumber (cumulativeCorrect g) / toNumber total) * 100)%float.

(** The state of the round, as the specification names it. *)
Inductive Outcome := Submitted | TimedOut.
Inductive Phase := Active | Complete (o : Outcome).

Definition phase (g : Game) : Phase :=
  if roundComplete g
  then Complete (if timeExpired g then TimedOut else Submitted)
  else Active.

End Round.

(* ================================================================== *)
(** ** Round engine: the vocabulary of the statements *)
(* ================================================================== *)

Module RoundSpec.
Import Round.

(** A round that is flagged as expired is complete. *)
Definition roundInv (g : Game) : Prop :=
  timeExpired g = true -> roundComplete g = true.

(** The events of a session. *)
Inductive Event :=
| ELoad (questions shuffled : list Question) (theme : Z)
| ESelect (questionIndex answerIndex : Z)
| ETick
| ESubmit
| ENext (shuffled : list Question) (theme : Z).

(** The handler of an event; [None] when it throws. *)
Definition step (e : Event) (g : Game) : option Game :=
  match e with
  | ELoad questions shuffled theme =>
      Some (loadQuestionsFromData questions shuffled theme g)
  | ESelect qi ai => selectAnswer qi ai g
  | ETick => Some (tick g)
  | ESubmit => Some (submitAnswers g)
  | ENext shuffled theme => Some (nextRound shuffled theme g)
  end.

(** The events of a session, one after the other. *)
Fixpoint run (events : list Event) (g : Game) : option Game :=
  match events with
  | [] => Some g
  | e :: events' =>
      match step e g with
      | Some g' => run events' g'
      | None => None
      end
  end.

(** The number of questions whose selection is the correct index. *)
Definition rightAnswers (qss : list QuestionState) : nat :=
  List.length
    (filter (fun qs =>
               match selected qs with
               | Some a => if Z.eq_dec a (correct (qsQuestion qs))
                           then true else false
               | None => false
               end) qss).

(** Sample data of the statements checked on an instance. *)
Definition sampleQuestion : Question :=
  mkQuestion (lit "Q") [lit "A"; lit "B"; lit "C"; lit "D"] 2.

Definition sampleGame : Game :=
  mkGame [mkQuestionState sampleQuestion (Some 2%Z);
          mkQuestionState sampleQuestion (Some 1%Z)]
         30 false false false 1 0 0 3 4 0 [sampleQuestion] true 2 90.

(** A component configured with a time limit of one second. *)
Definition oneSecondGame : Game :=
  mkGame [] 0 false false false 1 0 0 0 0 0 [sampleQuestion] false 1 1.

(** A bank of four questions, the correct answer at index 0. *)
Definition bank : list Question :=
  [ mkQuestion (lit "Q1") [lit "A"; lit "B"; lit "C"; lit "D"] 0;
    mkQuestion (lit "Q2") [lit "A"; lit "B"; lit "C"; lit "D"] 0;
    mkQuestion (lit "Q3") [lit "A"; lit "B"; lit "C"; lit "D"] 0;
    mkQuestion (lit "Q4") [lit "A"; lit "B"; lit "C"; lit "D"] 0 ].

(** The selections of a round with [right] correct answers, and the
    submission. *)
Definition answerRound (right : nat) : list Event :=
  List.map (fun i => ESelect (Z.of_nat i) (if (i <? right)%nat then 0 else 1))
           (seq 0 4)
  ++ [ESubmit].

(** Ten rounds of four questions, submitted with 23 correct answers in
    all. *)
Definition tenRounds : list Event :=
  ELoad bank bank 0 ::
  answerRound 3 ++
  List.concat (List.map (fun right => ENext bank 0 :: answerRound right)
                   [2; 2; 2; 2; 2; 2; 2; 3; 3]%nat).

End RoundSpec.

(* ================================================================== *)
(** ** Upload validator: the vocabulary of the statements *)
(* ================================================================== *)

Module UploadSpec.
Import Upload.

(** The rows the loop body turns into a question. *)
Definition accepted (parts : Row) : bool :=
  negb (falsy (part parts 0)) && (5 <=? List.length parts)%nat &&
  negb (falsy (trim (part parts 0))) && negb (falsy (trim (part parts 1))) &&
  negb (existsb falsy
          [trim (part parts 2); trim (part parts 3); trim (part parts 4)]).

(** What the round trip promises of a question built from [parts]. *)
Definition builtFrom (parts : Row) (qn : Question) : Prop :=
  question qn = trim (part parts 0) /\
  Permutation (answers qn)
    [trim (part parts 1); trim (part parts 2);
     trim (part parts 3); trim (part parts 4)] /\
  get (answers qn) (correct qn) = Some (trim (part parts 1)).

(** A random stream: every call returns 1/2. *)
Definition halves : Rng := fun _ => (1 # 2)%Q.

(** A header and one valid row. *)
Definition sampleRows : list Row :=
  [ [lit "Question"; lit "Correct"; lit "W1"; lit "W2"; lit "W3"];
    [lit "2 + 2?"; lit " 4"; lit "3"; lit "5 "; lit "6"] ].

(** The short row is the second parsed row, on the third line of the
    text. *)
Definition shortRowText : jsstring :=
  lit "header" ++ [LF] ++ [LF] ++ lit "a,b".

(** A component that holds the questions of an earlier upload, with the
    default of four questions per round. *)
Definition home4 : Home :=
  mkHome false true None None 1 4 90 [mkQuestion (lit "old") [] 0].

(** A file of blank lines only. *)
Definition blankText : jsstring :=
  lit "  " ++ [CR; LF] ++ lit " " ++ [LF].

(** The error of a row, as the specification lists them: none for a row
    that is passed over (no field, or an empty first field) and for a row
    that gives a question; [i] is the index of the row, the header being
    row 0, and the message names line [i + 1]. *)
Definition rowError (i : nat) (parts : Row) : option jsstring :=
  let line := lit "Line " ++ numToString (Z.of_nat i + 1) ++ lit ": " in
  if (List.length parts =? 0)%nat || falsy (part parts 0) then None
  else if (List.length parts <? 5)%nat then
    Some (line ++
          lit "Not enough columns (need at least 5: question + 4 answers)")
  else if falsy (trim (part parts 0)) then
    Some (line ++ lit "Question is empty")
  else if falsy (trim (part parts 1)) then
    Some (line ++ lit "Correct answer is empty")
  else if existsb falsy
            [trim (part parts 2); trim (part parts 3); trim (part parts 4)]
  then Some (line ++ lit "One or more wrong answers are empty")
  else None.

(** The errors of the rows from index [i] on, in the order of the file. *)
Fixpoint errorsFrom (i : nat) (rest : list Row) : list jsstring :=
  match rest with
  | [] => []
  | parts :: rest' =>
      match rowError i parts with
      | Some msg => msg :: errorsFrom (S i) rest'
      | None => errorsFrom (S i) rest'
      end
  end.

(** A header and five rows, none of them valid: a short row, a row without
    a question, which is passed over, a row without a correct answer, a
    row with an empty wrong answer, a row whose question is a quoted
    blank. *)
Definition fourBadRows : jsstring :=
  lit "Question,Correct Answer,Wrong Answer 1,Wrong Answer 2,Wrong Answer 3"
  ++ [LF] ++ lit "a,b"
  ++ [LF] ++ lit ",x,y,z,w"
  ++ [LF] ++ lit "q1,,w1,w2,w3"
  ++ [LF] ++ lit "q2,c,w1,,w3"
  ++ [LF] ++ [QUOTE] ++ lit " " ++ [QUOTE] ++ lit ",c,w1,w2,w3".

(** A header, three valid rows and a short one. *)
Definition threeValidRows : jsstring :=
  lit "Question,Correct Answer,Wrong Answer 1,Wrong Answer 2,Wrong Answer 3"
  ++ [LF] ++ lit "What is the capital of France?,Paris,London,Berlin,Madrid"
  ++ [LF] ++ lit "What is 2 + 2?,4,3,5,6"
  ++ [LF] ++ lit "incomplete,row"
  ++ [LF] ++ lit "Who painted the Mona Lisa?,Da Vinci,Picasso,Van Gogh,Monet".

End UploadSpec.

(* ================================================================== *)
(** ** CSV scanner: the vocabulary of the statements *)
(* ================================================================== *)

Module CsvSpec.

(** [c] closes the current field: a comma or a line break outside quotes. *)
Definition endsField (s : Scanner) (c : CodeUnit) : bool :=
  (isComma c || isEol c) && negb (inQuotes s).

(** The positions the loop goes through on [text]: the locals, the
    characters of the current field consumed so far, and the text still to
    be read. *)
Inductive Reach (text : jsstring) : Scanner -> jsstring -> jsstring -> Prop :=
| Reach_start : Reach text init [] text
| Reach_step s field c rest :
    Reach text s field (c :: rest) ->
    Reach text
      (fst (scanChar s c (hd_error rest)))
      (if endsField s c then []
       else if snd (scanChar s c (hd_error rest))
            then field ++ c :: firstn 1 rest else field ++ [c])
      (if snd (scanChar s c (hd_error rest)) then tl rest else rest).

(** A bare field with a quote in it, then a second field. *)
Definition quoteInField : jsstring := lit "a" ++ [QUOTE] ++ lit "b,c".

(** *** Fields as they are written and as they are read *)

(** A field of the text: written bare, or between double quotes with every
    quote of the content doubled. *)
Inductive Field :=
| Unquoted (s : jsstring)
| Quoted (content : jsstring).

(** Every quote of the content doubled. *)
Fixpoint escapeQuotes (content : jsstring) : jsstring :=
  match content with
  | [] => []
  | c :: r => if isQuote c then QUOTE :: QUOTE :: escapeQuotes r
              else c :: escapeQuotes r
  end.

(** The characters of the field in the text. *)
Definition render (f : Field) : jsstring :=
  match f with
  | Unquoted s => s
  | Quoted content => QUOTE :: escapeQuotes content ++ [QUOTE]
  end.

(** What the parser is to return for the field: the bare text trimmed, the
    quoted content as it is. *)
Definition value (f : Field) : jsstring :=
  match f with
  | Unquoted s => trim s
  | Quoted content => content
  end.

Definition isSeparator (c : CodeUnit) : bool := isComma c || isEol c.

(** A bare field does not begin with a quote and holds no comma and no line
    break (it may hold quotes further on); a quoted field may hold
    anything. *)
Definition fieldOk (f : Field) : bool :=
  match f with
  | Unquoted s =>
      negb (nextIs (hd_error s) QUOTE) &&
      forallb (fun c => negb (isSeparator c)) s
  | Quoted _ => true
  end.

(** The fields of a row, commas between them. *)
Definition renderRow (fs : list Field) : jsstring :=
  join [COMMA] (List.map render fs).

Inductive Eol := eolLF | eolCRLF.

Definition eolText (e : Eol) : jsstring :=
  match e with eolLF => [LF] | eolCRLF => [CR; LF] end.

(** The text of a table: every row of [body] with its line break, then the
    last row, which has none. *)
Fixpoint renderTable (body : list (list Field * Eol)) (last : list Field)
  : jsstring :=
  match body with
  | [] => renderRow last
  | (fs, e) :: body' => renderRow fs ++ eolText e ++ renderTable body' last
  end.

(** The scanner outside quotes with the given field content and flag. *)
Definition setField (s : Scanner) (cf : jsstring) (startedWithQuote : bool)
  : Scanner :=
  mkScanner (rows s) (currentRow s) cf false startedWithQuote.

(** The locals as they are when a field begins. *)
Definition atFieldStart (s : Scanner) : Prop :=
  currentField s = [] /\ inQuotes s = false /\
  fieldStartedWithQuote s = false.

(** The rows pushed so far, then the row being closed unless all its fields
    are empty. *)
Definition pushRow (rs : list Row) (row : Row) : list Row :=
  if someNonEmpty row then rs ++ [row] else rs.

(** *** Every text: the value of a field from its characters *)

(** What the loop builds from the characters that follow the opening quote
    of a field: two quotes in a row give one quote, a single quote ends
    quoted mode, and the loop goes on appending the characters after it as
    they are; a field that is never closed runs to its end. *)
Fixpoint quotedContent (t : jsstring) : jsstring :=
  match t with
  | [] => []
  | c :: r =>
      if isQuote c then
        match r with
        | [] => []
        | c2 :: r2 => if isQuote c2 then QUOTE :: quotedContent r2 else r
        end
      else c :: quotedContent r
  end.

(** The value the loop gives to a field, from the characters of the
    field. *)
Definition readValue (field : jsstring) : jsstring :=
  match field with
  | c :: t => if isQuote c then quotedContent t else trim field
  | [] => trim field
  end.

(** The interior of a quoted field, as the specification has it: the
    characters between the opening quote and the quote that closes the
    field, two quotes in a row standing for one quote; [t] is what follows
    the opening quote.  Nothing after the closing quote belongs to it. *)
Fixpoint interior (t : jsstring) : jsstring :=
  match t with
  | [] => []
  | c :: r =>
      if isQuote c then
        match r with
        | [] => []
        | c2 :: r2 => if isQuote c2 then QUOTE :: interior r2 else []
        end
      else c :: interior r
  end.

(** The characters of a quoted field that stand after its closing quote. *)
Fixpoint afterClose (t : jsstring) : jsstring :=
  match t with
  | [] => []
  | c :: r =>
      if isQuote c then
        match r with
        | [] => []
        | c2 :: r2 => if isQuote c2 then afterClose r2 else r
        end
      else afterClose r
  end.

(** The value of a field as the specification says: the field trimmed
    when it does not begin with a quote, the interior when it does. *)
Definition specValue (field : jsstring) : jsstring :=
  match field with
  | c :: t => if isQuote c then interior t else trim field
  | [] => trim field
  end.

(** What a field that begins with a quote holds after its closing quote;
    nothing for a bare field. *)
Definition trailing (field : jsstring) : jsstring :=
  match field with
  | c :: t => if isQuote c then afterClose t else []
  | [] => []
  end.

(** A quoted field, a blank after its closing quote, a second field. *)
Definition blankAfterQuote : jsstring :=
  [QUOTE] ++ lit "a" ++ [QUOTE] ++ lit " ,b".

(** The locals against the characters of the field read so far. *)
Definition fieldInv (s : Scanner) (field rest : jsstring) : Prop :=
  match field with
  | [] =>
      currentField s = [] /\ inQuotes s = false /\
      fieldStartedWithQuote s = false
  | c :: t =>
      if isQuote c then
        fieldStartedWithQuote s = true /\
        if inQuotes s then
          forall u, quotedContent (t ++ u) = currentField s ++ quotedContent u
        else
          (forall u, nextIs (hd_error u) QUOTE = false ->
                     quotedContent (t ++ u) = currentField s ++ u) /\
          (nextIs (hd_error rest) QUOTE = true ->
           forall u, quotedContent (t ++ u) = currentField s ++ u)
      else
        currentField s = field /\ inQuotes s = false /\
        fieldStartedWithQuote s = false
  end.

(** A header row and a row with quoted fields: a line break and outer
    blanks inside quotes, an escaped quote, blanks around a bare field. *)
Definition sampleHeader : list Field :=
  [Unquoted (lit "question"); Unquoted (lit " correct "); Unquoted (lit "w1");
   Unquoted (lit "w2"); Unquoted (lit "w3")].

Definition sampleLast : list Field :=
  [Quoted (lit " line1" ++ [LF] ++ lit "line2 "); Unquoted (lit " A ");
   Quoted (lit "He said " ++ [QUOTE] ++ lit "hi" ++ [QUOTE]);
   Unquoted (lit "C"); Unquoted (lit "D")].

(** [cf] put before the first of the fields of a line. *)
Definition prefixFirst (cf : jsstring) (fields : list jsstring)
  : list jsstring :=
  match fields with
  | [] => [cf]
  | f0 :: fs => (cf ++ f0) :: fs
  end.

(** The rows read from [ls], the lines split into fields, by a scanner that
    holds [cr] and [cf]. *)
Definition glue (cr : Row) (cf : jsstring) (ls : list (list jsstring))
  : list Row :=
  match ls with
  | [] => [cr ++ [trim cf]]
  | l0 :: ls' =>
      (cr ++ List.map trim (prefixFirst cf l0)) ::
      List.map (List.map trim) ls'
  end.

(** No field of [text] begins with a double quote.  A field begins at the
    start of the text and after every comma and line break; [atStart]
    tells whether [text] begins one. *)
Fixpoint noOpeningQuote (atStart : bool) (text : jsstring) : bool :=
  match text with
  | [] => true
  | c :: r => negb (atStart && isQuote c) && noOpeningQuote (isSeparator c) r
  end.

Definition isCR (c : CodeUnit) : bool := (c =? CR)%N.

(** The text cut at every line feed and every carriage return. *)
Fixpoint splitEol (s : jsstring) : list jsstring :=
  match s with
  | [] => [[]]
  | c :: r =>
      if isEol c then [] :: splitEol r
      else match splitEol r with
           | [] => [[c]]
           | h :: t => (c :: h) :: t
           end
  end.

(** A line cut at its commas, every part trimmed. *)
Definition fieldsOf (line : jsstring) : Row :=
  List.map trim (split COMMA line).

Definition blankOrComma (c : CodeUnit) : bool := isWhiteSpace c || isComma c.

(** A line without a carriage return between two of its characters that
    are not blank, or made of commas and blanks only. *)
Definition lineOk (line : jsstring) : bool :=
  forallb blankOrComma line || negb (existsb isCR (trim line)).

(** The rows the upload parser reads from a line without a field that
    begins with a quote: the line cut at its carriage returns. *)
Definition cutRows (line : jsstring) : list Row :=
  filter someNonEmpty (List.map fieldsOf (split CR line)).

(** [f] applied to the last element. *)
Fixpoint mapLast {A} (f : A -> A) (l : list A) : list A :=
  match l with
  | [] => []
  | [x] => [f x]
  | x :: xs => x :: mapLast f xs
  end.

(** *** The upload parser against the fallback loader *)

(** A header and a row whose first field is quoted and holds a comma. *)
Definition quotedComma : jsstring :=
  lit "h" ++ [LF] ++ [QUOTE] ++ lit "a,b" ++ [QUOTE] ++ lit ",c,d,e,f".

(** The rows of the fallback loader: its lines split into parts, every part
    trimmed, without the rows whose parts are all empty. *)
Definition fallbackRows (text : jsstring) : list Row :=
  filter someNonEmpty
    (List.map (fun line => List.map trim (Fallback.lineParts line))
              (Fallback.lines text)).

(** The two conditions under which the readers are compared. *)
Definition cutAlike (text : jsstring) : bool :=
  noOpeningQuote true text && forallb lineOk (split LF text).

Definition sameRows (a b : list Row) : bool :=
  if list_eq_dec (list_eq_dec jsstring_eq_dec) a b then true else false.

(** The texts of [n] characters over [units]. *)
Fixpoint textsOver (units : list CodeUnit) (n : nat) : list jsstring :=
  match n with
  | O => [[]]
  | S n' =>
      flat_map (fun t => List.map (fun c => c :: t) units) (textsOver units n')
  end.

(** A letter, a comma, a blank, the two line breaks and the quote. *)
Definition sampleUnits : list CodeUnit := [97%N; COMMA; 32%N; LF; CR; QUOTE].

(** A header and a row with a lone carriage return between two fields. *)
Definition loneCR : jsstring := lit "h" ++ [LF] ++ lit "a" ++ [CR] ++ lit "b".

(** A text with CRLF line ends, a quote in the middle of a field, a blank
    line, carriage returns among blanks and among commas, and a carriage
    return at the very end. *)
Definition mixedText : jsstring :=
  lit "question, correct ,w1,w2,w3" ++ [CR; LF] ++ lit "  " ++ [CR] ++
  lit " " ++ [LF] ++ lit "," ++ [CR] ++ lit ", " ++ [LF] ++ lit " " ++ [CR] ++
  lit " 5" ++ [QUOTE] ++ lit " nails ,4, 3,5 ,6  " ++ [CR].

(** A text without quotes: blanks around fields, a blank line, a line of
    commas only. *)
Definition plainText : jsstring :=
  lit "question, correct ,w1,w2,w3" ++ [LF] ++ lit "   " ++ [LF] ++
  lit ",," ++ [LF] ++ lit "  What is 2 + 2? ,4, 3,5 ,6  ".

End CsvSpec.

(* ================================================================== *)
(** ** The round engine: keyboard, projections, clock face *)
(* ================================================================== *)

Module RoundMore.
Import Round.

(** [handleKeyDown(event)] with [key = event.key]; [shuffled] and [theme] are
    the random outcomes of the round it may start. *)
Definition handleKeyDown (key : jsstring) (shuffled : list Question)
  (theme : Z) (g : Game) : Game :=
  if showCongratulations g && (streq key (lit "Enter") || streq key (lit " "))
  then nextRound shuffled theme g
  else g.

(** [ngOnDestroy]: the timer is stopped (and the audio context closed). *)
Definition ngOnDestroy (g : Game) : Game := stopTimer g.

(** [isCorrectAnswer]; [None] is the TypeError of reading a property of
    [undefined], when [questionIndex] is outside [questionSets]. *)
Definition isCorrectAnswer (questionIndex answerIndex : Z) (g : Game)
  : option bool :=
  if negb (roundComplete g) then Some false
  else
    match get (questionSets g) questionIndex with
    | None => None
    | Some qs => Some (correct (qsQuestion qs) =? answerIndex)%Z
    end.

(** [qs.selected === answerIndex] *)
Definition selectedIs (qs : QuestionState) (answerIndex : Z) : bool :=
  match selected qs with
  | Some a => (a =? answerIndex)%Z
  | None => false
  end.

Definition isWrongAnswer (questionIndex answerIndex : Z) (g : Game)
  : option bool :=
  if negb (roundComplete g) then Some false
  else
    match get (questionSets g) questionIndex with
    | None => None
    | Some qs => Some (selectedIs qs answerIndex && negb (isRight qs))
    end.

Definition isSelected (questionIndex answerIndex : Z) (g : Game)
  : option bool :=
  match get (questionSets g) questionIndex with
  | None => None
  | Some qs => Some (selectedIs qs answerIndex)
  end.

(** [s.padStart(targetLength, pad)] for a one-character [pad]. *)
Definition padStart (targetLength : nat) (pad : CodeUnit) (s : jsstring)
  : jsstring :=
  repeat pad (targetLength - List.length s) ++ s.

(** [getFormattedTime]; [time] is an integer number of seconds, for which
    [Math.floor(time / 60)] is the floor quotient and [time % 60] the
    remainder with the sign of [time]. *)
Definition getFormattedTime (g : Game) : jsstring :=
  let time := timeRemaining g in
  let minutes := (time / 60)%Z in
  let seconds := Z.rem time 60 in
  numToString minutes ++ lit ":" ++ padStart 2 48%N (numToString seconds).

Definition getCurrentRoundPercent (g : Game) : Z :=
  let total := currentRoundTotal g in
  if (total =? 0)%Z then 0%Z
  else Math_round ((toNumber (currentRoundCorrect g) / toNumber total) * 100)%float.

Definition hasMultipleRounds (g : Game) : bool :=
  (4 <? List.length (allQuestions g))%nat.

Definition isPerfectScore (g : Game) : bool :=
  let total := currentRoundTotal g in
  if (total =? 0)%Z then false
  else (currentRoundCorrect g =? total)%Z.

End RoundMore.

(* ================================================================== *)
(** ** Round engine: sessions of user actions *)
(* ================================================================== *)

Module RoundMoreSpec.
Import Round.
Import RoundSpec.
Import RoundMore.

(** [n] ticks of the timer. *)
Definition ticks (n : nat) (g : Game) : Game := Nat.iter n tick g.

(** What the user and the timer can do to the component. *)
Inductive Action :=
| AEvent (e : Event)
| AKey (key : jsstring) (shuffled : list Question) (theme : Z)
| ABack
| ASetQuestionsPerRound (count : Z)
| ASetTimeLimit (seconds : Z).

Definition act (a : Action) (g : Game) : option Game :=
  match a with
  | AEvent e => step e g
  | AKey key shuffled theme => Some (handleKeyDown key shuffled theme g)
  | ABack => Some (goBack g)
  | ASetQuestionsPerRound count => Some (setQuestionsPerRound count g)
  | ASetTimeLimit seconds => Some (setTimeLimit seconds g)
  end.

Fixpoint play (actions : list Action) (g : Game) : option Game :=
  match actions with
  | [] => Some g
  | a :: actions' =>
      match act a g with
      | Some g' => play actions' g'
      | None => None
      end
  end.

(** The flags of the component agree: an expired round is complete, a
    complete round holds no timer, and the congratulations are shown only
    on a complete round that did not expire. *)
Definition flagsInv (g : Game) : Prop :=
  (timeExpired g = true -> roundComplete g = true) /\
  (roundComplete g = true -> timerInterval g = false) /\
  (showCongratulations g = true ->
   roundComplete g = true /\ timeExpired g = false).

(** The scores are counts: the correct answers are at most the answers. *)
Definition scoreInv (g : Game) : Prop :=
  (0 <= currentRoundCorrect g <= currentRoundTotal g)%Z /\
  (0 <= cumulativeCorrect g <= cumulativeTotal g)%Z.

(** The number of [ENext] events. *)
Definition nextCount (events : list Event) : nat :=
  List.length
    (filter (fun e => match e with ENext _ _ => true | _ => false end) events).

(** A game with the given time on the clock. *)
Definition atTime (time : Z) : Game :=
  mkGame [] time false false false 1 0 0 0 0 0 [] true 4 90.

(** The percentage is a nearest integer of the exact quotient. *)
Definition nearestPercent (c t p : Z) : bool :=
  ((0 <=? p) && (p <=? 100) && (2 * Z.abs (100 * c - p * t) <=? t))%Z.

(** The totals up to which the percentage is checked case by case: fifty
    rounds of four questions. *)
Definition checkedTotals : nat := 200.

(** A component with the given cumulative counts. *)
Definition withTotals (c t : Z) : Game :=
  mkGame [] 0 true false true 1 0 0 c t 0 [] false 4 90.

(** Every pair of counts up to [bound] gives a nearest integer. *)
Definition percentsNearest (bound : nat) : bool :=
  forallb
    (fun t =>
       forallb
         (fun c =>
            nearestPercent (Z.of_nat c) (Z.of_nat t)
              (getCumulativePercent
                 (withTotals (Z.of_nat c) (Z.of_nat t))))
         (seq 0 (S t)))
    (seq 1 bound).

End RoundMoreSpec.

(* ================================================================== *)
(** ** The upload component: starting the game *)
(* ================================================================== *)

Module UploadMore.
Import Upload.

Definition setGameStarted (b : bool) (h : Home) : Home :=
  mkHome b (questionsLoaded h) (uploadError h) (fileName h) (questionCount h)
         (questionsPerRound h) (timeLimit h) (uploadedQuestions h).

(** [startGame], the part that runs at once. *)
Definition startGame (h : Home) : Home :=
  if questionsLoaded h then setGameStarted true h else h.

(** The callback [startGame] defers with [setTimeout], applied to the game
    component once it exists; [shuffled] and [theme] are the random
    outcomes of the round it starts. *)
Definition configureGame (h : Home) (shuffled : list Question) (theme : Z)
  (g : Round.Game) : Round.Game :=
  Round.loadQuestionsFromData (uploadedQuestions h) shuffled theme
    (Round.setTimeLimit (timeLimit h)
       (Round.setQuestionsPerRound (questionsPerRound h) g)).

Definition exitGame (h : Home) : Home := setGameStarted false h.

Definition setQuestionsPerRound (count : Z) (h : Home) : Home :=
  mkHome (gameStarted h) (questionsLoaded h) (uploadError h) (fileName h)
         (questionCount h) count (timeLimit h) (uploadedQuestions h).

Definition setTimeLimit (seconds : Z) (h : Home) : Home :=
  mkHome (gameStarted h) (questionsLoaded h) (uploadError h) (fileName h)
         (questionCount h) (questionsPerRound h) seconds (uploadedQuestions h).

Definition getQuestions (h : Home) : list Question := uploadedQuestions h.

End UploadMore.

(* ================================================================== *)
(** ** Upload validator: the questions of a bank *)
(* ================================================================== *)

Module UploadMoreSpec.
Import Upload.
Import UploadSpec.

(** A question as the game needs it: a text, four answers, none of them
    empty or with blanks around it, and the index of one of the four. *)
Definition wellFormed (qn : Question) : Prop :=
  question qn <> [] /\ trim (question qn) = question qn /\
  List.length (answers qn) = 4%nat /\
  Forall (fun a => a <> [] /\ trim a = a) (answers qn) /\
  (0 <= correct qn < 4)%Z.

(** The rows the loop passes over without a word. *)
Definition skipped (parts : Row) : bool :=
  (List.length parts =? 0)%nat || falsy (part parts 0).

(** Two questions built from the same row by two shuffles. *)
Definition sameQuestion (q1 q2 : Question) : Prop :=
  question q1 = question q2 /\
  Permutation (answers q1) (answers q2) /\
  get (answers q1) (correct q1) = get (answers q2) (correct q2).

(** A random stream: every call returns 0. *)
Definition zeros : Rng := fun _ => 0%Q.

(** A header, four valid rows, the last with two more columns, a row
    without a question and a short row. *)
Definition fourValidRows : jsstring :=
  lit "Question,Correct Answer,Wrong Answer 1,Wrong Answer 2,Wrong Answer 3"
  ++ [LF] ++ lit "What is the capital of France?,Paris,London,Berlin,Madrid"
  ++ [LF] ++ lit "What is 2 + 2?,4,3,5,6"
  ++ [LF] ++ lit ",skipped,row,of,five"
  ++ [LF] ++ lit "incomplete,row"
  ++ [LF] ++ lit "Who painted the Mona Lisa?,Da Vinci,Picasso,Van Gogh,Monet"
  ++ [LF] ++ lit "How many continents are there?,7,5,6,8,extra,columns".

End UploadMoreSpec.

(* ================================================================== *)
(** ** CSV scanner: every text *)
(* ================================================================== *)

Module CsvMoreSpec.
Import CsvSpec.

(** A row with a field that is not empty. *)
Definition hasContent (row : Row) : Prop :=
  exists field, In field row /\ field <> [].

(** A string without blanks around it. *)
Definition trimmed (field : jsstring) : Prop := trim field = field.

(** A text of blanks and line breaks only. *)
Definition blank (text : jsstring) : bool := forallb isWhiteSpace text.

(** A text without a double quote. *)
Definition quoteFree (text : jsstring) : bool :=
  forallb (fun c => negb (isQuote c)) text.

(** The locals of the two variants of [parseCSV] agree outside quotes. *)
Definition agree (s : Scanner) (s0 : Scanner0) : Prop :=
  rows s = rows0 s0 /\ currentRow s = currentRow0 s0 /\
  currentField s = currentField0 s0 /\
  inQuotes s = false /\ inQuotes0 s0 = false /\
  fieldStartedWithQuote s = false.

(** The same rows, every line break replaced by [e]. *)
Definition withEol (e : Eol) (body : list (list Field * Eol))
  : list (list Field * Eol) :=
  List.map (fun row => (fst row, e)) body.

(** A header and a row whose second field opens a quote that is never
    closed. *)
Definition unclosedPrefix : jsstring := lit "h1,h2" ++ [LF] ++ lit "a,".
Definition unclosedBody : jsstring := lit "b,c" ++ [LF] ++ lit "d,e".
Definition unclosedText : jsstring :=
  unclosedPrefix ++ [QUOTE] ++ unclosedBody.

(** Two rows, the first with a quoted line break. *)
Definition twoRows : list (list Field * Eol) :=
  [([Quoted (lit "a" ++ [CR; LF] ++ lit "b"); Unquoted (lit " c ")], eolLF)].
Definition lastRow : list Field := [Unquoted (lit "d"); Unquoted (lit "e")].

End CsvMoreSpec.

(* ================================================================== *)
(** ** Round engine: gating, scoring, timer *)
(* ================================================================== *)

Module RoundFacts.
Import Round.
Import RoundSpec.

Lemma roundInv_startNewRound shuffled theme g :
  roundInv (startNewRound shuffled theme g).
Proof. unfold roundInv; simpl; discriminate. Qed.

Lemma roundInv_step e g g' :
  roundInv g -> step e g = Some g' -> roundInv g'.
Proof.
  unfold roundInv. intros Hinv Hstep.
  destruct e as [questions shuffled theme|qi ai| | |shuffled theme];
    simpl in Hstep.
  - inversion Hstep; subst. unfold loadQuestionsFromData. simpl.
    destruct (0 <? List.length questions)%nat; simpl; [discriminate|exact Hinv].
  - unfold selectAnswer in Hstep.
    destruct (roundComplete g) eqn:Hc.
    + inversion Hstep; subst; auto.
    + destruct (get (questionSets g) qi); inversion Hstep; subst; simpl.
      intros He. specialize (Hinv He). congruence.
  - inversion Hstep; subst. unfold tick.
    destruct (timerInterval g); auto.
    destruct (timeRemaining g >? 0)%Z; simpl; auto.
  - inversion Hstep; subst. unfold submitAnswers.
    destruct (roundComplete g) eqn:Hc; auto.
    destruct (forallb answered (questionSets g)); simpl; auto.
    intros He. specialize (Hinv He). congruence.
  - inversion Hstep; subst. simpl. discriminate.
Qed.

Lemma countCorrect_from (qss : list QuestionState) (acc : Z) :
  fold_left (fun correctCount qs =>
               if isRight qs then (correctCount + 1)%Z else correctCount)
            qss acc
  = (acc + Z.of_nat (List.length (filter isRight qss)))%Z.
Proof.
  revert acc. induction qss as [|qs qss IH]; intros acc; simpl.
  - lia.
  - rewrite IH. destruct (isRight qs); simpl List.length; lia.
Qed.

Lemma countCorrect_filter (qss : list QuestionState) :
  countCorrect qss = Z.of_nat (List.length (filter isRight qss)).
Proof. unfold countCorrect. rewrite countCorrect_from. lia. Qed.

Lemma isRight_iff (qs : QuestionState) :
  isRight qs = true <-> selected qs = Some (correct (qsQuestion qs)).
Proof.
  unfold isRight. destruct (selected qs) as [a|].
  - rewrite Z.eqb_eq. split; intros H; [subst; reflexivity|congruence].
  - split; discriminate.
Qed.

Lemma forallb_answered (qss : list QuestionState) :
  forallb answered qss = true <->
  Forall (fun qs => selected qs <> None) qss.
Proof.
  rewrite forallb_forall, Forall_forall.
  split; intros H qs Hin; specialize (H qs Hin); unfold answered in *;
    destruct (selected qs); congruence.
Qed.

Lemma rightAnswers_isRight (qss : list QuestionState) :
  List.length (filter isRight qss) = rightAnswers qss.
Proof.
  unfold rightAnswers. f_equal. apply filter_ext. intros qs.
  unfold isRight. destruct (selected qs) as [a|]; [|reflexivity].
  destruct (Z.eq_dec a (correct (qsQuestion qs))) as [->|Hne].
  - apply Z.eqb_refl.
  - apply Z.eqb_neq; assumption.
Qed.

(** C5.  [canSubmit] holds exactly in an active round in which every
    question has a selection.  [submitAnswers] changes nothing unless
    [canSubmit] holds; when it does, the submission stops the countdown,
    stores the number of questions whose selection is the correct index and
    the number of questions of the round, and leaves the round complete as
    submitted. *)
Theorem canSubmit_submitAnswers (g : Game) (Hinv : roundInv g) :
  (canSubmit g = true <->
     phase g = Active /\
     Forall (fun qs => selected qs <> None) (questionSets g)) /\
  (canSubmit g = false -> submitAnswers g = g) /\
  (canSubmit g = true ->
     let g' := submitAnswers g in
     timerInterval g' = false /\
     currentRoundCorrect g' = Z.of_nat (rightAnswers (questionSets g)) /\
     currentRoundTotal g' = Z.of_nat (List.length (questionSets g)) /\
     questionSets g' = questionSets g /\
     phase g' = Complete Submitted).
Proof.
  unfold canSubmit, phase, submitAnswers.
  destruct (roundComplete g) eqn:Hc; simpl.
  - repeat split; try discriminate.
    intros [H _]; discriminate.
  - rewrite <- forallb_answered.
    destruct (forallb answered (questionSets g)) eqn:Ha; simpl.
    + repeat split; try discriminate; auto.
      * rewrite countCorrect_filter, rightAnswers_isRight. reflexivity.
      * destruct (timeExpired g) eqn:He; [|reflexivity].
        rewrite (Hinv He) in Hc. discriminate.
    + repeat split; try discriminate; auto.
      intros [_ H]; discriminate.
Qed.

Lemma canSubmit_submitAnswers_witness :
  canSubmit sampleGame = true /\
  currentRoundCorrect (submitAnswers sampleGame) = 1%Z /\
  currentRoundTotal (submitAnswers sampleGame) = 2%Z /\
  phase (submitAnswers sampleGame) = Complete Submitted.
Proof.
  assert (Hinv : roundInv sampleGame) by (intros H; discriminate H).
  destruct (canSubmit_submitAnswers Hinv) as [_ [_ H]].
  destruct (H eq_refl) as [_ [Hc [Ht [_ Hp]]]].
  repeat split; assumption.
Defined.

(** C2.  The timer: the round of a one-second limit is still active after one
    tick (the tick takes [timeRemaining] from 1 to 0), a selection is still
    stored, and only the second tick ends the round as expired, after which
    [selectAnswer] changes nothing. *)
Theorem one_tick_leaves_round_active
  (shuffled : list Question) (theme : Z) (g : Game)
  (Hlimit : timeLimitSeconds g = 1%Z) :
  let g0 := startNewRound shuffled theme g in
  let g1 := tick g0 in
  let g2 := tick g1 in
  phase g0 = Active /\
  timeRemaining g1 = 0%Z /\ phase g1 = Active /\ timeExpired g1 = false /\
  (forall qi ai qs,
      get (questionSets g1) qi = Some qs ->
      exists g', selectAnswer qi ai g1 = Some g' /\
                 get (questionSets g') qi =
                   Some (mkQuestionState (qsQuestion qs) (Some ai))) /\
  phase g2 = Complete TimedOut /\ timeExpired g2 = true /\
  (forall qi ai, selectAnswer qi ai g2 = Some g2).
Proof.
  unfold phase, tick, selectAnswer; simpl. rewrite Hlimit; simpl.
  repeat split.
  intros qi ai qs Hget. rewrite Hget. eexists; split; [reflexivity|].
  simpl. unfold get in *. destruct (qi <? 0)%Z; [discriminate|].
  revert Hget. generalize (Z.to_nat qi).
  generalize (List.map (fun q => mkQuestionState q None)
                (selectRandomQuestions shuffled (questionsPerRound g))).
  intros l. induction l as [|x l IH]; intros [|k] Hk; simpl in *;
    try discriminate; auto.
Qed.

Lemma one_tick_leaves_round_active_witness :
  let g1 := tick (startNewRound [sampleQuestion] 0 oneSecondGame) in
  phase g1 = Active /\ timeExpired g1 = false /\
  exists g', selectAnswer 0 3 g1 = Some g' /\
             List.map selected (questionSets g') = [Some 3%Z].
Proof.
  pose proof (@one_tick_leaves_round_active [sampleQuestion] 0 oneSecondGame
                eq_refl) as H.
  cbv zeta in H. destruct H as [_ [_ [Hp [He _]]]].
  split; [exact Hp|]. split; [exact He|].
  eexists; split; reflexivity.
Defined.

(** Session totals: of the events of a session only an accepted submission
    changes the cumulative counts, and it adds the counts of the round. *)
Lemma cumulative_totals_step (e : Event) (g g' : Game) :
  step e g = Some g' ->
  (cumulativeCorrect g', cumulativeTotal g') =
  match e with
  | ESubmit =>
      if canSubmit g
      then ((cumulativeCorrect g + Z.of_nat (rightAnswers (questionSets g)))%Z,
            (cumulativeTotal g + Z.of_nat (List.length (questionSets g)))%Z)
      else (cumulativeCorrect g, cumulativeTotal g)
  | _ => (cumulativeCorrect g, cumulativeTotal g)
  end.
Proof.
  destruct e as [questions shuffled theme|qi ai| | |shuffled theme]; simpl;
    intros Hstep.
  - inversion Hstep; subst. unfold loadQuestionsFromData. simpl.
    destruct (0 <? List.length questions)%nat; reflexivity.
  - unfold selectAnswer in Hstep. destruct (roundComplete g).
    + inversion Hstep; reflexivity.
    + destruct (get (questionSets g) qi); inversion Hstep; reflexivity.
  - inversion Hstep; subst. unfold tick.
    destruct (timerInterval g); [|reflexivity].
    destruct (timeRemaining g >? 0)%Z; reflexivity.
  - inversion Hstep; subst. unfold submitAnswers, canSubmit.
    destruct (roundComplete g); [reflexivity|].
    destruct (forallb answered (questionSets g)); [|reflexivity].
    simpl. rewrite countCorrect_filter, rightAnswers_isRight. reflexivity.
  - inversion Hstep; reflexivity.
Qed.

(** A round that times out leaves the cumulative counts as they were. *)
Lemma cumulative_totals_timeout (g : Game) :
  cumulativeCorrect (tick g) = cumulativeCorrect g /\
  cumulativeTotal (tick g) = cumulativeTotal g.
Proof.
  unfold tick. destruct (timerInterval g); [|split; reflexivity].
  destruct (timeRemaining g >? 0)%Z; split; reflexivity.
Qed.

Lemma getCumulativePercent_zero (g : Game) :
  cumulativeTotal g = 0%Z -> getCumulativePercent g = 0%Z.
Proof. unfold getCumulativePercent. intros ->. reflexivity. Qed.

(** C9.  The percentage after ten submitted rounds with 23 of 40 answers
    correct: the quotient 23/40 is rounded to binary64 before it is scaled,
    the product is just below 57.5 and the percentage is 57, while
    100 * 23 / 40 is exactly 57.5 and rounds to 58, which is also what
    [Math.round] gives when the product is taken first. *)
Theorem getCumulativePercent_23_of_40 :
  exists g,
    run tenRounds newGame = Some g /\
    cumulativeCorrect g = 23%Z /\ cumulativeTotal g = 40%Z /\
    getCumulativePercent g = 57%Z /\
    (2 * (100 * cumulativeCorrect g) = (2 * 57 + 1) * cumulativeTotal g)%Z /\
    Math_round (toNumber (100 * cumulativeCorrect g)
                / toNumber (cumulativeTotal g))%float = 58%Z.
Proof.
  eexists. split; [vm_compute; reflexivity|].
  repeat split; vm_compute; reflexivity.
Qed.

End RoundFacts.

(* ================================================================== *)
(** ** Upload validator: shuffling and row validation *)
(* ================================================================== *)

Module UploadFacts.
Import Upload.
Import UploadSpec.

Section Shuffle.
Context {A : Type}.

Lemma assign_perm (l : list A) (j : nat) (y a : A) :
  nth_error l j = Some y -> Permutation (y :: assign l j a) (a :: l).
Proof.
  revert j. induction l as [|b l IH]; intros [|j] Hj; simpl in *;
    try discriminate.
  - inversion Hj; subst. apply perm_swap.
  - apply perm_trans with (b :: y :: assign l j a); [apply perm_swap|].
    apply perm_trans with (b :: a :: l); [|apply perm_swap].
    apply perm_skip. apply IH. assumption.
Qed.

Lemma swap_perm (l : list A) (i j : nat) : Permutation (swap l i j) l.
Proof.
  unfold swap.
  destruct (nth_error l i) as [x|] eqn:Hi; [|reflexivity].
  destruct (nth_error l j) as [y|] eqn:Hj; [|reflexivity].
  revert i j Hi Hj.
  induction l as [|a l IH]; intros [|i] [|j] Hi Hj; simpl in *;
    try discriminate.
  - inversion Hi; inversion Hj; subst. reflexivity.
  - inversion Hi; subst. apply assign_perm. assumption.
  - inversion Hj; subst. apply assign_perm. assumption.
  - apply perm_skip. apply IH; assumption.
Qed.

Lemma shuffleFrom_perm (i : nat) (l : list A) (r : Rng) :
  Permutation (fst (shuffleFrom i l r)) l.
Proof.
  revert l r. induction i as [|i IH]; intros l r; simpl.
  - reflexivity.
  - rewrite IH. apply swap_perm.
Qed.

Lemma shuffleArray_perm (l : list A) (r : Rng) :
  Permutation (fst (shuffleArray l r)) l.
Proof. apply shuffleFrom_perm. Qed.

End Shuffle.

(** With a random number of [0, 1) the index drawn at step [i] is one of
    [0 .. i]. *)
Lemma pick_in_range (x : Q) (i : nat) :
  (0 <= x)%Q -> (x < 1)%Q -> (pick x i <= i)%nat.
Proof.
  intros H0 H1. unfold pick.
  assert (Hlt : (Qfloor (x * inject_Z (Z.of_nat (i + 1))) < Z.of_nat (i + 1))%Z).
  { rewrite Zlt_Qlt. eapply Qle_lt_trans; [apply Qfloor_le|].
    assert (Hpos : (0 < inject_Z (Z.of_nat (i + 1)))%Q).
    { change 0%Q with (inject_Z 0). rewrite <- Zlt_Qlt. lia. }
    setoid_replace (inject_Z (Z.of_nat (i + 1)))
      with (1 * inject_Z (Z.of_nat (i + 1)))%Q at 2 by ring.
    apply Qmult_lt_compat_r; assumption. }
  lia.
Qed.

Lemma indexOfFrom_found (arr : list jsstring) (x : jsstring) (i : Z) :
  In x arr ->
  (i <= indexOfFrom i arr x)%Z /\
  nth_error arr (Z.to_nat (indexOfFrom i arr x - i)) = Some x.
Proof.
  revert i. induction arr as [|a arr IH]; intros i Hin; [destruct Hin|].
  simpl. unfold streq. destruct (jsstring_eq_dec a x) as [->|Hne].
  - split; [lia|]. replace (i - i)%Z with 0%Z by lia. reflexivity.
  - destruct Hin as [->|Hin]; [congruence|].
    destruct (IH (i + 1)%Z Hin) as [Hle Hnth]. split; [lia|].
    replace (Z.to_nat (indexOfFrom (i + 1) arr x - i))
      with (S (Z.to_nat (indexOfFrom (i + 1) arr x - (i + 1)))) by lia.
    exact Hnth.
Qed.

Lemma indexOf_found (arr : list jsstring) (x : jsstring) :
  In x arr -> get arr (indexOf arr x) = Some x.
Proof.
  intros Hin. destruct (indexOfFrom_found arr x 0 Hin) as [Hle Hnth].
  unfold get, indexOf.
  destruct (indexOfFrom 0 arr x <? 0)%Z eqn:Hneg; [lia|].
  rewrite Z.sub_0_r in Hnth. exact Hnth.
Qed.

Lemma validateRow_accepted (i : nat) (parts : Row) (a : Acc) :
  accepted parts = true ->
  exists qn,
    questions (validateRow i parts a) = questions a ++ [qn] /\
    errorMessages (validateRow i parts a) = errorMessages a /\
    builtFrom parts qn.
Proof.
  unfold accepted, validateRow. intros H.
  repeat (apply andb_prop in H; destruct H as [H ?]).
  rewrite Nat.leb_le in *.
  destruct (falsy (part parts 0)); [discriminate|].
  replace (List.length parts =? 0)%nat with false
    by (symmetry; apply Nat.eqb_neq; lia).
  replace (List.length parts <? 5)%nat with false
    by (symmetry; apply Nat.ltb_ge; lia).
  cbv zeta. simpl orb. cbv iota.
  destruct (falsy (trim (part parts 0))); [discriminate|].
  destruct (falsy (trim (part parts 1))); [discriminate|].
  destruct (existsb falsy _); [discriminate|].
  destruct (shuffleArray _ (rng a)) as [shuffledAnswers r'] eqn:Hs.
  eexists; split; [reflexivity|]. split; [reflexivity|].
  assert (Hp : Permutation shuffledAnswers
                 [trim (part parts 1); trim (part parts 2);
                  trim (part parts 3); trim (part parts 4)]).
  { change shuffledAnswers with (fst (shuffledAnswers, r')).
    rewrite <- Hs. apply shuffleArray_perm. }
  repeat split; simpl; [exact Hp|].
  apply indexOf_found.
  apply (Permutation_in _ (Permutation_sym Hp)). left; reflexivity.
Qed.

Lemma validateRow_rejected (i : nat) (parts : Row) (a : Acc) :
  accepted parts = false ->
  questions (validateRow i parts a) = questions a /\
  rng (validateRow i parts a) = rng a.
Proof.
  unfold accepted, validateRow. intros H.
  destruct (falsy (part parts 0)); [rewrite orb_true_r; auto|].
  rewrite orb_false_r.
  destruct (List.length parts =? 0)%nat; [auto|].
  destruct (List.length parts <? 5)%nat eqn:H5; [auto|].
  apply Nat.ltb_ge in H5. apply Nat.leb_le in H5. rewrite H5 in H.
  cbv zeta.
  destruct (falsy (trim (part parts 0))); [auto|].
  destruct (falsy (trim (part parts 1))); [auto|].
  destruct (existsb falsy _); [auto|]. discriminate.
Qed.

Lemma validateFrom_app (i : nat) (l1 l2 : list Row) (a : Acc) :
  validateFrom i (l1 ++ l2) a =
  validateFrom (i + List.length l1) l2 (validateFrom i l1 a).
Proof.
  revert i a. induction l1 as [|p l1 IH]; intros i a; simpl.
  - rewrite Nat.add_0_r. reflexivity.
  - rewrite IH. f_equal. lia.
Qed.

Lemma validateRow_errors (i : nat) (parts : Row) (a : Acc) :
  exists es, errorMessages (validateRow i parts a) = errorMessages a ++ es.
Proof.
  unfold validateRow.
  repeat match goal with
         | |- context [if ?b then _ else _] => destruct b
         | |- context [let '(_, _) := ?p in _] => destruct p
         end; simpl;
    solve [exists []; rewrite app_nil_r; reflexivity
          | eexists; reflexivity].
Qed.

Lemma validateFrom_errors (i : nat) (rest : list Row) (a : Acc) :
  exists es, errorMessages (validateFrom i rest a) = errorMessages a ++ es.
Proof.
  revert i a. induction rest as [|p rest IH]; intros i a; simpl.
  - exists []. rewrite app_nil_r. reflexivity.
  - destruct (IH (S i) (validateRow i p a)) as [es1 ->].
    destruct (validateRow_errors i p a) as [es0 ->].
    exists (es0 ++ es1). rewrite app_assoc. reflexivity.
Qed.

Lemma validateFrom_questions (i : nat) (rest : list Row) (a : Acc) :
  exists qs,
    questions (validateFrom i rest a) = questions a ++ qs /\
    Forall2 builtFrom (filter accepted rest) qs.
Proof.
  revert i a. induction rest as [|p rest IH]; intros i a; simpl.
  - exists []. rewrite app_nil_r. split; constructor.
  - destruct (IH (S i) (validateRow i p a)) as [qs [-> HF]].
    destruct (accepted p) eqn:Hacc.
    + destruct (validateRow_accepted i p a Hacc) as [qn [-> [_ Hb]]].
      exists (qn :: qs). rewrite <- app_assoc. split; [reflexivity|].
      constructor; assumption.
    + destruct (validateRow_rejected i p a Hacc) as [-> _].
      exists qs. split; [reflexivity|assumption].
Qed.

(** C4.  Whatever numbers of [0, 1) the shuffle draws, the questions the row
    loop produces are, in order, those of the accepted rows: the text of the
    question is the trimmed field 0, its answers are a permutation of the
    trimmed fields 1 to 4, and the answer at [correct] is the trimmed
    field 1, the correct answer of the source row. *)
Theorem shuffled_answers_round_trip
  (rows : list Row) (r : Rng) (Hr : unitInterval r) :
  Forall2 builtFrom (filter accepted (tl rows))
          (questions (validateRows rows r)).
Proof.
  unfold validateRows.
  destruct (validateFrom_questions 1 (tl rows) (mkAcc [] [] r))
    as [qs [-> HF]].
  exact HF.
Qed.

Lemma halves_unit : unitInterval halves.
Proof. intros k. unfold halves. split; [discriminate|reflexivity]. Qed.

Lemma shuffled_answers_round_trip_witness :
  Forall2 builtFrom [[lit "2 + 2?"; lit " 4"; lit "3"; lit "5 "; lit "6"]]
    (questions (validateRows sampleRows halves)) /\
  List.map answers (questions (validateRows sampleRows halves)) =
    [[lit "4"; lit "6"; lit "3"; lit "5"]] /\
  List.map correct (questions (validateRows sampleRows halves)) = [0%Z].
Proof.
  split; [exact (shuffled_answers_round_trip sampleRows halves_unit)|].
  split; vm_compute; reflexivity.
Defined.

(** C6.  A row after the header whose first field is not empty and which has
    fewer than five fields makes the loop push exactly the message
    Line n: Not enough columns (need at least 5: question + 4 answers),
    where [n] is the position of the row counted from 1 with the header, and
    nothing else: the loop goes on from the same questions and random
    stream, the message is in the final error list, and the questions
    produced are those of the accepted rows among the other rows. *)
Theorem not_enough_columns
  (pre : list Row) (parts : Row) (post : list Row) (r : Rng)
  (Hheader : pre <> [])
  (Hfirst : falsy (part parts 0) = false)
  (Hshort : (List.length parts < 5)%nat) :
  let n := (Z.of_nat (List.length pre) + 1)%Z in
  let msg := lit "Line " ++ numToString n ++
             lit ": Not enough columns (need at least 5: question + 4 answers)" in
  let before := validateRows pre r in
  let a := validateRows (pre ++ parts :: post) r in
  validateRow (List.length pre) parts before = pushError before msg /\
  a = validateFrom (S (List.length pre)) post (pushError before msg) /\
  In msg (errorMessages a) /\
  Forall2 builtFrom (filter accepted (tl pre ++ post)) (questions a).
Proof.
  intros n msg before a.
  assert (Hrow : forall acc,
             validateRow (List.length pre) parts acc = pushError acc msg).
  { intros acc. unfold validateRow. rewrite Hfirst, orb_false_r.
    destruct parts as [|p0 parts']; [discriminate Hfirst|].
    apply Nat.ltb_lt in Hshort. rewrite Hshort. simpl Nat.eqb. cbv iota.
    unfold msgNotEnough, lineMsg, msg, n. reflexivity. }
  assert (Ha : a = validateFrom (S (List.length pre)) post
                     (pushError before msg)).
  { unfold a, before, validateRows.
    destruct pre as [|hd pre']; [contradiction|]. simpl tl. simpl List.length.
    rewrite validateFrom_app. simpl validateFrom. rewrite Hrow. reflexivity. }
  split; [apply Hrow|]. split; [exact Ha|]. split.
  - rewrite Ha.
    destruct (validateFrom_errors (S (List.length pre)) post
                (pushError before msg)) as [es ->].
    simpl. apply in_or_app. left. apply in_or_app. right. left. reflexivity.
  - assert (Hacc : accepted parts = false).
    { unfold accepted. apply Nat.leb_gt in Hshort. rewrite Hshort.
      rewrite andb_false_r. reflexivity. }
    destruct (validateFrom_questions 1 (tl (pre ++ parts :: post))
                (mkAcc [] [] r)) as [qs [Hq HF]].
    unfold a, validateRows. rewrite Hq. simpl app.
    destruct pre as [|hd pre']; [contradiction|]. simpl tl in *.
    rewrite filter_app in HF. simpl filter in HF. rewrite Hacc in HF.
    rewrite filter_app. exact HF.
Qed.

Lemma not_enough_columns_witness :
  parseCSV shortRowText = [[lit "header"]; [lit "a"; lit "b"]] /\
  In (lit "Line 2: Not enough columns (need at least 5: question + 4 answers)")
     (errorMessages (validateRows (parseCSV shortRowText) halves)) /\
  questions (validateRows (parseCSV shortRowText) halves) = [].
Proof.
  assert (Hparse : parseCSV shortRowText = [[lit "header"]; [lit "a"; lit "b"]])
    by (vm_compute; reflexivity).
  split; [exact Hparse|]. rewrite Hparse.
  assert (Hheader : [[lit "header"]] <> []) by discriminate.
  assert (Hshort : (List.length [lit "a"; lit "b"] < 5)%nat) by (simpl; lia).
  pose proof (@not_enough_columns [[lit "header"]] [lit "a"; lit "b"] []
                halves Hheader eq_refl Hshort) as H.
  cbv zeta in H. destruct H as [_ [_ [Hin HF]]].
  split; [exact Hin|]. inversion HF. reflexivity.
Defined.

(** C10.  When the parser yields fewer than two rows, validation fails with
    the message File must contain at least a header and one question., the
    loaded flag is cleared and the stored questions and their count are left
    as they were. *)
Theorem no_data_row (csvText : jsstring) (r : Rng) (h : Home)
  (Hrows : (List.length (parseCSV csvText) < 2)%nat) :
  let h' := parseAndValidateCSV csvText r h in
  uploadError h' =
    Some (lit "File must contain at least a header and one question.") /\
  questionsLoaded h' = false /\
  uploadedQuestions h' = uploadedQuestions h /\
  questionCount h' = questionCount h.
Proof.
  unfold parseAndValidateCSV, validate.
  apply Nat.ltb_lt in Hrows. rewrite Hrows. simpl. repeat split.
Qed.

Lemma no_data_row_witness :
  parseCSV blankText = [] /\
  uploadError (parseAndValidateCSV blankText halves home4) =
    Some (lit "File must contain at least a header and one question.") /\
  questionsLoaded (parseAndValidateCSV blankText halves home4) = false /\
  uploadedQuestions (parseAndValidateCSV blankText halves home4) =
    uploadedQuestions home4.
Proof.
  split; [vm_compute; reflexivity|].
  assert (Hrows : (List.length (parseCSV blankText) < 2)%nat)
    by (vm_compute; lia).
  destruct (no_data_row blankText halves home4 Hrows) as [He [Hl [Hq _]]].
  split; [exact He|]. split; [exact Hl|exact Hq].
Defined.

(** The message of the minimum guard is not the one shown when no row was
    accepted and some row was in error: a header and one short row, with a
    minimum of 4, fail with the list of row errors. *)
Lemma too_few_questions_counterexample :
  (Z.of_nat (List.length
               (questions
                  (validateRows (parseCSV (lit "h" ++ [LF] ++ lit "a,b"))
                     halves)))
   < questionsPerRound home4)%Z /\
  uploadError (parseAndValidateCSV (lit "h" ++ [LF] ++ lit "a,b") halves home4)
  = Some (lit "Errors found:" ++ [LF] ++
          lit "Line 2: Not enough columns (need at least 5: question + 4 answers)")
  /\
  uploadError (parseAndValidateCSV (lit "h" ++ [LF] ++ lit "a,b") halves home4)
  <> Some (lit "Need at least 4 valid questions. Found only 0.").
Proof.
  split; [vm_compute; reflexivity|].
  split; [vm_compute; reflexivity|].
  vm_compute. discriminate.
Qed.

Lemma validateRow_rowError (i : nat) (parts : Row) (a : Acc) :
  errorMessages (validateRow i parts a) =
  errorMessages a ++
  match rowError i parts with Some msg => [msg] | None => [] end.
Proof.
  unfold validateRow, rowError, pushError, msgNotEnough, msgQuestionEmpty,
    msgCorrectEmpty, msgWrongEmpty, lineMsg.
  repeat match goal with
         | |- context [if ?b then _ else _] => destruct b
         | |- context [let '(_, _) := ?p in _] => destruct p
         end; simpl; rewrite ?app_nil_r; try reflexivity;
    repeat rewrite <- app_assoc; reflexivity.
Qed.

Lemma validateFrom_errorsFrom (i : nat) (rest : list Row) (a : Acc) :
  errorMessages (validateFrom i rest a) = errorMessages a ++ errorsFrom i rest.
Proof.
  revert i a. induction rest as [|p rest IH]; intros i a; simpl.
  - rewrite app_nil_r. reflexivity.
  - rewrite IH, validateRow_rowError.
    destruct (rowError i p); simpl; rewrite <- app_assoc; reflexivity.
Qed.

Lemma validateRows_found (rows : list Row) (r : Rng) :
  List.length (questions (validateRows rows r)) =
  List.length (filter accepted (tl rows)).
Proof.
  unfold validateRows.
  destruct (validateFrom_questions 1 (tl rows) (mkAcc [] [] r))
    as [qs [-> HF]].
  simpl. symmetry. eapply Forall2_length. exact HF.
Qed.

(** C7, amended.  Whenever the number of accepted questions is below
    [questionsPerRound], validation fails and no partial question set is
    accepted: the loaded flag is cleared, the stored questions and their
    count are left as they were, even if some rows were valid.  The message
    is Need at least m valid questions. Found only k. unless an earlier
    guard applies: with fewer than two parsed rows it is the message that
    asks for a header and one question, and with no accepted question and
    at least one row in error it is Errors found: followed by the first
    three row errors in the order of the file, each on a line of its
    own. *)
Theorem too_few_questions (csvText : jsstring) (r : Rng) (h : Home) :
  let rows := parseCSV csvText in
  let found := List.length (filter accepted (tl rows)) in
  let errors := errorsFrom 1 (tl rows) in
  let h' := parseAndValidateCSV csvText r h in
  (Z.of_nat found < questionsPerRound h)%Z ->
  List.length (questions (validateRows rows r)) = found /\
  errorMessages (validateRows rows r) = errors /\
  uploadError h' =
    Some (if (List.length rows <? 2)%nat then
            lit "File must contain at least a header and one question."
          else
            match found, errors with
            | O, _ :: _ =>
                lit "Errors found:" ++ [LF] ++ join [LF] (firstn 3 errors)
            | _, _ =>
                lit "Need at least " ++ numToString (questionsPerRound h) ++
                lit " valid questions. Found only " ++
                numToString (Z.of_nat found) ++ lit "."
            end) /\
  questionsLoaded h' = false /\
  uploadedQuestions h' = uploadedQuestions h /\
  questionCount h' = questionCount h.
Proof.
  intros rows found errors h' Hfew.
  assert (Hfound : List.length (questions (validateRows rows r)) = found)
    by apply validateRows_found.
  assert (Herrors : errorMessages (validateRows rows r)
                    = errorsFrom 1 (tl rows))
    by (unfold validateRows; rewrite validateFrom_errorsFrom; reflexivity).
  split; [exact Hfound|]. split; [exact Herrors|].
  unfold h', parseAndValidateCSV, validate. fold rows.
  destruct (List.length rows <? 2)%nat; [repeat split|].
  rewrite Herrors, Hfound. fold found. unfold errors.
  apply Z.ltb_lt in Hfew.
  destruct found as [|k]; destruct (errorsFrom 1 (tl rows)) as [|e es];
    simpl andb; cbv iota; try rewrite Hfew; repeat split.
Qed.

Lemma too_few_questions_witness :
  uploadError (parseAndValidateCSV threeValidRows halves home4) =
    Some (lit "Need at least 4 valid questions. Found only 3.") /\
  questionsLoaded (parseAndValidateCSV threeValidRows halves home4) = false /\
  uploadError (parseAndValidateCSV fourBadRows halves home4) =
    Some (lit "Errors found:" ++ [LF] ++
          lit "Line 2: Not enough columns (need at least 5: question + 4 answers)"
          ++ [LF] ++ lit "Line 4: Correct answer is empty"
          ++ [LF] ++ lit "Line 5: One or more wrong answers are empty") /\
  List.length (errorMessages (validateRows (parseCSV fourBadRows) halves))
  = 4%nat /\
  uploadedQuestions (parseAndValidateCSV fourBadRows halves home4) =
    uploadedQuestions home4.
Proof.
  assert (Hfew3 : (Z.of_nat
                     (List.length
                        (filter accepted (tl (parseCSV threeValidRows))))
                   < questionsPerRound home4)%Z)
    by (vm_compute; reflexivity).
  assert (Hfew0 : (Z.of_nat
                     (List.length
                        (filter accepted (tl (parseCSV fourBadRows))))
                   < questionsPerRound home4)%Z)
    by (vm_compute; reflexivity).
  destruct (too_few_questions threeValidRows halves home4 Hfew3)
    as [_ [_ [He3 [Hl3 _]]]].
  destruct (too_few_questions fourBadRows halves home4 Hfew0)
    as [_ [Herr [He0 [_ [Hq0 _]]]]].
  split; [rewrite He3; vm_compute; reflexivity|].
  split; [exact Hl3|].
  split; [rewrite He0; vm_compute; reflexivity|].
  split; [rewrite Herr; vm_compute; reflexivity|exact Hq0].
Defined.

End UploadFacts.

(* ================================================================== *)
(** ** The CSV scanner: quotes, trimming, rows *)
(* ================================================================== *)

Module CsvFacts.
Import CsvSpec.

(** The loop, one iteration unrolled. *)
Lemma scanLoop_cons (s : Scanner) (c : CodeUnit) (rest : jsstring) :
  scanLoop s (c :: rest) =
  scanLoop (fst (scanChar s c (hd_error rest)))
           (if snd (scanChar s c (hd_error rest)) then tl rest else rest).
Proof.
  simpl. destruct (scanChar s c (hd_error rest)) as [s' skip].
  destruct rest as [|c' rest']; simpl.
  - destruct skip; reflexivity.
  - destruct skip; reflexivity.
Qed.

Lemma Reach_scanLoop text s field rest :
  Reach text s field rest -> scanLoop init text = scanLoop s rest.
Proof.
  induction 1 as [|s field c rest _ IH]; [reflexivity|].
  rewrite IH. apply scanLoop_cons.
Qed.

Lemma app_cons_not_nil {A} (l : list A) (x : A) (l' : list A) :
  l ++ x :: l' <> [].
Proof. destruct l; discriminate. Qed.

(** At the start of a field the scanner is outside quotes with an empty
    [currentField]; later in the field, outside quotes, an empty
    [currentField] means that a quoted part was just closed, and then the
    next character is not a quote. *)
Lemma Reach_inv text s field rest :
  Reach text s field rest ->
  (field = [] ->
   currentField s = [] /\ inQuotes s = false /\
   fieldStartedWithQuote s = false) /\
  (field <> [] -> inQuotes s = false -> currentField s = [] ->
   hd_error rest <> Some QUOTE).
Proof.
  induction 1 as [|s field c rest _ [IH0 IH1]].
  - split; [intros _; repeat split|intros H; contradiction].
  - unfold scanChar, endsField.
    destruct (isQuote c) eqn:Hq.
    + assert (Hc : c = QUOTE) by (apply N.eqb_eq; exact Hq). subst c.
      change (isComma QUOTE || isEol QUOTE) with false. simpl andb.
      destruct (falsy (currentField s) && negb (inQuotes s)) eqn:Hopen.
      * simpl. split; [intros H; destruct field; discriminate H|].
        intros _ H; discriminate H.
      * destruct (inQuotes s) eqn:HinQ; simpl andb.
        -- destruct (nextIs (hd_error rest) QUOTE) eqn:Hnext; simpl.
           ++ split; [intros H; exfalso; revert H; apply app_cons_not_nil|].
              intros _ _ H. exfalso. revert H. apply app_cons_not_nil.
           ++ split; [intros H; exfalso; revert H; apply app_cons_not_nil|].
              intros _ _ _ Hhd. rewrite Hhd in Hnext. discriminate Hnext.
        -- simpl.
           split; [intros H; exfalso; revert H; apply app_cons_not_nil|].
           intros _ _ H. exfalso. revert H. apply app_cons_not_nil.
    + destruct (isComma c && negb (inQuotes s)) eqn:Hcomma.
      * apply andb_prop in Hcomma. destruct Hcomma as [Hcm HnQ].
        rewrite Hcm, HnQ. simpl.
        apply negb_true_iff in HnQ. rewrite HnQ.
        split; [intros _; repeat split|intros H; contradiction].
      * destruct (isEol c && negb (inQuotes s)) eqn:Heol.
        -- apply andb_prop in Heol. destruct Heol as [He HnQ].
           rewrite He, HnQ, orb_true_r. simpl.
           apply negb_true_iff in HnQ. rewrite HnQ.
           split; [intros _; repeat split|intros H; contradiction].
        -- replace ((isComma c || isEol c) && negb (inQuotes s)) with false
             by (destruct (isComma c), (isEol c), (inQuotes s);
                 simpl in *; congruence).
           simpl.
           split; [intros H; exfalso; revert H; apply app_cons_not_nil|].
           intros _ _ H. exfalso. revert H. apply app_cons_not_nil.
Qed.

(** C8.  Wherever the loop meets a double quote after the first character of
    a field while it is outside quoted mode, the iteration appends the quote
    to [currentField], stays outside quoted mode and skips nothing; the rows
    returned are those of the scan that goes on with the quote as one more
    character of the field. *)
Theorem mid_field_quote_is_literal
  (text : jsstring) (s : Scanner) (field rest : jsstring)
  (Hreach : Reach text s field (QUOTE :: rest))
  (Hmid : field <> [])
  (Hout : inQuotes s = false) :
  scanChar s QUOTE (hd_error rest) = (appendChar s QUOTE, false) /\
  currentField (appendChar s QUOTE) = currentField s ++ [QUOTE] /\
  inQuotes (appendChar s QUOTE) = false /\
  Reach text (appendChar s QUOTE) (field ++ [QUOTE]) rest /\
  parseCSV text = finish (scanLoop (appendChar s QUOTE) rest).
Proof.
  destruct (Reach_inv Hreach) as [_ Hinv].
  assert (Hfield : falsy (currentField s) = false).
  { destruct (currentField s) eqn:Hcf; [|reflexivity].
    exfalso. apply (Hinv Hmid Hout eq_refl). reflexivity. }
  assert (Hstep : scanChar s QUOTE (hd_error rest) = (appendChar s QUOTE, false)).
  { unfold scanChar. change (isQuote QUOTE) with true. cbv iota.
    rewrite Hfield, Hout. reflexivity. }
  pose proof (Reach_step Hreach) as Hnext.
  unfold endsField in Hnext. rewrite Hstep in Hnext. simpl in Hnext.
  repeat split; try assumption.
  unfold parseCSV. rewrite (Reach_scanLoop Hnext). reflexivity.
Qed.

Lemma mid_field_quote_is_literal_witness :
  parseCSV quoteInField = [[lit "a" ++ [QUOTE] ++ lit "b"; lit "c"]].
Proof.
  pose proof (Reach_step (Reach_start quoteInField)) as Hreach.
  assert (Hmid : lit "a" <> []) by discriminate.
  destruct (@mid_field_quote_is_literal quoteInField
              (appendChar init 97%N) (lit "a") (lit "b,c")
              Hreach Hmid eq_refl) as [_ [_ [_ [_ Hparse]]]].
  rewrite Hparse. vm_compute. reflexivity.
Defined.

Lemma scan_bare_tail (t : jsstring) (s : Scanner) (rest : jsstring) :
  inQuotes s = false -> currentField s <> [] ->
  forallb (fun c => negb (isSeparator c)) t = true ->
  scanLoop s (t ++ rest) =
  scanLoop (setField s (currentField s ++ t) (fieldStartedWithQuote s)) rest.
Proof.
  revert s. induction t as [|c t IH]; intros s Hq Hcf Ht.
  - rewrite app_nil_r. destruct s; simpl in *; subst; reflexivity.
  - simpl in Ht. apply andb_prop in Ht. destruct Ht as [Hc Ht].
    apply negb_true_iff in Hc. unfold isSeparator in Hc.
    apply orb_false_elim in Hc. destruct Hc as [Hcomma Heol].
    simpl app. rewrite scanLoop_cons.
    assert (Hstep : scanChar s c (hd_error (t ++ rest)) = (appendChar s c, false)).
    { unfold scanChar. rewrite Hcomma, Heol, Hq. simpl.
      destruct (currentField s); [contradiction|]. simpl.
      destruct (isQuote c); reflexivity. }
    rewrite Hstep. simpl fst. simpl snd. cbv iota.
    rewrite IH; try assumption.
    + simpl. rewrite <- app_assoc. reflexivity.
    + simpl. apply app_cons_not_nil.
Qed.

Lemma scan_bare (t : jsstring) (s : Scanner) (rest : jsstring) :
  atFieldStart s -> fieldOk (Unquoted t) = true ->
  scanLoop s (t ++ rest) = scanLoop (setField s t false) rest.
Proof.
  intros [Hcf [Hq Hf]] Hok. simpl in Hok.
  apply andb_prop in Hok. destruct Hok as [Hhd Ht].
  destruct t as [|c t].
  - destruct s; simpl in *; subst; reflexivity.
  - simpl in Hhd, Ht. apply andb_prop in Ht. destruct Ht as [Hc Ht].
    apply negb_true_iff in Hc. unfold isSeparator in Hc.
    apply orb_false_elim in Hc. destruct Hc as [Hcomma Heol].
    apply negb_true_iff in Hhd.
    simpl app. rewrite scanLoop_cons.
    assert (Hstep : scanChar s c (hd_error (t ++ rest)) = (appendChar s c, false)).
    { unfold scanChar, isQuote. rewrite Hhd, Hcomma, Heol. reflexivity. }
    rewrite Hstep. simpl fst. simpl snd. cbv iota.
    rewrite scan_bare_tail; try assumption.
    + unfold appendChar, setField. simpl. rewrite Hcf, Hf. reflexivity.
    + simpl. apply app_cons_not_nil.
Qed.

Lemma scan_quoted_body (content : jsstring) (s : Scanner) (rest : jsstring) :
  inQuotes s = true -> nextIs (hd_error rest) QUOTE = false ->
  scanLoop s (escapeQuotes content ++ QUOTE :: rest) =
  scanLoop (setField s (currentField s ++ content) (fieldStartedWithQuote s))
           rest.
Proof.
  revert s. induction content as [|c content IH]; intros s Hq Hrest.
  - simpl app. rewrite scanLoop_cons.
    assert (Hstep : scanChar s QUOTE (hd_error rest) =
                    (setField s (currentField s) (fieldStartedWithQuote s),
                     false)).
    { unfold scanChar. change (isQuote QUOTE) with true. cbv iota.
      rewrite Hq, Hrest, andb_false_r. reflexivity. }
    rewrite Hstep. simpl. rewrite app_nil_r. reflexivity.
  - simpl escapeQuotes. destruct (isQuote c) eqn:Hc.
    + assert (c = QUOTE) by (apply N.eqb_eq; exact Hc). subst c.
      simpl app. rewrite scanLoop_cons.
      assert (Hstep : scanChar s QUOTE
                        (hd_error (QUOTE :: escapeQuotes content ++ QUOTE :: rest))
                      = (appendChar s QUOTE, true)).
      { unfold scanChar. change (isQuote QUOTE) with true. cbv iota.
        rewrite Hq, andb_false_r. reflexivity. }
      rewrite Hstep. simpl fst. simpl snd. cbv iota. simpl tl.
      rewrite IH; try assumption. simpl. rewrite <- app_assoc. reflexivity.
    + simpl app. rewrite scanLoop_cons.
      assert (Hstep : scanChar s c
                        (hd_error (escapeQuotes content ++ QUOTE :: rest))
                      = (appendChar s c, false)).
      { unfold scanChar. rewrite Hc, Hq, !andb_false_r. reflexivity. }
      rewrite Hstep. simpl fst. simpl snd. cbv iota.
      rewrite IH; try assumption. simpl. rewrite <- app_assoc. reflexivity.
Qed.

(** One field followed by something that does not begin with a quote: the
    scanner is left outside quotes with the value of the field ready. *)
Lemma scan_field (f : Field) (s : Scanner) (rest : jsstring) :
  atFieldStart s -> fieldOk f = true ->
  nextIs (hd_error rest) QUOTE = false ->
  exists s',
    scanLoop s (render f ++ rest) = scanLoop s' rest /\
    rows s' = rows s /\ currentRow s' = currentRow s /\
    inQuotes s' = false /\ fieldValue s' = value f.
Proof.
  intros Hs Hok Hrest. destruct f as [t|content].
  - exists (setField s t false). split; [apply scan_bare; assumption|].
    repeat split.
  - destruct Hs as [Hcf [Hq Hf]].
    exists (setField s content true). split; [|repeat split].
    simpl render. simpl app. rewrite scanLoop_cons.
    assert (Hstep : scanChar s QUOTE
                      (hd_error ((escapeQuotes content ++ [QUOTE]) ++ rest))
                    = (mkScanner (rows s) (currentRow s) (currentField s)
                                 true true, false)).
    { unfold scanChar. change (isQuote QUOTE) with true. cbv iota.
      rewrite Hcf, Hq. reflexivity. }
    rewrite Hstep. simpl fst. simpl snd. cbv iota.
    rewrite <- app_assoc. simpl app.
    rewrite scan_quoted_body; [|reflexivity|assumption].
    simpl. rewrite Hcf. reflexivity.
Qed.

Lemma scan_row (fs : list Field) (f : Field) (s : Scanner) (rest : jsstring) :
  atFieldStart s -> forallb fieldOk (f :: fs) = true ->
  nextIs (hd_error rest) QUOTE = false ->
  exists s',
    scanLoop s (renderRow (f :: fs) ++ rest) = scanLoop s' rest /\
    rows s' = rows s /\ inQuotes s' = false /\
    currentRow s' ++ [fieldValue s'] =
      currentRow s ++ List.map value (f :: fs).
Proof.
  revert f s. induction fs as [|f2 fs IH]; intros f s Hs Hok Hrest.
  - simpl in Hok. rewrite andb_true_r in Hok.
    destruct (scan_field f rest Hs Hok Hrest) as [s' [Hscan [Hr [Hc [Hq Hv]]]]].
    exists s'. unfold renderRow. simpl. rewrite Hscan, Hc, Hv. repeat split; assumption.
  - simpl in Hok. apply andb_prop in Hok. destruct Hok as [Hf Hok].
    assert (Htext : renderRow (f :: f2 :: fs) ++ rest =
                    render f ++ COMMA :: renderRow (f2 :: fs) ++ rest).
    { unfold renderRow. simpl List.map. simpl join.
      rewrite <- !app_assoc. reflexivity. }
    rewrite Htext.
    destruct (scan_field f (COMMA :: renderRow (f2 :: fs) ++ rest) Hs Hf eq_refl)
      as [s1 [Hscan [Hr [Hc [Hq Hv]]]]].
    rewrite Hscan. rewrite scanLoop_cons.
    assert (Hstep : scanChar s1 COMMA (hd_error (renderRow (f2 :: fs) ++ rest))
                    = (endField s1, false)).
    { unfold scanChar. change (isQuote COMMA) with false.
      change (isComma COMMA) with true. rewrite Hq. reflexivity. }
    rewrite Hstep. simpl fst. simpl snd. cbv iota.
    assert (Hs1 : atFieldStart (endField s1)).
    { unfold atFieldStart, endField. simpl. auto. }
    destruct (IH f2 (endField s1) Hs1 Hok Hrest)
      as [s' [Hscan' [Hr' [Hq' Hrow]]]].
    exists s'. split; [exact Hscan'|]. split; [rewrite Hr'; exact Hr|].
    split; [exact Hq'|].
    rewrite Hrow. simpl. rewrite Hc, Hv, <- app_assoc. reflexivity.
Qed.

Lemma endRow_pushRow (s : Scanner) :
  inQuotes s = false ->
  endRow s =
  mkScanner (pushRow (rows s) (currentRow s ++ [fieldValue s])) [] [] false
            false.
Proof. intros Hq. unfold endRow, pushRow. rewrite Hq. reflexivity. Qed.

Lemma scan_eol (e : Eol) (s : Scanner) (rest : jsstring) :
  inQuotes s = false ->
  scanLoop s (eolText e ++ rest) = scanLoop (endRow s) rest.
Proof.
  intros Hq. destruct e; simpl app; rewrite scanLoop_cons.
  - assert (Hstep : scanChar s LF (hd_error rest) = (endRow s, false)).
    { unfold scanChar. change (isQuote LF) with false.
      change (isComma LF) with false. change (isEol LF) with true.
      rewrite Hq. reflexivity. }
    rewrite Hstep. reflexivity.
  - assert (Hstep : scanChar s CR (hd_error (LF :: rest)) = (endRow s, true)).
    { unfold scanChar. change (isQuote CR) with false.
      change (isComma CR) with false. change (isEol CR) with true.
      rewrite Hq. reflexivity. }
    rewrite Hstep. reflexivity.
Qed.

Lemma eolText_not_quote (e : Eol) (rest : jsstring) :
  nextIs (hd_error (eolText e ++ rest)) QUOTE = false.
Proof. destruct e; reflexivity. Qed.

(** A whole row, up to the point where it is closed. *)
Lemma scan_row_closed (fs : list Field) (s : Scanner) (rest : jsstring) :
  atFieldStart s -> currentRow s = [] -> forallb fieldOk fs = true ->
  nextIs (hd_error rest) QUOTE = false ->
  exists s',
    scanLoop s (renderRow fs ++ rest) = scanLoop s' rest /\
    inQuotes s' = false /\
    endRow s' =
      mkScanner (if someNonEmpty (List.map value fs)
                 then rows s ++ [List.map value fs] else rows s)
                [] [] false false.
Proof.
  intros Hs Hrow Hok Hrest. destruct fs as [|f fs].
  - exists s. destruct Hs as [Hcf [Hq Hf]].
    split; [reflexivity|]. split; [exact Hq|].
    rewrite (endRow_pushRow s Hq). unfold pushRow, fieldValue.
    rewrite Hrow, Hcf, Hf. reflexivity.
  - destruct (scan_row fs f rest Hs Hok Hrest) as [s' [Hscan [Hr [Hq Hvals]]]].
    exists s'. split; [exact Hscan|]. split; [exact Hq|].
    rewrite (endRow_pushRow s' Hq). unfold pushRow.
    rewrite Hvals, Hrow, Hr. reflexivity.
Qed.

Lemma scan_table
  (body : list (list Field * Eol)) (last : list Field) (s : Scanner) :
  atFieldStart s -> currentRow s = [] ->
  forallb (fun row => forallb fieldOk (fst row)) body = true ->
  forallb fieldOk last = true ->
  finish (scanLoop s (renderTable body last)) =
  rows s ++
  filter someNonEmpty
    (List.map (List.map value) (List.map fst body ++ [last])).
Proof.
  revert s. induction body as [|[fs e] body IH]; intros s Hs Hrow Hbody Hlast.
  - simpl renderTable.
    destruct (@scan_row_closed last s [] Hs Hrow Hlast eq_refl)
      as [s' [Hscan [Hq Hend]]].
    rewrite app_nil_r in Hscan. rewrite Hscan. unfold finish.
    simpl scanLoop. rewrite Hend.
    simpl. destruct (someNonEmpty (List.map value last)); simpl.
    + reflexivity.
    + rewrite app_nil_r. reflexivity.
  - simpl in Hbody. apply andb_prop in Hbody. destruct Hbody as [Hfs Hbody].
    simpl renderTable.
    destruct (@scan_row_closed fs s (eolText e ++ renderTable body last)
                Hs Hrow Hfs (eolText_not_quote e _))
      as [s' [Hscan [Hq Hend]]].
    rewrite Hscan, (scan_eol e s' _ Hq), Hend.
    rewrite IH; try assumption; try reflexivity.
    + simpl. destruct (someNonEmpty (List.map value fs)); simpl.
      * rewrite <- app_assoc. reflexivity.
      * reflexivity.
    + repeat split.
Qed.

Lemma quotedContent_escape (content : jsstring) :
  quotedContent (escapeQuotes content ++ [QUOTE]) = content /\
  quotedContent (escapeQuotes content) = content.
Proof.
  induction content as [|c r [IH1 IH2]]; [split; reflexivity|].
  simpl escapeQuotes. destruct (isQuote c) eqn:Hc.
  - assert (c = QUOTE) by (apply N.eqb_eq; exact Hc). subst c.
    simpl. rewrite IH1, IH2. split; reflexivity.
  - simpl. rewrite Hc, IH1, IH2. split; reflexivity.
Qed.

Lemma readValue_render (f : Field) :
  fieldOk f = true -> readValue (render f) = value f.
Proof.
  destruct f as [t|content]; simpl.
  - intros Hok. apply andb_prop in Hok. destruct Hok as [Hhd _].
    destruct t as [|c t]; [reflexivity|].
    simpl in Hhd. apply negb_true_iff in Hhd.
    unfold readValue, isQuote. rewrite Hhd. reflexivity.
  - intros _. apply quotedContent_escape.
Qed.

Lemma quotedContent_after_close (u : jsstring) :
  nextIs (hd_error u) QUOTE = false -> quotedContent (QUOTE :: u) = u.
Proof.
  intros Hu. simpl. destruct u as [|c2 r2]; [reflexivity|].
  simpl in Hu. unfold isQuote. rewrite Hu. reflexivity.
Qed.

Lemma Reach_fieldInv text s field rest :
  Reach text s field rest -> fieldInv s field rest.
Proof.
  induction 1 as [|s field c rest Hreach IH].
  - repeat split.
  - destruct (Reach_inv Hreach) as [_ Hnonempty].
    unfold endsField.
    destruct (isQuote c) eqn:Hq.
    + (* a quote *)
      assert (Hc : c = QUOTE) by (apply N.eqb_eq; exact Hq). subst c.
      change (isComma QUOTE || isEol QUOTE) with false. simpl andb. cbv iota.
      destruct field as [|c0 t].
      * (* it opens the field *)
        destruct IH as [Hcf [HinQ Hf]].
        unfold scanChar. rewrite Hq, Hcf, HinQ. simpl.
        split; [reflexivity|]. intros u. reflexivity.
      * simpl in IH. destruct (isQuote c0) eqn:Hq0.
        -- destruct IH as [Hf IH].
           destruct (inQuotes s) eqn:HinQ.
           ++ (* inside quotes *)
              unfold scanChar. rewrite Hq, HinQ, andb_false_r. simpl andb.
              destruct (nextIs (hd_error rest) QUOTE) eqn:Hnext.
              ** (* an escaped quote *)
                 destruct rest as [|c2 rest2]; [discriminate Hnext|].
                 simpl in Hnext. apply N.eqb_eq in Hnext. subst c2.
                 simpl. rewrite Hq0, HinQ. split; [exact Hf|].
                 intros u. rewrite <- app_assoc. simpl app. rewrite IH.
                 simpl. rewrite <- app_assoc. reflexivity.
              ** (* the closing quote *)
                 simpl. rewrite Hq0. split; [exact Hf|]. split.
                 --- intros u Hu. rewrite <- app_assoc. simpl app.
                     rewrite IH, (quotedContent_after_close u Hu). reflexivity.
                 --- intros Hcontra. rewrite Hnext in Hcontra.
                     discriminate Hcontra.
           ++ (* after the closing quote *)
              destruct IH as [_ IHstrong].
              specialize (IHstrong eq_refl).
              assert (Hcf : falsy (currentField s) = false).
              { destruct (currentField s) eqn:Hcf; [|reflexivity].
                exfalso. apply Hnonempty; try reflexivity. discriminate. }
              unfold scanChar. rewrite Hq, Hcf, HinQ. simpl.
              rewrite Hq0, HinQ. split; [exact Hf|].
              assert (Hall : forall u,
                         quotedContent ((t ++ [QUOTE]) ++ u) =
                         (currentField s ++ [QUOTE]) ++ u).
              { intros u. rewrite <- !app_assoc. apply IHstrong. }
              split; [intros u _; apply Hall|intros _; exact Hall].
        -- (* a bare field *)
           destruct IH as [Hcf [HinQ Hf]].
           unfold scanChar. rewrite Hq, Hcf, HinQ. simpl.
           rewrite Hq0. repeat split; try assumption.
           rewrite Hcf. reflexivity.
    + (* not a quote *)
      destruct ((isComma c || isEol c) && negb (inQuotes s)) eqn:Hend.
      * (* the field ends *)
        apply andb_prop in Hend. destruct Hend as [Hsep HnQ].
        apply negb_true_iff in HnQ.
        unfold scanChar. rewrite Hq, HnQ. simpl negb. rewrite !andb_true_r.
        destruct (isComma c); simpl in *.
        -- repeat split; try reflexivity; assumption.
        -- rewrite Hsep. simpl. repeat split; try reflexivity; assumption.
      * (* one more character of the field *)
        assert (Hstep : scanChar s c (hd_error rest) = (appendChar s c, false)).
        { unfold scanChar. rewrite Hq.
          destruct (isComma c), (isEol c), (inQuotes s);
            simpl in *; try discriminate; reflexivity. }
        rewrite Hstep. simpl fst. simpl snd. cbv iota.
        destruct field as [|c0 t].
        -- destruct IH as [Hcf [HinQ Hf]].
           simpl. rewrite Hq, Hcf. repeat split; assumption.
        -- simpl in IH. simpl app. unfold fieldInv.
           destruct (isQuote c0) eqn:Hq0.
           ++ destruct IH as [Hf IH]. simpl.
              split; [exact Hf|].
              destruct (inQuotes s) eqn:HinQ.
              ** intros u. rewrite <- !app_assoc. simpl app. rewrite IH.
                 simpl. rewrite Hq. reflexivity.
              ** destruct IH as [IHweak _].
                 assert (Hall : forall u,
                            quotedContent ((t ++ [c]) ++ u) =
                            (currentField s ++ [c]) ++ u).
                 { intros u. rewrite <- !app_assoc. apply IHweak.
                   simpl. exact Hq. }
                 split; [intros u _; apply Hall|intros _; exact Hall].
           ++ destruct IH as [Hcf [HinQ Hf]]. simpl.
              rewrite Hcf. repeat split; assumption.
Qed.

(** For every text and every position the loop reaches, the value it would
    push for the current field is [readValue] of the characters of the
    field read so far. *)
Lemma Reach_fieldValue text s field rest :
  Reach text s field rest -> fieldValue s = readValue field.
Proof.
  intros Hreach. pose proof (Reach_fieldInv Hreach) as Hinv.
  unfold fieldValue, readValue. destruct field as [|c t]; simpl in Hinv.
  - destruct Hinv as [-> [_ ->]]. reflexivity.
  - destruct (isQuote c).
    + destruct Hinv as [-> Hinv]. destruct (inQuotes s).
      * specialize (Hinv []). rewrite !app_nil_r in Hinv.
        symmetry. exact Hinv.
      * destruct Hinv as [Hinv _]. specialize (Hinv [] eq_refl).
        rewrite !app_nil_r in Hinv. symmetry. exact Hinv.
    + destruct Hinv as [-> [_ ->]]. reflexivity.
Qed.

(** What the loop builds after the opening quote is the interior, then the
    characters after the closing quote. *)
Lemma quotedContent_interior (t : jsstring) :
  quotedContent t = interior t ++ afterClose t.
Proof.
  assert (H : forall n t, (List.length t <= n)%nat ->
                quotedContent t = interior t ++ afterClose t).
  { clear t. induction n as [|n IH]; intros [|c r] Hlen; simpl in Hlen;
      try lia; try reflexivity.
    simpl. destruct (isQuote c).
    - destruct r as [|c2 r2]; [reflexivity|].
      destruct (isQuote c2); [|reflexivity].
      simpl in Hlen. rewrite (IH r2) by lia. reflexivity.
    - rewrite (IH r) by lia. reflexivity. }
  apply (H (List.length t)). lia.
Qed.

Lemma readValue_specValue (field : jsstring) :
  readValue field = specValue field ++ trailing field.
Proof.
  unfold readValue, specValue, trailing. destruct field as [|c t].
  - reflexivity.
  - destruct (isQuote c); [apply quotedContent_interior|].
    rewrite app_nil_r. reflexivity.
Qed.

(** A field written between quotes, then [u]: the interior is the content,
    [u] is what stands after the closing quote. *)
Lemma interior_escape (content u : jsstring) :
  nextIs (hd_error u) QUOTE = false ->
  interior (escapeQuotes content ++ QUOTE :: u) = content /\
  afterClose (escapeQuotes content ++ QUOTE :: u) = u.
Proof.
  intros Hu. induction content as [|c r [IH1 IH2]].
  - simpl. destruct u as [|c2 r2]; [split; reflexivity|].
    simpl in Hu. unfold isQuote. rewrite Hu. split; reflexivity.
  - simpl escapeQuotes. destruct (isQuote c) eqn:Hc.
    + assert (c = QUOTE) by (apply N.eqb_eq; exact Hc). subst c.
      simpl. rewrite IH1, IH2. split; reflexivity.
    + simpl. rewrite Hc, IH1, IH2. split; reflexivity.
Qed.

(** A quoted field that is never closed: all of it is interior. *)
Lemma interior_unclosed (content : jsstring) :
  interior (escapeQuotes content) = content /\
  afterClose (escapeQuotes content) = [].
Proof.
  induction content as [|c r [IH1 IH2]]; [split; reflexivity|].
  simpl escapeQuotes. destruct (isQuote c) eqn:Hc.
  - assert (c = QUOTE) by (apply N.eqb_eq; exact Hc). subst c.
    simpl. rewrite IH1, IH2. split; reflexivity.
  - simpl. rewrite Hc, IH1, IH2. split; reflexivity.
Qed.

(** For a text made of bare fields and of quoted fields, separated by commas
    and by LF or CRLF, the parser returns, row by row, the values of the
    fields; rows whose values are all empty are dropped. *)
Lemma parseCSV_renderTable
  (body : list (list Field * Eol)) (last : list Field) :
  forallb (fun row => forallb fieldOk (fst row)) body = true ->
  forallb fieldOk last = true ->
  parseCSV (renderTable body last) =
  filter someNonEmpty
    (List.map (List.map value) (List.map fst body ++ [last])).
Proof.
  intros Hbody Hlast. unfold parseCSV.
  rewrite scan_table; try assumption; try reflexivity.
  repeat split.
Qed.

(** A quoted field with a blank between its closing quote and the comma:
    the loop pushes the interior and the blank, the specification gives
    the interior. *)
Lemma quoted_field_keeps_what_follows_the_quote :
  Reach blankAfterQuote (mkScanner [] [] (lit "a ") false true)
        ([QUOTE] ++ lit "a" ++ [QUOTE] ++ lit " ") (lit ",b") /\
  fieldValue (mkScanner [] [] (lit "a ") false true) = lit "a " /\
  specValue ([QUOTE] ++ lit "a" ++ [QUOTE] ++ lit " ") = lit "a" /\
  fieldValue (mkScanner [] [] (lit "a ") false true) <>
    specValue ([QUOTE] ++ lit "a" ++ [QUOTE] ++ lit " ") /\
  parseCSV blankAfterQuote = [[lit "a "; lit "b"]].
Proof.
  split.
  - pose proof (Reach_start blankAfterQuote) as R.
    unfold blankAfterQuote in R. vm_compute in R.
    do 4 (apply Reach_step in R; vm_compute in R).
    exact R.
  - split; [vm_compute; reflexivity|].
    split; [vm_compute; reflexivity|].
    split; [vm_compute; discriminate|vm_compute; reflexivity].
Qed.

(** C1, amended.  On every text, at every position the loop reaches, the
    value it pushes when the current field ends there is: the characters
    of the field trimmed, when the field does not begin with a double
    quote; and, when it does, the interior of the field exactly as written
    (doubled quotes read as one, whitespace and line breaks kept, never
    trimmed) followed by the characters that stand between the closing
    quote and the end of the field, appended as they are.  It is the
    interior alone exactly when nothing stands after the closing quote.
    For a field written as a quote, the content with its quotes doubled, a
    quote and then [u], the interior is the content and [u] is what is
    appended; for a quoted field that is never closed all of it is
    interior.  Hence for a text made of bare fields (not beginning with a
    quote, free of commas and line breaks) and of quoted fields closed by
    their last character, separated by commas and by LF or CRLF, the
    parser returns, row by row, the bare fields trimmed and the contents
    of the quoted fields untouched; rows whose values are all empty are
    dropped. *)
Theorem parseCSV_trims_bare_keeps_quoted :
  (forall text s field rest,
      Reach text s field rest ->
      fieldValue s = specValue field ++ trailing field /\
      (fieldValue s = specValue field <-> trailing field = [])) /\
  (forall t,
      nextIs (hd_error t) QUOTE = false ->
      specValue t = trim t /\ trailing t = []) /\
  (forall content u,
      nextIs (hd_error u) QUOTE = false ->
      specValue (QUOTE :: escapeQuotes content ++ QUOTE :: u) = content /\
      trailing (QUOTE :: escapeQuotes content ++ QUOTE :: u) = u) /\
  (forall content,
      specValue (QUOTE :: escapeQuotes content) = content /\
      trailing (QUOTE :: escapeQuotes content) = []) /\
  (forall body last,
      forallb (fun row => forallb fieldOk (fst row)) body = true ->
      forallb fieldOk last = true ->
      parseCSV (renderTable body last) =
      filter someNonEmpty
        (List.map (List.map value) (List.map fst body ++ [last]))).
Proof.
  split.
  { intros text s field rest Hreach.
    rewrite (Reach_fieldValue Hreach), readValue_specValue.
    split; [reflexivity|]. split.
    - intros H. rewrite <- (app_nil_r (specValue field)) in H at 2.
      apply app_inv_head in H. exact H.
    - intros ->. apply app_nil_r. }
  split.
  { intros [|c t] Hq; [split; reflexivity|].
    simpl in Hq. unfold specValue, trailing, isQuote. rewrite Hq.
    split; reflexivity. }
  split.
  { intros content u Hu. apply (interior_escape content u Hu). }
  split.
  { intros content. apply interior_unclosed. }
  exact parseCSV_renderTable.
Qed.

Lemma parseCSV_trims_bare_keeps_quoted_witness :
  parseCSV (renderTable [(sampleHeader, eolCRLF); ([], eolLF)] sampleLast) =
  [ [lit "question"; lit "correct"; lit "w1"; lit "w2"; lit "w3"];
    [lit " line1" ++ [LF] ++ lit "line2 "; lit "A";
     lit "He said " ++ [QUOTE] ++ lit "hi" ++ [QUOTE]; lit "C"; lit "D"] ].
Proof.
  destruct parseCSV_trims_bare_keeps_quoted as [_ [_ [_ [_ Htable]]]].
  rewrite (Htable [(sampleHeader, eolCRLF); ([], eolLF)] sampleLast
             eq_refl eq_refl).
  vm_compute. reflexivity.
Defined.

(** The earlier variant of the parser trims the content of a quoted field
    and lets a quote in the middle of a bare field open quoted mode. *)
Lemma parseCSV_v0_differs :
  parseCSV_v0 ([QUOTE] ++ lit " x " ++ [QUOTE]) = [[lit "x"]] /\
  parseCSV ([QUOTE] ++ lit " x " ++ [QUOTE]) = [[lit " x "]] /\
  parseCSV_v0 (lit "a" ++ [QUOTE] ++ lit "b,c") =
    [[lit "ab,c"]] /\
  parseCSV (lit "a" ++ [QUOTE] ++ lit "b,c") =
    [[lit "a" ++ [QUOTE] ++ lit "b"; lit "c"]].
Proof. repeat split; vm_compute; reflexivity. Qed.

(** *** Texts without quotes: the parser against [split] *)

Lemma split_cons (sep : CodeUnit) (s : jsstring) :
  exists h t, split sep s = h :: t.
Proof.
  destruct s as [|c r]; simpl; [eauto|].
  destruct (c =? sep)%N; [eauto|].
  destruct (split sep r); eauto.
Qed.

Lemma glue_fresh (ls : list jsstring) :
  glue [] [] (List.map (split COMMA) ls) =
  match ls with
  | [] => [[[]]]
  | _ => List.map (List.map trim) (List.map (split COMMA) ls)
  end.
Proof.
  destruct ls as [|l0 ls]; [reflexivity|]. simpl.
  destruct (split_cons COMMA l0) as [h [t ->]]. reflexivity.
Qed.

Lemma splitEol_cons (s : jsstring) : exists h t, splitEol s = h :: t.
Proof.
  destruct s as [|c r]; simpl; [eauto|].
  destruct (isEol c); [eauto|].
  destruct (splitEol r); eauto.
Qed.

Lemma eol_not_quote_comma (c : CodeUnit) :
  isEol c = true -> isQuote c = false /\ isComma c = false.
Proof.
  unfold isEol. intros H. apply orb_prop in H.
  destruct H as [H|H]; apply N.eqb_eq in H; subst c; split; reflexivity.
Qed.

Lemma falsy_snoc (x : jsstring) (c : CodeUnit) : falsy (x ++ [c]) = false.
Proof. destruct x; reflexivity. Qed.

Lemma scan_done (s : Scanner) :
  inQuotes s = false -> fieldStartedWithQuote s = false ->
  finish s =
  rows s ++ filter someNonEmpty [currentRow s ++ [trim (currentField s)]].
Proof.
  intros Hq Hf. unfold finish. rewrite (endRow_pushRow s Hq). unfold pushRow.
  unfold fieldValue. rewrite Hf. simpl.
  destruct (someNonEmpty (currentRow s ++ [trim (currentField s)]));
    [reflexivity|rewrite app_nil_r; reflexivity].
Qed.

(** A text in which no field begins with a quote: the loop never enters
    quoted mode, cuts at every line break and every comma, and trims. *)
Lemma scan_bare_text (n : nat) :
  forall (text : jsstring) (s : Scanner),
  (List.length text <= n)%nat ->
  noOpeningQuote (falsy (currentField s)) text = true ->
  inQuotes s = false -> fieldStartedWithQuote s = false ->
  finish (scanLoop s text) =
  rows s ++
  filter someNonEmpty
    (glue (currentRow s) (currentField s)
          (List.map (split COMMA) (splitEol text))).
Proof.
  induction n as [|n IH]; intros [|c r] s Hlen Hbare Hq Hf;
    simpl in Hlen; try lia;
    try (simpl scanLoop; simpl splitEol; simpl List.map; unfold glue;
         simpl prefixFirst; rewrite app_nil_r; apply scan_done; assumption).
  simpl in Hbare. apply andb_prop in Hbare. destruct Hbare as [Hc Hr].
  apply negb_true_iff in Hc.
  rewrite scanLoop_cons.
  destruct (splitEol_cons r) as [h [t Hsplit]].
  destruct (split_cons COMMA h) as [f0 [fs Hh]].
  destruct (isEol c) eqn:Heol.
  - (* a line break *)
    destruct (eol_not_quote_comma c Heol) as [Hnq Hncomma].
    assert (Hstep : scanChar s c (hd_error r) =
                    (endRow s, (c =? CR)%N && nextIs (hd_error r) LF)).
    { unfold scanChar. rewrite Hnq, Hncomma, Heol, Hq. reflexivity. }
    rewrite Hstep. simpl fst. simpl snd.
    assert (Hsep : isSeparator c = true)
      by (unfold isSeparator; rewrite Heol; apply orb_true_r).
    rewrite Hsep in Hr.
    assert (Hcut : splitEol (c :: r) = [] :: splitEol r)
      by (simpl; rewrite Heol; reflexivity).
    rewrite Hcut.
    destruct ((c =? CR)%N && nextIs (hd_error r) LF) eqn:Hskip.
    + (* CR LF *)
      apply andb_prop in Hskip. destruct Hskip as [_ Hnext].
      destruct r as [|c2 r']; [discriminate Hnext|].
      simpl in Hnext. apply N.eqb_eq in Hnext. subst c2.
      simpl tl. simpl in Hr.
      destruct (splitEol_cons r') as [h' [t' Hsplit']].
      rewrite (IH r' (endRow s)); try assumption; try reflexivity;
        [|simpl in Hlen; lia].
      rewrite (endRow_pushRow s Hq).
      simpl rows. simpl currentRow. simpl currentField.
      change (splitEol (LF :: r')) with ([] :: splitEol r').
      rewrite Hsplit'. unfold fieldValue, pushRow. rewrite Hf.
      destruct (split_cons COMMA h') as [g0 [gs Hh']].
      simpl. rewrite Hh'. simpl. rewrite app_nil_r.
      destruct (someNonEmpty (currentRow s ++ [trim (currentField s)]));
        [rewrite <- app_assoc|]; reflexivity.
    + rewrite (IH r (endRow s)); try assumption; try reflexivity; [|lia].
      rewrite (endRow_pushRow s Hq).
      simpl rows. simpl currentRow. simpl currentField.
      rewrite Hsplit. unfold fieldValue, pushRow. rewrite Hf.
      simpl. rewrite Hh. simpl. rewrite app_nil_r.
      destruct (someNonEmpty (currentRow s ++ [trim (currentField s)]));
        [rewrite <- app_assoc|]; reflexivity.
  - assert (Hcut : splitEol (c :: r) = (c :: h) :: t)
      by (simpl; rewrite Heol, Hsplit; reflexivity).
    rewrite Hcut.
    destruct (isComma c) eqn:Hcomma.
    + (* a comma *)
      assert (c = COMMA) by (apply N.eqb_eq; exact Hcomma). subst c.
      assert (Hstep : scanChar s COMMA (hd_error r) = (endField s, false)).
      { unfold scanChar. change (isQuote COMMA) with false.
        change (isComma COMMA) with true. rewrite Hq. reflexivity. }
      rewrite Hstep. simpl fst. simpl snd. cbv iota.
      change (isSeparator COMMA) with true in Hr.
      rewrite (IH r (endField s)); try assumption; try reflexivity; [|lia].
      rewrite Hsplit. simpl. rewrite Hh. unfold fieldValue. rewrite Hf.
      simpl. rewrite app_nil_r, <- app_assoc. reflexivity.
    + (* one more character of the field, a quote included *)
      assert (Hstep : scanChar s c (hd_error r) = (appendChar s c, false)).
      { unfold scanChar. rewrite Hcomma, Heol, Hq. simpl.
        destruct (isQuote c); [|reflexivity].
        rewrite andb_true_r in Hc. rewrite Hc. reflexivity. }
      rewrite Hstep. simpl fst. simpl snd. cbv iota.
      assert (Hsep : isSeparator c = false)
        by (unfold isSeparator; rewrite Hcomma, Heol; reflexivity).
      rewrite Hsep in Hr.
      rewrite (IH r (appendChar s c)); try assumption; [|lia|].
      * rewrite Hsplit. simpl.
        unfold isComma in Hcomma. rewrite Hcomma, Hh. simpl.
        rewrite <- app_assoc. reflexivity.
      * simpl. rewrite falsy_snoc. exact Hr.
Qed.

(** On a text in which no field begins with a quote the parser cuts at
    every line break, then at commas, trims every field and drops the rows
    whose fields are all empty. *)
Lemma parseCSV_bare_text (text : jsstring) :
  noOpeningQuote true text = true ->
  parseCSV text = filter someNonEmpty (List.map fieldsOf (splitEol text)).
Proof.
  intros Hbare. unfold parseCSV.
  rewrite (@scan_bare_text (List.length text) text init);
    try assumption; try reflexivity.
  simpl. destruct (splitEol_cons text) as [h [t ->]].
  unfold glue, fieldsOf. simpl.
  destruct (split_cons COMMA h) as [f0 [fs ->]].
  rewrite map_map. reflexivity.
Qed.

(** *** Trimming and splitting *)

Lemma trimStart_snoc (l : jsstring) (c : CodeUnit) :
  trimStart (l ++ [c]) =
  match trimStart l with
  | [] => if isWhiteSpace c then [] else [c]
  | t => t ++ [c]
  end.
Proof.
  induction l as [|a l IH]; simpl.
  - destruct (isWhiteSpace c); reflexivity.
  - destruct (isWhiteSpace a); [exact IH|reflexivity].
Qed.

(** [trimEnd], from the front. *)
Lemma trimEnd_cons (c : CodeUnit) (r : jsstring) :
  trimEnd (c :: r) =
  match trimEnd r with
  | [] => if isWhiteSpace c then [] else [c]
  | t => c :: t
  end.
Proof.
  unfold trimEnd. simpl rev. rewrite trimStart_snoc.
  destruct (trimStart (rev r)) as [|a t] eqn:Ht; simpl.
  - destruct (isWhiteSpace c); reflexivity.
  - rewrite rev_app_distr. simpl.
    destruct (rev t ++ [a]) eqn:Hr; [|reflexivity].
    exfalso. revert Hr. apply app_cons_not_nil.
Qed.

Lemma trimEnd_nil : trimEnd [] = [].
Proof. reflexivity. Qed.

Lemma trimEnd_idem (x : jsstring) : trimEnd (trimEnd x) = trimEnd x.
Proof.
  induction x as [|c r IH]; [reflexivity|].
  rewrite trimEnd_cons. destruct (trimEnd r) as [|y ys] eqn:Hr.
  - destruct (isWhiteSpace c) eqn:Hc; [reflexivity|].
    rewrite trimEnd_cons, trimEnd_nil, Hc. reflexivity.
  - rewrite trimEnd_cons, IH. reflexivity.
Qed.

Lemma trimStart_idem (x : jsstring) : trimStart (trimStart x) = trimStart x.
Proof.
  induction x as [|c r IH]; [reflexivity|]. simpl.
  destruct (isWhiteSpace c) eqn:Hc; [exact IH|]. simpl. rewrite Hc. reflexivity.
Qed.

Lemma trim_comm (x : jsstring) : trimStart (trimEnd x) = trimEnd (trimStart x).
Proof.
  induction x as [|c r IH]; [reflexivity|].
  rewrite trimEnd_cons. simpl trimStart.
  destruct (isWhiteSpace c) eqn:Hc.
  - rewrite <- IH. destruct (trimEnd r) as [|y ys]; [reflexivity|].
    simpl. rewrite Hc. reflexivity.
  - rewrite trimEnd_cons.
    destruct (trimEnd r) as [|y ys]; simpl; rewrite Hc; reflexivity.
Qed.

Lemma trim_trimStart (x : jsstring) : trim (trimStart x) = trim x.
Proof. unfold trim. rewrite trimStart_idem. reflexivity. Qed.

Lemma trim_trimEnd (x : jsstring) : trim (trimEnd x) = trim x.
Proof. unfold trim. rewrite trim_comm, trimEnd_idem. reflexivity. Qed.

Lemma trim_ws_cons (c : CodeUnit) (x : jsstring) :
  isWhiteSpace c = true -> trim (c :: x) = trim x.
Proof. intros Hc. unfold trim. simpl. rewrite Hc. reflexivity. Qed.

Lemma mapLast_cons {A} (f : A -> A) (x y : A) (l : list A) :
  mapLast f (x :: y :: l) = x :: mapLast f (y :: l).
Proof. reflexivity. Qed.

Lemma split_step (sep c : CodeUnit) (r : jsstring) :
  split sep (c :: r) =
  if (c =? sep)%N then [] :: split sep r
  else match split sep r with
       | [] => [[c]]
       | h :: t => (c :: h) :: t
       end.
Proof. reflexivity. Qed.

Lemma split_single (sep : CodeUnit) (r h : jsstring) :
  split sep r = [h] -> h = r.
Proof.
  revert h. induction r as [|c r IH]; intros h; simpl.
  - intros H; inversion H; reflexivity.
  - destruct (c =? sep)%N.
    + destruct (split_cons sep r) as [h' [t' ->]]. discriminate.
    + destruct (split_cons sep r) as [h' [t' Hs]]. rewrite Hs.
      intros H; inversion H; subst. f_equal. apply IH. exact Hs.
Qed.

Lemma comma_not_ws (c : CodeUnit) :
  isWhiteSpace c = true -> (c =? COMMA)%N = false.
Proof.
  intros Hws. destruct (c =? COMMA)%N eqn:Hc; [|reflexivity].
  apply N.eqb_eq in Hc. subst c. discriminate Hws.
Qed.

Lemma split_trimEnd (l : jsstring) :
  split COMMA (trimEnd l) = mapLast trimEnd (split COMMA l).
Proof.
  induction l as [|c r IH]; [reflexivity|].
  rewrite trimEnd_cons.
  destruct (split_cons COMMA r) as [h [t Hs]]. rewrite Hs in IH.
  destruct (trimEnd r) as [|y ys] eqn:Hr.
  - (* only whitespace follows *)
    assert (Ht : t = [] /\ trimEnd h = []).
    { destruct t as [|h2 t].
      - simpl in IH. inversion IH. auto.
      - rewrite mapLast_cons in IH. exfalso.
        destruct t as [|h3 t]; simpl in IH; discriminate IH. }
    destruct Ht as [-> Hh].
    destruct (isWhiteSpace c) eqn:Hc.
    + simpl. rewrite (comma_not_ws c Hc), Hs. simpl.
      rewrite trimEnd_cons, Hh, Hc. reflexivity.
    + simpl. destruct (c =? COMMA)%N eqn:Hcomma.
      * rewrite Hs. simpl. rewrite Hh. reflexivity.
      * rewrite Hs. simpl. rewrite trimEnd_cons, Hh, Hc. reflexivity.
  - rewrite (split_step COMMA c (y :: ys)), (split_step COMMA c r).
    rewrite IH, Hs. destruct (c =? COMMA)%N eqn:Hcomma.
    + symmetry. apply mapLast_cons.
    + destruct t as [|h2 t].
      * simpl. rewrite trimEnd_cons.
        rewrite (split_single COMMA r Hs) in *. rewrite Hr. reflexivity.
      * rewrite !mapLast_cons. reflexivity.
Qed.

Lemma map_trim_mapLast (l : list jsstring) :
  List.map trim (mapLast trimEnd l) = List.map trim l.
Proof.
  induction l as [|x l IH]; [reflexivity|].
  destruct l as [|y l].
  - simpl. rewrite trim_trimEnd. reflexivity.
  - rewrite mapLast_cons.
    change (trim x :: List.map trim (mapLast trimEnd (y :: l)) =
            trim x :: List.map trim (y :: l)).
    rewrite IH. reflexivity.
Qed.

Lemma split_trimStart (l : jsstring) :
  List.map trim (split COMMA (trimStart l)) = List.map trim (split COMMA l).
Proof.
  induction l as [|c r IH]; [reflexivity|]. simpl trimStart.
  destruct (isWhiteSpace c) eqn:Hc; [|reflexivity].
  rewrite IH. simpl. rewrite (comma_not_ws c Hc).
  destruct (split_cons COMMA r) as [h [t ->]]. simpl.
  rewrite (trim_ws_cons c h Hc). reflexivity.
Qed.

(** Trimming a line first does not change its trimmed fields. *)
Lemma split_trim (l : jsstring) :
  List.map trim (split COMMA (trim l)) = List.map trim (split COMMA l).
Proof.
  unfold trim. rewrite split_trimEnd, map_trim_mapLast. apply split_trimStart.
Qed.

Lemma blank_line_row (l : jsstring) :
  falsy (trim l) = true ->
  someNonEmpty (List.map trim (split COMMA l)) = false.
Proof.
  intros Hblank. rewrite <- split_trim.
  destruct (trim l); [reflexivity|discriminate].
Qed.

(** *** Carriage returns *)

Lemma splitEol_lines (text : jsstring) :
  splitEol text = flat_map (split CR) (split LF text).
Proof.
  induction text as [|c r IH]; [reflexivity|].
  destruct (split_cons LF r) as [h [t Hs]]. rewrite Hs in IH.
  destruct (split_cons CR h) as [h1 [t1 Hh]].
  simpl flat_map in IH. rewrite Hh in IH.
  rewrite (split_step LF c r), Hs. simpl splitEol. unfold isEol.
  destruct (c =? LF)%N eqn:Hlf.
  - simpl. rewrite IH, Hh. reflexivity.
  - simpl orb.
    change (flat_map (split CR) ((c :: h) :: t))
      with (split CR (c :: h) ++ flat_map (split CR) t).
    rewrite (split_step CR c h), IH, Hh.
    destruct (c =? CR)%N; reflexivity.
Qed.

Lemma filter_map_flat_map {A B C} (f : C -> bool) (g : B -> C)
  (h : A -> list B) (ls : list A) :
  filter f (List.map g (flat_map h ls)) =
  flat_map (fun l => filter f (List.map g (h l))) ls.
Proof.
  induction ls as [|l ls IH]; [reflexivity|].
  simpl. rewrite map_app, filter_app, IH. reflexivity.
Qed.

Lemma filter_map_single {A B} (f : B -> bool) (g : A -> B) (ls : list A) :
  filter f (List.map g ls) = flat_map (fun l => filter f [g l]) ls.
Proof.
  induction ls as [|l ls IH]; [reflexivity|].
  simpl. rewrite IH. destruct (f (g l)); reflexivity.
Qed.

Lemma fieldsOf_ws_cons (c : CodeUnit) (x : jsstring) :
  isWhiteSpace c = true -> fieldsOf (c :: x) = fieldsOf x.
Proof.
  intros Hc. unfold fieldsOf. rewrite split_step, (comma_not_ws c Hc).
  destruct (split_cons COMMA x) as [h [t ->]]. simpl.
  rewrite (trim_ws_cons c h Hc). reflexivity.
Qed.

Lemma fieldsOf_trimEnd (x : jsstring) : fieldsOf (trimEnd x) = fieldsOf x.
Proof. unfold fieldsOf. rewrite split_trimEnd. apply map_trim_mapLast. Qed.

Lemma ws_only_trim (x : jsstring) :
  forallb isWhiteSpace x = true -> trim x = [].
Proof.
  induction x as [|c x IH]; intros H; [reflexivity|].
  simpl in H. apply andb_prop in H. destruct H as [Hc Hx].
  rewrite (trim_ws_cons c x Hc). apply IH. exact Hx.
Qed.

Lemma ws_only_row (x : jsstring) :
  forallb isWhiteSpace x = true -> someNonEmpty (fieldsOf x) = false.
Proof.
  intros H. apply blank_line_row. rewrite (ws_only_trim x H). reflexivity.
Qed.

Lemma blankOrComma_row (x : jsstring) :
  forallb blankOrComma x = true -> someNonEmpty (fieldsOf x) = false.
Proof.
  induction x as [|c x IH]; intros H; [reflexivity|].
  simpl in H. apply andb_prop in H. destruct H as [Hc Hx].
  destruct (isWhiteSpace c) eqn:Hws.
  - rewrite (fieldsOf_ws_cons c x Hws). apply IH. exact Hx.
  - unfold blankOrComma in Hc. rewrite Hws in Hc. simpl in Hc.
    unfold fieldsOf. rewrite split_step. unfold isComma in Hc. rewrite Hc.
    simpl. apply IH. exact Hx.
Qed.

Lemma split_forallb (P : CodeUnit -> bool) (sep : CodeUnit) (x : jsstring) :
  forallb P x = true ->
  Forall (fun piece => forallb P piece = true) (split sep x).
Proof.
  induction x as [|c x IH]; intros H; [repeat constructor|].
  simpl in H. apply andb_prop in H. destruct H as [Hc Hx].
  specialize (IH Hx). rewrite split_step.
  destruct (c =? sep)%N; [constructor; [reflexivity|exact IH]|].
  destruct (split sep x) as [|h t]; [repeat constructor; simpl; rewrite Hc;
                                      reflexivity|].
  inversion IH; subst. constructor; [|assumption].
  simpl. rewrite Hc. assumption.
Qed.

Lemma empty_rows (pieces : list jsstring) :
  Forall (fun piece => someNonEmpty (fieldsOf piece) = false) pieces ->
  filter someNonEmpty (List.map fieldsOf pieces) = [].
Proof.
  induction 1 as [|piece pieces Hp _ IH]; [reflexivity|].
  simpl. rewrite Hp. exact IH.
Qed.

Lemma trimEnd_nil_ws (x : jsstring) :
  trimEnd x = [] -> forallb isWhiteSpace x = true.
Proof.
  induction x as [|c x IH]; intros H; [reflexivity|].
  rewrite trimEnd_cons in H. destruct (trimEnd x) as [|y ys];
    [|discriminate H].
  destruct (isWhiteSpace c) eqn:Hc; [|discriminate H].
  simpl. rewrite Hc. apply IH. reflexivity.
Qed.

(** A line without a carriage return before its last character that is not
    blank: cut at its carriage returns it is one piece that ends like the
    line, then blanks. *)
Lemma split_CR_tail (x : jsstring) :
  existsb isCR (trimEnd x) = false ->
  exists h t,
    split CR x = h :: t /\ trimEnd h = trimEnd x /\
    Forall (fun piece => forallb isWhiteSpace piece = true) t.
Proof.
  induction x as [|c r IH]; intros H.
  - exists [], []. repeat split. constructor.
  - rewrite trimEnd_cons in H. destruct (isCR c) eqn:Hcr.
    + assert (c = CR) by (apply N.eqb_eq; exact Hcr). subst c.
      destruct (trimEnd r) as [|y ys] eqn:Hr; [|discriminate H].
      exists [], (split CR r). split; [reflexivity|]. split.
      * rewrite trimEnd_cons, Hr. reflexivity.
      * apply split_forallb. apply trimEnd_nil_ws. exact Hr.
    + assert (Hrest : existsb isCR (trimEnd r) = false).
      { destruct (trimEnd r) as [|y ys]; [reflexivity|].
        simpl in H. rewrite Hcr in H. exact H. }
      destruct (IH Hrest) as [h0 [t0 [Hs [He Ht]]]].
      exists (c :: h0), t0. split; [|split; [|exact Ht]].
      * rewrite split_step. unfold isCR in Hcr. rewrite Hcr, Hs. reflexivity.
      * rewrite !trimEnd_cons, He. reflexivity.
Qed.

Lemma cutRows_tail (x : jsstring) :
  existsb isCR (trimEnd x) = false ->
  cutRows x = filter someNonEmpty [fieldsOf x].
Proof.
  intros H. destruct (split_CR_tail x H) as [h [t [Hs [He Ht]]]].
  unfold cutRows. rewrite Hs. simpl.
  rewrite empty_rows.
  - rewrite <- (fieldsOf_trimEnd h), He, fieldsOf_trimEnd. reflexivity.
  - eapply Forall_impl; [|exact Ht]. intros piece. apply ws_only_row.
Qed.

Lemma cutRows_ws_cons (c : CodeUnit) (x : jsstring) :
  isWhiteSpace c = true -> cutRows (c :: x) = cutRows x.
Proof.
  intros Hc. unfold cutRows. rewrite split_step.
  destruct (c =? CR)%N; [reflexivity|].
  destruct (split_cons CR x) as [h [t ->]]. simpl.
  rewrite (fieldsOf_ws_cons c h Hc). reflexivity.
Qed.

Lemma cutRows_trimmed (l : jsstring) :
  existsb isCR (trim l) = false ->
  cutRows l = filter someNonEmpty [fieldsOf l].
Proof.
  induction l as [|c r IH]; intros H; [apply cutRows_tail; exact H|].
  destruct (isWhiteSpace c) eqn:Hc.
  - rewrite (trim_ws_cons c r Hc) in H.
    rewrite (cutRows_ws_cons c r Hc), (fieldsOf_ws_cons c r Hc).
    apply IH. exact H.
  - apply cutRows_tail. unfold trim in H. simpl trimStart in H.
    rewrite Hc in H. exact H.
Qed.

(** The two readers cut a line alike. *)
Lemma cutRows_line (l : jsstring) :
  lineOk l = true -> cutRows l = filter someNonEmpty [fieldsOf l].
Proof.
  unfold lineOk. intros H. apply orb_prop in H. destruct H as [H|H].
  - simpl. rewrite (blankOrComma_row l H). unfold cutRows.
    apply empty_rows.
    eapply Forall_impl; [|exact (split_forallb blankOrComma CR l H)].
    intros piece. apply blankOrComma_row.
  - apply cutRows_trimmed. apply negb_true_iff in H. exact H.
Qed.

(** On a text in which no field begins with a quote and every line is cut
    alike by the two readers, the parser splits at line feeds, then at
    commas, trims every field and drops the rows whose fields are all
    empty. *)
Lemma parseCSV_lines (text : jsstring) :
  noOpeningQuote true text = true ->
  forallb lineOk (split LF text) = true ->
  parseCSV text = filter someNonEmpty (List.map fieldsOf (split LF text)).
Proof.
  intros Hbare Hlines.
  rewrite (parseCSV_bare_text text Hbare), splitEol_lines,
          filter_map_flat_map, filter_map_single.
  induction (split LF text) as [|l ls IH]; [reflexivity|].
  simpl in Hlines. apply andb_prop in Hlines. destruct Hlines as [Hl Hls].
  simpl flat_map. rewrite (IH Hls). f_equal.
  exact (cutRows_line l Hl).
Qed.

(** A quoted field with a comma: the upload parser reads five fields, the
    fallback loader splits inside the quotes, keeps the quotes and reads
    six. *)
Lemma fallback_differs_on_quoted_field :
  tl (parseCSV quotedComma) =
    [[lit "a,b"; lit "c"; lit "d"; lit "e"; lit "f"]] /\
  Fallback.dataParts quotedComma =
    [[[QUOTE] ++ lit "a"; lit "b" ++ [QUOTE];
      lit "c"; lit "d"; lit "e"; lit "f"]] /\
  tl (parseCSV quotedComma) <> Fallback.dataParts quotedComma.
Proof.
  split; [vm_compute; reflexivity|].
  split; [vm_compute; reflexivity|].
  vm_compute. discriminate.
Qed.

(** A carriage return between two fields of a line: the upload parser ends
    the row there, the fallback loader does not. *)
Lemma fallback_differs_on_lone_CR :
  parseCSV loneCR = [[lit "h"]; [lit "a"]; [lit "b"]] /\
  List.map (fun line => List.map trim (Fallback.lineParts line))
           (Fallback.lines loneCR) =
    [[lit "h"]; [lit "a" ++ [CR] ++ lit "b"]].
Proof. split; vm_compute; reflexivity. Qed.

(** The two conditions leave out no text on which the readers agree, among
    the texts of up to five characters over a letter, a comma, a blank, LF,
    CR and the quote: there the readers give the same rows exactly when
    the conditions hold. *)
Lemma cutAlike_exact_on_short_texts :
  forallb (fun text =>
             Bool.eqb (cutAlike text)
                      (sameRows (parseCSV text) (fallbackRows text)))
          (flat_map (textsOver sampleUnits) (seq 0 6)) = true.
Proof. vm_compute. reflexivity. Qed.

(** C3, amended.  On a text in which no field begins with a double quote,
    and in which a carriage return stands between two characters of a line
    that are not blank only in lines made of commas and blanks, the rows of
    the upload parser are the lines of the fallback loader split into
    their parts, every part trimmed, without the rows whose parts are all
    empty.  Carriage returns before line feeds, at the end of the text and
    among blanks are within these texts, and so are quotes inside a
    field. *)
Theorem upload_rows_of_plain_text
  (text : jsstring)
  (Hbare : noOpeningQuote true text = true)
  (Hlines : forallb lineOk (split LF text) = true) :
  parseCSV text =
  filter someNonEmpty
    (List.map (fun line => List.map trim (Fallback.lineParts line))
              (Fallback.lines text)).
Proof.
  rewrite (parseCSV_lines text Hbare Hlines). clear Hbare Hlines.
  unfold Fallback.lines, Fallback.lineParts, fieldsOf.
  induction (split LF text) as [|l ls IH]; [reflexivity|].
  simpl. destruct (falsy (trim l)) eqn:Hblank; simpl.
  - rewrite (blank_line_row l Hblank). exact IH.
  - rewrite split_trim.
    destruct (someNonEmpty (List.map trim (split COMMA l)));
      rewrite IH; reflexivity.
Qed.

Lemma upload_rows_of_plain_text_witness :
  parseCSV mixedText =
    [ [lit "question"; lit "correct"; lit "w1"; lit "w2"; lit "w3"];
      [lit "5" ++ [QUOTE] ++ lit " nails"; lit "4"; lit "3"; lit "5";
       lit "6"] ] /\
  parseCSV plainText =
    [ [lit "question"; lit "correct"; lit "w1"; lit "w2"; lit "w3"];
      [lit "What is 2 + 2?"; lit "4"; lit "3"; lit "5"; lit "6"] ] /\
  List.map Fallback.lineParts (Fallback.lines plainText) =
    [ [lit "question"; lit " correct "; lit "w1"; lit "w2"; lit "w3"];
      [lit ""; lit ""; lit ""];
      [lit "What is 2 + 2? "; lit "4"; lit " 3"; lit "5 "; lit "6"] ].
Proof.
  split; [|split].
  - rewrite (@upload_rows_of_plain_text mixedText eq_refl eq_refl).
    vm_compute. reflexivity.
  - rewrite (@upload_rows_of_plain_text plainText eq_refl eq_refl).
    vm_compute. reflexivity.
  - vm_compute. reflexivity.
Defined.

End CsvFacts.

(* ================================================================== *)
(** ** Round engine: the clock, selections and sessions *)
(* ================================================================== *)

Module RoundExtra.
Import Round.
Import RoundSpec.
Import RoundMore.
Import RoundMoreSpec.

Lemma ticks_S (n : nat) (g : Game) : ticks (S n) g = tick (ticks n g).
Proof. reflexivity. Qed.

Lemma tick_questionSets (g : Game) : questionSets (tick g) = questionSets g.
Proof.
  unfold tick. destruct (timerInterval g); [|reflexivity].
  destruct (timeRemaining g >? 0)%Z; reflexivity.
Qed.

Lemma ticks_running (n k : nat) (g0 : Game) :
  timeRemaining g0 = Z.of_nat n -> timerInterval g0 = true ->
  roundComplete g0 = false -> timeExpired g0 = false ->
  (k <= n)%nat ->
  timeRemaining (ticks k g0) = Z.of_nat (n - k) /\
  timerInterval (ticks k g0) = true /\
  roundComplete (ticks k g0) = false /\ timeExpired (ticks k g0) = false.
Proof.
  intros Ht Htimer Hc He. induction k as [|k IH]; intros Hk.
  - rewrite Nat.sub_0_r. simpl. auto.
  - destruct IH as [IHt [IHtimer [IHc IHe]]]; [lia|].
    rewrite ticks_S. unfold tick. rewrite IHtimer, IHt.
    replace (Z.of_nat (n - k) >? 0)%Z with true
      by (symmetry; apply Z.gtb_lt; lia).
    simpl. repeat split; try assumption. lia.
Qed.

Lemma ticks_expired (n k : nat) (g0 : Game) :
  timeRemaining g0 = Z.of_nat n -> timerInterval g0 = true ->
  roundComplete g0 = false -> timeExpired g0 = false ->
  (n < k)%nat ->
  timeRemaining (ticks k g0) = 0%Z /\
  timerInterval (ticks k g0) = false /\
  roundComplete (ticks k g0) = true /\ timeExpired (ticks k g0) = true.
Proof.
  intros Ht Htimer Hc He. induction k as [|k IH]; intros Hk; [lia|].
  rewrite ticks_S. destruct (Nat.eq_dec k n) as [->|Hne].
  - destruct (@ticks_running n n g0 Ht Htimer Hc He (Nat.le_refl n))
      as [Rt [Rtimer _]].
    rewrite Nat.sub_diag in Rt. unfold tick. rewrite Rtimer, Rt. simpl.
    repeat split. exact Rt.
  - destruct IH as [IHt [IHtimer [IHc IHe]]]; [lia|].
    unfold tick. rewrite IHtimer. auto.
Qed.

(** X1.  A round with a time limit of [n] seconds, left to the timer: after
    [k] ticks, [k] up to [n], it is still active with [n - k] seconds on the
    clock; from tick [n + 1] on it is complete as timed out, with the timer
    stopped; the selections are never touched. *)
Theorem round_expires_after_limit_plus_one
  (shuffled : list Question) (theme : Z) (g : Game) (n : nat)
  (Hlimit : timeLimitSeconds g = Z.of_nat n) :
  let g0 := startNewRound shuffled theme g in
  (forall k, (k <= n)%nat ->
     phase (ticks k g0) = Active /\
     timeRemaining (ticks k g0) = Z.of_nat (n - k) /\
     timerInterval (ticks k g0) = true) /\
  (forall k, (n < k)%nat ->
     phase (ticks k g0) = Complete TimedOut /\
     timeRemaining (ticks k g0) = 0%Z /\
     timerInterval (ticks k g0) = false) /\
  (forall k, questionSets (ticks k g0) = questionSets g0).
Proof.
  intros g0.
  assert (Ht : timeRemaining g0 = Z.of_nat n) by exact Hlimit.
  split; [|split].
  - intros k Hk.
    destruct (@ticks_running n k g0 Ht eq_refl eq_refl eq_refl Hk)
      as [Rt [Rtimer [Rc Re]]].
    unfold phase. rewrite Rc. auto.
  - intros k Hk.
    destruct (@ticks_expired n k g0 Ht eq_refl eq_refl eq_refl Hk)
      as [Rt [Rtimer [Rc Re]]].
    unfold phase. rewrite Rc, Re. auto.
  - intros k. induction k as [|k IH]; [reflexivity|].
    rewrite ticks_S, tick_questionSets. exact IH.
Qed.

Lemma round_expires_after_limit_plus_one_witness :
  let g0 := startNewRound bank 0 newGame in
  phase (ticks 90 g0) = Active /\ timeRemaining (ticks 90 g0) = 0%Z /\
  phase (ticks 91 g0) = Complete TimedOut.
Proof.
  destruct (@round_expires_after_limit_plus_one bank 0 newGame 90 eq_refl)
    as [Hrun [Hexp _]].
  destruct (Hrun 90%nat (Nat.le_refl 90)) as [Hp [Ht _]].
  destruct (Hexp 91%nat (Nat.lt_succ_diag_r 90)) as [Hp' _].
  split; [exact Hp|]. split; [exact Ht|exact Hp'].
Defined.

(** *** Selections *)

Section Assign.
Context {A : Type}.

Lemma assign_length (l : list A) (i : nat) (v : A) :
  List.length (assign l i v) = List.length l.
Proof.
  revert i. induction l as [|a l IH]; intros [|i]; simpl; auto.
Qed.

Lemma nth_error_assign_same (l : list A) (i : nat) (v : A) :
  (i < List.length l)%nat -> nth_error (assign l i v) i = Some v.
Proof.
  revert i. induction l as [|a l IH]; intros [|i] Hi; simpl in *;
    try lia; auto. apply IH. lia.
Qed.

Lemma nth_error_assign_other (l : list A) (i j : nat) (v : A) :
  i <> j -> nth_error (assign l i v) j = nth_error l j.
Proof.
  revert i j. induction l as [|a l IH]; intros [|i] [|j] Hij; simpl;
    try reflexivity; try contradiction. apply IH. congruence.
Qed.

Lemma assign_assign (l : list A) (i : nat) (v w : A) :
  assign (assign l i v) i w = assign l i w.
Proof.
  revert i. induction l as [|a l IH]; intros [|i]; simpl; try reflexivity.
  rewrite IH. reflexivity.
Qed.

End Assign.

Lemma get_None {A} (l : list A) (i : Z) :
  get l i = None <-> (i < 0 \/ Z.of_nat (List.length l) <= i)%Z.
Proof.
  unfold get. destruct (i <? 0)%Z eqn:Hneg.
  - apply Z.ltb_lt in Hneg. split; auto.
  - apply Z.ltb_ge in Hneg. rewrite nth_error_None. split; intros H.
    + right. lia.
    + destruct H; lia.
Qed.

(** X2.  In a round that is not complete, [selectAnswer] throws exactly when
    the question index is negative or beyond the questions of the round;
    otherwise it stores the answer for that question, keeps the question,
    leaves every other question and every other field as they were, and a
    later selection for the same question replaces it without a trace. *)
Theorem selectAnswer_stores_one_selection
  (g : Game) (qi ai : Z) (Hactive : roundComplete g = false) :
  (selectAnswer qi ai g = None <->
   (qi < 0 \/ Z.of_nat (List.length (questionSets g)) <= qi)%Z) /\
  (forall qs, get (questionSets g) qi = Some qs ->
     exists g',
       selectAnswer qi ai g = Some g' /\
       g' = setQuestionSets (questionSets g') g /\
       List.length (questionSets g') = List.length (questionSets g) /\
       get (questionSets g') qi =
         Some (mkQuestionState (qsQuestion qs) (Some ai)) /\
       (forall qj, qj <> qi ->
          get (questionSets g') qj = get (questionSets g) qj) /\
       (forall bi, selectAnswer qi bi g' = selectAnswer qi bi g)).
Proof.
  unfold selectAnswer. rewrite Hactive. split.
  - rewrite <- get_None.
    destruct (get (questionSets g) qi); split; congruence.
  - intros qs Hget. rewrite Hget. eexists. split; [reflexivity|].
    assert (Hpos : (qi <? 0)%Z = false).
    { unfold get in Hget. destruct (qi <? 0)%Z; [discriminate|reflexivity]. }
    assert (Hnth : nth_error (questionSets g) (Z.to_nat qi) = Some qs).
    { unfold get in Hget. rewrite Hpos in Hget. exact Hget. }
    assert (Hlt : (Z.to_nat qi < List.length (questionSets g))%nat).
    { apply nth_error_Some. congruence. }
    simpl. rewrite Hactive. split; [reflexivity|].
    split; [apply assign_length|]. split; [|split].
    + unfold get. rewrite Hpos. apply nth_error_assign_same. exact Hlt.
    + intros qj Hne. unfold get. destruct (qj <? 0)%Z eqn:Hj; [reflexivity|].
      apply nth_error_assign_other.
      apply Z.ltb_ge in Hj. apply Z.ltb_ge in Hpos. lia.
    + intros bi.
      assert (Hnew : get (assign (questionSets g) (Z.to_nat qi)
                            (mkQuestionState (qsQuestion qs) (Some ai))) qi
                     = Some (mkQuestionState (qsQuestion qs) (Some ai))).
      { unfold get. rewrite Hpos. apply nth_error_assign_same. exact Hlt. }
      rewrite Hnew. unfold setQuestionSets. simpl.
      rewrite assign_assign. reflexivity.
Qed.

Lemma selectAnswer_stores_one_selection_witness :
  selectAnswer 2 0 (startNewRound bank 0 newGame) <> None /\
  selectAnswer 4 0 (startNewRound bank 0 newGame) = None /\
  selectAnswer (-1) 0 (startNewRound bank 0 newGame) = None.
Proof.
  destruct (@selectAnswer_stores_one_selection
              (startNewRound bank 0 newGame) 2 0 eq_refl) as [H2 _].
  destruct (@selectAnswer_stores_one_selection
              (startNewRound bank 0 newGame) 4 0 eq_refl) as [H4 _].
  destruct (@selectAnswer_stores_one_selection
              (startNewRound bank 0 newGame) (-1) 0 eq_refl) as [Hm _].
  split; [|split].
  - intros Hnone. apply H2 in Hnone. simpl in Hnone. lia.
  - apply H4. right. simpl. lia.
  - apply Hm. left. lia.
Defined.

(** X3.  Submitting twice is submitting once: the second [submitAnswers]
    changes nothing, so the round is counted in the cumulative totals a
    single time. *)
Theorem submitAnswers_idempotent (g : Game) :
  submitAnswers (submitAnswers g) = submitAnswers g.
Proof.
  unfold submitAnswers at 2 3.
  destruct (roundComplete g) eqn:Hc.
  - unfold submitAnswers. rewrite Hc. reflexivity.
  - destruct (forallb answered (questionSets g)) eqn:Ha; simpl.
    + reflexivity.
    + unfold submitAnswers. rewrite Hc, Ha. reflexivity.
Qed.

(** X4.  A round just started: every question is unanswered, the questions
    are the first ones of the shuffled bank (as many as [questionsPerRound],
    or all of them when the bank is smaller), the round is active, and it
    can be submitted at once only when it has no question at all; the
    cumulative counts are carried over. *)
Theorem fresh_round (shuffled : list Question) (theme : Z) (g : Game) :
  let g' := startNewRound shuffled theme g in
  phase g' = Active /\
  Forall (fun qs => selected qs = None) (questionSets g') /\
  (exists rest,
     shuffled = List.map qsQuestion (questionSets g') ++ rest) /\
  ((0 <= questionsPerRound g)%Z ->
   List.length (questionSets g') =
     Nat.min (Z.to_nat (questionsPerRound g)) (List.length shuffled)) /\
  (canSubmit g' = true <-> questionSets g' = []) /\
  cumulativeCorrect g' = cumulativeCorrect g /\
  cumulativeTotal g' = cumulativeTotal g.
Proof.
  simpl. unfold canSubmit, selectRandomQuestions, slice0. simpl.
  split; [reflexivity|]. split.
  { apply Forall_forall. intros qs Hin. apply in_map_iff in Hin.
    destruct Hin as [q [<- _]]. reflexivity. }
  split.
  { rewrite map_map. simpl. rewrite map_id.
    destruct (questionsPerRound g <? 0)%Z;
      eexists; symmetry; apply firstn_skipn. }
  split.
  { intros Hpos. apply Z.ltb_ge in Hpos. rewrite Hpos.
    rewrite length_map, length_firstn. reflexivity. }
  split; [|split; reflexivity].
  destruct (List.map _ _) as [|qs qss] eqn:Hm.
  - split; reflexivity.
  - split; [|discriminate].
    assert (Hin : In qs (qs :: qss)) by (left; reflexivity).
    rewrite <- Hm in Hin. apply in_map_iff in Hin.
    destruct Hin as [q [<- _]]. simpl. discriminate.
Qed.

(** *** Sessions *)

Lemma flagsInv_fresh (shuffled : list Question) (theme : Z) (g : Game) :
  flagsInv (startNewRound shuffled theme g).
Proof. unfold flagsInv. simpl. repeat split; discriminate. Qed.

Lemma flagsInv_step (e : Event) (g g' : Game) :
  flagsInv g -> step e g = Some g' -> flagsInv g'.
Proof.
  intros [He [Ht Hs]] Hstep.
  destruct e as [questions shuffled theme|qi ai| | |shuffled theme];
    simpl in Hstep.
  - inversion Hstep; subst. unfold loadQuestionsFromData. simpl.
    destruct (0 <? List.length questions)%nat.
    + apply flagsInv_fresh.
    + unfold flagsInv. simpl. auto.
  - unfold selectAnswer in Hstep. destruct (roundComplete g) eqn:Hc.
    + inversion Hstep; subst. unfold flagsInv. rewrite Hc. auto.
    + destruct (get (questionSets g) qi); inversion Hstep; subst.
      unfold flagsInv. simpl. rewrite Hc. auto.
  - inversion Hstep; subst. unfold tick.
    destruct (timerInterval g) eqn:Htimer; [|unfold flagsInv; auto].
    assert (Hc : roundComplete g = false).
    { destruct (roundComplete g); [|reflexivity].
      specialize (Ht eq_refl). discriminate. }
    assert (Hcongr : showCongratulations g = false).
    { destruct (showCongratulations g); [|reflexivity].
      destruct (Hs eq_refl) as [Hc' _]. congruence. }
    destruct (timeRemaining g >? 0)%Z; unfold flagsInv; simpl.
    + rewrite Hcongr. repeat split; try discriminate; try assumption.
    + rewrite Hcongr. repeat split; discriminate.
  - inversion Hstep; subst. unfold submitAnswers.
    destruct (roundComplete g) eqn:Hc; [unfold flagsInv; rewrite Hc; auto|].
    destruct (forallb answered (questionSets g)); simpl;
      [|unfold flagsInv; rewrite Hc; auto].
    assert (Hexp : timeExpired g = false).
    { destruct (timeExpired g); [|reflexivity].
      specialize (He eq_refl). discriminate. }
    unfold flagsInv. simpl. rewrite Hexp. simpl. auto.
  - inversion Hstep; subst. apply flagsInv_fresh.
Qed.

Lemma flagsInv_act (a : Action) (g g' : Game) :
  flagsInv g -> act a g = Some g' -> flagsInv g'.
Proof.
  intros Hinv Hact. destruct a as [e|key shuffled theme| |count|seconds];
    simpl in Hact.
  - eapply flagsInv_step; eassumption.
  - inversion Hact; subst. unfold handleKeyDown.
    destruct (showCongratulations g && _); [apply flagsInv_fresh|exact Hinv].
  - inversion Hact; subst. destruct Hinv as [He [Ht Hs]].
    unfold flagsInv. simpl. auto.
  - inversion Hact; subst. exact Hinv.
  - inversion Hact; subst. exact Hinv.
Qed.

Lemma flagsInv_play (actions : list Action) (g g' : Game) :
  flagsInv g -> play actions g = Some g' -> flagsInv g'.
Proof.
  revert g. induction actions as [|a actions IH]; intros g Hinv Hplay;
    simpl in Hplay.
  - inversion Hplay; subst. exact Hinv.
  - destruct (act a g) as [g1|] eqn:Hact; [|discriminate].
    apply (IH g1); [|exact Hplay]. eapply flagsInv_act; eassumption.
Qed.

Lemma flagsInv_newGame : flagsInv newGame.
Proof. unfold flagsInv. simpl. repeat split; discriminate. Qed.

(** X5.  Whatever the user and the timer did since the component was
    created, a round that is complete stays as it is until a new round is
    started: the timer is stopped, no number of ticks changes anything, no
    selection and no submission has any effect. *)
Theorem complete_round_is_frozen
  (actions : list Action) (g : Game)
  (Hplay : play actions newGame = Some g)
  (Hcomplete : roundComplete g = true) :
  timerInterval g = false /\
  (forall n, ticks n g = g) /\
  (forall qi ai, selectAnswer qi ai g = Some g) /\
  submitAnswers g = g.
Proof.
  destruct (flagsInv_play actions flagsInv_newGame Hplay) as [_ [Ht _]].
  specialize (Ht Hcomplete).
  assert (Htick : tick g = g) by (unfold tick; rewrite Ht; reflexivity).
  split; [exact Ht|]. split; [|split].
  - intros n. induction n as [|n IH]; [reflexivity|].
    rewrite ticks_S, IH. exact Htick.
  - intros qi ai. unfold selectAnswer. rewrite Hcomplete. reflexivity.
  - unfold submitAnswers. rewrite Hcomplete. reflexivity.
Qed.

Lemma complete_round_is_frozen_witness :
  exists g,
    play (List.map AEvent (ELoad bank bank 0 :: answerRound 3)) newGame
    = Some g /\
    roundComplete g = true /\ ticks 100 g = g.
Proof.
  eexists. split; [vm_compute; reflexivity|]. split; [reflexivity|].
  refine (proj1 (proj2 (@complete_round_is_frozen
            (List.map AEvent (ELoad bank bank 0 :: answerRound 3)) _
            _ _)) 100%nat); vm_compute; reflexivity.
Defined.

(** X6.  The keyboard shortcut: whatever happened before, a key press
    changes nothing unless the round was submitted (it does nothing on a
    round that is active or timed out, and nothing for any key but Enter
    and the space bar); after an accepted submission Enter and the space
    bar start the next round. *)
Theorem keyboard_advances_only_after_submission
  (actions : list Action) (g : Game)
  (Hplay : play actions newGame = Some g) :
  (forall key shuffled theme,
     phase g <> Complete Submitted ->
     handleKeyDown key shuffled theme g = g) /\
  (forall key shuffled theme,
     key <> lit "Enter" -> key <> lit " " ->
     handleKeyDown key shuffled theme g = g) /\
  (forall shuffled theme,
     canSubmit g = true ->
     handleKeyDown (lit "Enter") shuffled theme (submitAnswers g) =
       nextRound shuffled theme (submitAnswers g) /\
     handleKeyDown (lit " ") shuffled theme (submitAnswers g) =
       nextRound shuffled theme (submitAnswers g)).
Proof.
  destruct (flagsInv_play actions flagsInv_newGame Hplay) as [He [_ Hs]].
  split; [|split].
  - intros key shuffled theme Hphase. unfold handleKeyDown.
    destruct (showCongratulations g) eqn:Hcongr; [|reflexivity].
    destruct (Hs eq_refl) as [Hc Hexp]. exfalso. apply Hphase.
    unfold phase. rewrite Hc, Hexp. reflexivity.
  - intros key shuffled theme Henter Hspace. unfold handleKeyDown, streq.
    destruct (jsstring_eq_dec key (lit "Enter")); [contradiction|].
    destruct (jsstring_eq_dec key (lit " ")); [contradiction|].
    rewrite andb_false_r. reflexivity.
  - intros shuffled theme Hcan. unfold canSubmit in Hcan.
    apply andb_prop in Hcan. destruct Hcan as [Hc Ha].
    apply negb_true_iff in Hc.
    assert (Hexp : timeExpired g = false).
    { destruct (timeExpired g); [|reflexivity].
      specialize (He eq_refl). congruence. }
    assert (Hcongr : showCongratulations (submitAnswers g) = true).
    { unfold submitAnswers. rewrite Hc, Ha. simpl. rewrite Hexp. reflexivity. }
    unfold handleKeyDown. rewrite Hcongr. split; reflexivity.
Qed.

Lemma keyboard_advances_only_after_submission_witness :
  exists g,
    play [AEvent (ELoad bank bank 0); AEvent ETick] newGame = Some g /\
    handleKeyDown (lit "Enter") bank 0 g = g.
Proof.
  eexists. split; [vm_compute; reflexivity|].
  refine (proj1 (@keyboard_advances_only_after_submission
            [AEvent (ELoad bank bank 0); AEvent ETick] _ _)
            (lit "Enter") bank 0%Z _).
  - vm_compute. reflexivity.
  - vm_compute. discriminate.
Defined.

Lemma countCorrect_bounds (qss : list QuestionState) :
  (0 <= countCorrect qss <= Z.of_nat (List.length qss))%Z.
Proof.
  assert (H : forall acc,
             (acc <= fold_left
                       (fun correctCount qs =>
                          if isRight qs then (correctCount + 1)%Z
                          else correctCount) qss acc
              <= acc + Z.of_nat (List.length qss))%Z).
  { induction qss as [|qs qss IH]; intros acc; simpl List.length; simpl fold_left.
    - lia.
    - destruct (isRight qs).
      + specialize (IH (acc + 1)%Z). lia.
      + specialize (IH acc). lia. }
  specialize (H 0%Z). unfold countCorrect. lia.
Qed.

Lemma scoreInv_fresh (shuffled : list Question) (theme : Z) (g : Game) :
  scoreInv g -> scoreInv (startNewRound shuffled theme g).
Proof. intros [_ Hcum]. unfold scoreInv. simpl. split; [lia|exact Hcum]. Qed.

Lemma scoreInv_act (a : Action) (g g' : Game) :
  scoreInv g -> act a g = Some g' -> scoreInv g'.
Proof.
  intros Hinv Hact. pose proof Hinv as [Hround Hcum].
  destruct a as [e|key shuffled theme| |count|seconds]; simpl in Hact.
  - destruct e as [questions shuffled theme|qi ai| | |shuffled theme];
      simpl in Hact.
    + inversion Hact; subst. unfold loadQuestionsFromData. simpl.
      destruct (0 <? List.length questions)%nat.
      * apply scoreInv_fresh. exact Hinv.
      * exact Hinv.
    + unfold selectAnswer in Hact. destruct (roundComplete g).
      * inversion Hact; subst. exact Hinv.
      * destruct (get (questionSets g) qi); inversion Hact; subst.
        exact Hinv.
    + inversion Hact; subst. unfold tick.
      destruct (timerInterval g); [|exact Hinv].
      destruct (timeRemaining g >? 0)%Z; exact Hinv.
    + inversion Hact; subst. unfold submitAnswers.
      destruct (roundComplete g); [exact Hinv|].
      destruct (forallb answered (questionSets g)); [|exact Hinv].
      pose proof (countCorrect_bounds (questionSets g)) as Hb.
      unfold scoreInv. simpl. lia.
    + inversion Hact; subst. apply (scoreInv_fresh shuffled theme) in Hinv.
      exact Hinv.
  - inversion Hact; subst. unfold handleKeyDown.
    destruct (showCongratulations g && _); [|exact Hinv].
    apply (scoreInv_fresh shuffled theme) in Hinv. exact Hinv.
  - inversion Hact; subst. unfold scoreInv. simpl. lia.
  - inversion Hact; subst. exact Hinv.
  - inversion Hact; subst. exact Hinv.
Qed.

(** X7.  The scores stay counts through every session: from a state in
    which the correct answers of the round and of the session are between 0
    and the respective totals, every sequence of actions (events of the
    game, key presses, leaving the game, changes of the configuration)
    leads to such a state. *)
Theorem scores_stay_counts
  (actions : list Action) (g g' : Game)
  (Hinv : scoreInv g) (Hplay : play actions g = Some g') :
  scoreInv g'.
Proof.
  revert g Hinv Hplay. induction actions as [|a actions IH];
    intros g Hinv Hplay; simpl in Hplay.
  - inversion Hplay; subst. exact Hinv.
  - destruct (act a g) as [g1|] eqn:Hact; [|discriminate].
    apply (IH g1); [|exact Hplay]. eapply scoreInv_act; eassumption.
Qed.

Lemma scores_stay_counts_witness :
  exists g,
    play (List.map AEvent tenRounds) newGame = Some g /\ scoreInv g.
Proof.
  eexists. split; [vm_compute; reflexivity|].
  refine (@scores_stay_counts (List.map AEvent tenRounds) newGame _ _ _).
  - unfold scoreInv. simpl. lia.
  - vm_compute. reflexivity.
Defined.

(** X8.  The round counter counts the rounds started with [nextRound]:
    after a run of events it is its old value plus the number of [ENext]
    events, and loading questions or playing a round does not touch it. *)
Theorem currentRound_counts_next_rounds
  (events : list Event) (g g' : Game)
  (Hrun : run events g = Some g') :
  currentRound g' = (currentRound g + Z.of_nat (nextCount events))%Z.
Proof.
  revert g Hrun. induction events as [|e events IH]; intros g Hrun;
    simpl in Hrun.
  - inversion Hrun; subst. unfold nextCount. simpl. lia.
  - destruct (step e g) as [g1|] eqn:Hstep; [|discriminate].
    rewrite (IH g1 Hrun). unfold nextCount.
    destruct e as [questions shuffled theme|qi ai| | |shuffled theme];
      simpl in Hstep; simpl filter.
    + inversion Hstep; subst. unfold loadQuestionsFromData. simpl.
      destruct (0 <? List.length questions)%nat; reflexivity.
    + unfold selectAnswer in Hstep. destruct (roundComplete g).
      * inversion Hstep; subst. reflexivity.
      * destruct (get (questionSets g) qi); inversion Hstep; subst.
        reflexivity.
    + inversion Hstep; subst. unfold tick.
      destruct (timerInterval g); [|reflexivity].
      destruct (timeRemaining g >? 0)%Z; reflexivity.
    + inversion Hstep; subst. unfold submitAnswers.
      destruct (roundComplete g); [reflexivity|].
      destruct (forallb answered (questionSets g)); reflexivity.
    + inversion Hstep; subst. simpl List.length. simpl currentRound. lia.
Qed.

Lemma currentRound_counts_next_rounds_witness :
  exists g, run tenRounds newGame = Some g /\ currentRound g = 10%Z.
Proof.
  eexists. split; [vm_compute; reflexivity|].
  rewrite (@currentRound_counts_next_rounds tenRounds newGame _
             ltac:(vm_compute; reflexivity)).
  vm_compute. reflexivity.
Defined.

(** *** What the board shows *)

(** X9.  The marks of the board: before the round is complete no answer is
    marked correct or wrong, whatever the indices; on a complete round an
    answer marked wrong is the selected one and is not marked correct, and
    a selected answer is marked either correct or wrong, never both; an
    index outside the questions makes each of the three projections
    throw. *)
Theorem marks_after_completion_only (g : Game) (qi ai : Z) :
  (roundComplete g = false ->
   isCorrectAnswer qi ai g = Some false /\
   isWrongAnswer qi ai g = Some false) /\
  (isWrongAnswer qi ai g = Some true ->
   isSelected qi ai g = Some true /\ isCorrectAnswer qi ai g = Some false) /\
  (roundComplete g = true -> isSelected qi ai g = Some true ->
   exists wrong,
     isWrongAnswer qi ai g = Some wrong /\
     isCorrectAnswer qi ai g = Some (negb wrong)) /\
  (roundComplete g = true -> get (questionSets g) qi = None ->
   isCorrectAnswer qi ai g = None /\ isWrongAnswer qi ai g = None /\
   isSelected qi ai g = None).
Proof.
  unfold isCorrectAnswer, isWrongAnswer, isSelected.
  split; [|split; [|split]].
  - intros ->. split; reflexivity.
  - destruct (roundComplete g); simpl; [|discriminate].
    destruct (get (questionSets g) qi) as [qs|]; [|discriminate].
    intros H. assert (Hw : selectedIs qs ai && negb (isRight qs) = true)
      by congruence.
    clear H. apply andb_prop in Hw.
    destruct Hw as [Hsel Hwrong]. rewrite Hsel. split; [reflexivity|].
    f_equal. unfold selectedIs, isRight in *.
    destruct (selected qs) as [a|]; [|discriminate].
    apply Z.eqb_eq in Hsel. subst a.
    apply negb_true_iff in Hwrong. rewrite Z.eqb_sym. exact Hwrong.
  - intros ->. simpl.
    destruct (get (questionSets g) qi) as [qs|]; [|discriminate].
    intros H. assert (Hsel : selectedIs qs ai = true) by congruence.
    clear H. rewrite Hsel. eexists.
    split; [reflexivity|]. f_equal. simpl.
    unfold selectedIs, isRight in *.
    destruct (selected qs) as [a|]; [|discriminate].
    apply Z.eqb_eq in Hsel. subst a.
    rewrite negb_involutive. apply Z.eqb_sym.
  - intros -> ->. simpl. repeat split.
Qed.

(** X10.  A perfect score needs a question: after an accepted submission
    [isPerfectScore] holds exactly when the round has at least one question
    and every question was answered with its correct index. *)
Theorem perfect_score_iff_all_right (g : Game) (Hcan : canSubmit g = true) :
  isPerfectScore (submitAnswers g) = true <->
  questionSets g <> [] /\ forallb isRight (questionSets g) = true.
Proof.
  unfold canSubmit in Hcan. apply andb_prop in Hcan.
  destruct Hcan as [Hc Ha]. apply negb_true_iff in Hc.
  unfold isPerfectScore, submitAnswers. rewrite Hc, Ha. simpl.
  rewrite RoundFacts.countCorrect_filter.
  assert (Hlen : forall qss : list QuestionState,
             (List.length (filter isRight qss) <= List.length qss)%nat /\
             (List.length (filter isRight qss) = List.length qss <->
              forallb isRight qss = true)).
  { induction qss as [|qs qss [IHle IHeq]]; simpl.
    - split; [lia|]. split; reflexivity.
    - destruct (isRight qs); simpl.
      + split; [lia|]. rewrite <- IHeq. split; lia.
      + split; [lia|]. split; [lia|discriminate]. }
  destruct (Hlen (questionSets g)) as [Hle Heq].
  destruct (questionSets g) as [|qs qss] eqn:Hq.
  - simpl. split; [discriminate|]. intros [H _]. contradiction.
  - replace (Z.of_nat (List.length (qs :: qss)) =? 0)%Z with false
      by (symmetry; apply Z.eqb_neq; simpl List.length; lia).
    rewrite Z.eqb_eq, <- Heq. split.
    + intros H. split; [discriminate|]. lia.
    + intros [_ H]. lia.
Qed.

Lemma perfect_score_iff_all_right_witness :
  isPerfectScore (submitAnswers sampleGame) = false /\
  isPerfectScore (submitAnswers (startNewRound [] 0 newGame)) = false.
Proof.
  split.
  - destruct (isPerfectScore (submitAnswers sampleGame)) eqn:Hp;
      [|reflexivity].
    apply (@perfect_score_iff_all_right sampleGame eq_refl) in Hp.
    destruct Hp as [_ Hp]. discriminate Hp.
  - reflexivity.
Defined.

Lemma seconds_two_digits (s : nat) :
  (s < 60)%nat ->
  padStart 2 48%N (numToString (Z.of_nat s)) =
  [N.of_nat (48 + s / 10); N.of_nat (48 + s mod 10)].
Proof.
  intros Hs.
  do 60 (destruct s as [|s]; [vm_compute; reflexivity|]). lia.
Qed.

(** X11.  The clock face: for a time that is not negative the formatted
    time is the number of whole minutes, a colon, and the remaining seconds
    written with exactly two digits. *)
Theorem getFormattedTime_minutes_and_two_digits
  (g : Game) (Htime : (0 <= timeRemaining g)%Z) :
  getFormattedTime g =
  numToString (timeRemaining g / 60) ++ lit ":" ++
  [Z.to_N (48 + (timeRemaining g mod 60) / 10);
   Z.to_N (48 + (timeRemaining g mod 60) mod 10)].
Proof.
  unfold getFormattedTime. cbv zeta.
  rewrite Z.rem_mod_nonneg by lia.
  pose proof (Z.mod_pos_bound (timeRemaining g) 60 ltac:(lia)) as Hb.
  set (m := (timeRemaining g mod 60)%Z) in *.
  replace m with (Z.of_nat (Z.to_nat m)) at 1 by lia.
  rewrite seconds_two_digits by lia.
  assert (Hconv : forall k, N.of_nat k = Z.to_N (Z.of_nat k)).
  { intros k. rewrite <- nat_N_Z, N2Z.id. reflexivity. }
  rewrite !Hconv.
  rewrite !Nat2Z.inj_add, Nat2Z.inj_div, Nat2Z.inj_mod, Z2Nat.id by lia.
  reflexivity.
Qed.

Lemma getFormattedTime_minutes_and_two_digits_witness :
  getFormattedTime (atTime 90) = lit "1:30" /\
  getFormattedTime (atTime 5) = lit "0:05".
Proof.
  split.
  - rewrite (@getFormattedTime_minutes_and_two_digits (atTime 90)
               ltac:(simpl; lia)).
    vm_compute. reflexivity.
  - rewrite (@getFormattedTime_minutes_and_two_digits (atTime 5)
               ltac:(simpl; lia)).
    vm_compute. reflexivity.
Defined.

Lemma percentsNearest_checked : percentsNearest checkedTotals = true.
Proof. vm_compute. reflexivity. Qed.

Lemma percentsNearest_at (bound c t : nat) :
  percentsNearest bound = true -> (c <= t)%nat -> (1 <= t <= bound)%nat ->
  nearestPercent (Z.of_nat c) (Z.of_nat t)
    (getCumulativePercent (withTotals (Z.of_nat c) (Z.of_nat t))) = true.
Proof.
  unfold percentsNearest. intros Hall Hc Ht.
  rewrite forallb_forall in Hall.
  assert (Hin : In t (seq 1 bound)) by (apply in_seq; lia).
  specialize (Hall t Hin). rewrite forallb_forall in Hall.
  apply Hall. apply in_seq. lia.
Qed.

(** X12.  The accuracy of the percentages: for every total up to 200
    answers and every number of correct answers up to the total, the
    cumulative percentage and the percentage of the round lie between 0 and
    100 and differ from the exact 100 * correct / total by at most one
    half; they are a nearest integer, and only an exact half may be rounded
    down instead of up. *)
Theorem percent_is_a_nearest_integer
  (g : Game) (c t : nat)
  (Hc : (c <= t)%nat) (Ht : (1 <= t <= checkedTotals)%nat) :
  (cumulativeCorrect g = Z.of_nat c -> cumulativeTotal g = Z.of_nat t ->
   let p := getCumulativePercent g in
   (0 <= p <= 100)%Z /\
   (2 * Z.abs (100 * Z.of_nat c - p * Z.of_nat t) <= Z.of_nat t)%Z) /\
  (currentRoundCorrect g = Z.of_nat c -> currentRoundTotal g = Z.of_nat t ->
   let p := getCurrentRoundPercent g in
   (0 <= p <= 100)%Z /\
   (2 * Z.abs (100 * Z.of_nat c - p * Z.of_nat t) <= Z.of_nat t)%Z).
Proof.
  pose proof (percentsNearest_at percentsNearest_checked Hc Ht) as Hall.
  unfold nearestPercent in Hall.
  apply andb_prop in Hall. destruct Hall as [Hall Hnear].
  apply andb_prop in Hall. destruct Hall as [H0 H100].
  apply Z.leb_le in H0, H100, Hnear.
  assert (Hcum : cumulativeCorrect g = Z.of_nat c ->
                 cumulativeTotal g = Z.of_nat t ->
                 getCumulativePercent g =
                 getCumulativePercent (withTotals (Z.of_nat c) (Z.of_nat t))).
  { intros Hcc Hct. unfold getCumulativePercent, withTotals.
    cbn [cumulativeTotal cumulativeCorrect]. rewrite Hcc, Hct. reflexivity. }
  assert (Hcur : currentRoundCorrect g = Z.of_nat c ->
                 currentRoundTotal g = Z.of_nat t ->
                 getCurrentRoundPercent g =
                 getCumulativePercent (withTotals (Z.of_nat c) (Z.of_nat t))).
  { intros Hcc Hct. unfold getCumulativePercent, getCurrentRoundPercent,
      withTotals.
    cbn [cumulativeTotal cumulativeCorrect]. rewrite Hcc, Hct. reflexivity. }
  split; intros Hcc Hct; cbv zeta.
  - rewrite (Hcum Hcc Hct). split; [split|]; assumption.
  - rewrite (Hcur Hcc Hct). split; [split|]; assumption.
Qed.

Lemma percent_is_a_nearest_integer_witness :
  getCumulativePercent (withTotals 2 3) = 67%Z /\
  (2 * Z.abs (100 * 2 - getCumulativePercent (withTotals 2 3) * 3) <= 3)%Z.
Proof.
  split; [vm_compute; reflexivity|].
  destruct (@percent_is_a_nearest_integer (withTotals 2 3) 2 3
              ltac:(lia) ltac:(unfold checkedTotals; lia)) as [H _].
  destruct (H eq_refl eq_refl) as [_ Hnear]. exact Hnear.
Defined.

(** *** The questions of a round *)

Lemma firstn_NoDup {A} (n : nat) (l : list A) : NoDup l -> NoDup (firstn n l).
Proof.
  intros H. rewrite <- (firstn_skipn n l) in H.
  apply NoDup_app_remove_r in H. exact H.
Qed.

(** X19.  A round asks the questions of the bank and none twice.  When the
    sort of [selectRandomQuestions] returns a rearrangement of the bank and
    [questionsPerRound] is not negative, the new round has
    [questionsPerRound] questions, or the whole bank if that is smaller;
    every one is a question of the bank, unanswered; and if the bank holds
    no question twice, neither does the round. *)
Theorem round_asks_bank_questions_once
  (shuffled : list Question) (theme : Z) (g : Game)
  (Hsort : Permutation shuffled (allQuestions g))
  (Hcount : (0 <= questionsPerRound g)%Z) :
  let g' := startNewRound shuffled theme g in
  List.length (questionSets g') =
    Nat.min (Z.to_nat (questionsPerRound g)) (List.length (allQuestions g)) /\
  Forall (fun qs => selected qs = None /\ In (qsQuestion qs) (allQuestions g))
         (questionSets g') /\
  (NoDup (allQuestions g) -> NoDup (List.map qsQuestion (questionSets g'))).
Proof.
  unfold startNewRound, selectRandomQuestions, slice0. simpl.
  destruct (questionsPerRound g <? 0)%Z eqn:Hneg;
    [apply Z.ltb_lt in Hneg; lia|].
  split; [|split].
  - rewrite length_map, length_firstn, (Permutation_length Hsort).
    reflexivity.
  - apply Forall_forall. intros qs Hin.
    apply in_map_iff in Hin. destruct Hin as [q [<- Hin]]. simpl.
    split; [reflexivity|].
    eapply Permutation_in; [exact Hsort|].
    rewrite <- (firstn_skipn (Z.to_nat (questionsPerRound g)) shuffled).
    apply in_or_app. left. exact Hin.
  - intros Hnd. rewrite map_map. simpl. rewrite map_id.
    apply firstn_NoDup.
    eapply Permutation_NoDup; [apply Permutation_sym; exact Hsort|exact Hnd].
Qed.

Lemma round_asks_bank_questions_once_witness :
  List.length (questionSets (startNewRound (rev bank) 0
                               (loadQuestionsFromData bank bank 0 newGame)))
  = 4%nat.
Proof.
  destruct (@round_asks_bank_questions_once (rev bank) 0
              (loadQuestionsFromData bank bank 0 newGame))
    as [H _].
  - apply Permutation_sym, Permutation_rev.
  - vm_compute. discriminate.
  - exact H.
Defined.

End RoundExtra.

(* ================================================================== *)
(** ** Upload validator: the bank, the rows, the start of the game *)
(* ================================================================== *)

Module UploadExtra.
Import Upload.
Import UploadSpec.
Import UploadMore.
Import UploadMoreSpec.

Lemma shuffleFrom_draws {A} (i : nat) (l : list A) (r : Rng) (k : nat) :
  snd (shuffleFrom i l r) k = r (k + i)%nat.
Proof.
  revert l r k. induction i as [|i IH]; intros l r k; simpl.
  - rewrite Nat.add_0_r. reflexivity.
  - rewrite IH. f_equal. lia.
Qed.

(** X13.  [shuffleArray] returns a rearrangement of its argument, of the
    same length, whatever the random numbers are, and it draws exactly one
    number for every element but one (none for an empty array). *)
Theorem shuffleArray_rearranges {A} (array : list A) (r : Rng) :
  Permutation (fst (shuffleArray array r)) array /\
  List.length (fst (shuffleArray array r)) = List.length array /\
  (forall k,
     snd (shuffleArray array r) k = r (k + (List.length array - 1))%nat).
Proof.
  pose proof (UploadFacts.shuffleArray_perm array r) as Hp.
  split; [exact Hp|]. split; [apply Permutation_length; exact Hp|].
  intros k. apply shuffleFrom_draws.
Qed.

Lemma trim_idem (x : jsstring) : trim (trim x) = trim x.
Proof.
  unfold trim at 2. rewrite CsvFacts.trim_trimEnd, CsvFacts.trim_trimStart.
  reflexivity.
Qed.

Lemma falsy_false (x : jsstring) : falsy x = false -> x <> [].
Proof. destruct x; [discriminate|]. intros _. discriminate. Qed.

Lemma built_wellFormed (parts : Row) (qn : Question) :
  accepted parts = true -> builtFrom parts qn -> wellFormed qn.
Proof.
  unfold accepted, builtFrom, wellFormed.
  intros Hacc [Hq [Hperm Hget]].
  repeat (apply andb_prop in Hacc; destruct Hacc as [Hacc ?]).
  repeat match goal with
         | H : negb _ = true |- _ => apply negb_true_iff in H
         end.
  match goal with
  | H : existsb falsy _ = false |- _ =>
      simpl in H; apply orb_false_elim in H; destruct H as [Hw1 Hw];
      apply orb_false_elim in Hw; destruct Hw as [Hw2 Hw];
      apply orb_false_elim in Hw; destruct Hw as [Hw3 _]
  end.
  assert (Hall : Forall (fun a => a <> [] /\ trim a = a)
                   [trim (part parts 1); trim (part parts 2);
                    trim (part parts 3); trim (part parts 4)]).
  { repeat constructor; try apply trim_idem; apply falsy_false; assumption. }
  rewrite Hq. split; [apply falsy_false; assumption|].
  split; [apply trim_idem|].
  split; [rewrite (Permutation_length Hperm); reflexivity|].
  split; [apply (Permutation_Forall (Permutation_sym Hperm)); exact Hall|].
  unfold get in Hget. destruct (correct qn <? 0)%Z eqn:Hneg; [discriminate|].
  apply Z.ltb_ge in Hneg.
  assert (Hlt : (Z.to_nat (correct qn) < List.length (answers qn))%nat)
    by (apply nth_error_Some; congruence).
  rewrite (Permutation_length Hperm) in Hlt. simpl in Hlt. lia.
Qed.

Lemma built_all_wellFormed (l : list Row) (qs : list Question) :
  Forall2 builtFrom (filter accepted l) qs -> Forall wellFormed qs.
Proof.
  revert qs. induction l as [|p l IH]; intros qs H; simpl in H.
  - inversion H; subst. constructor.
  - destruct (accepted p) eqn:Hacc; [|apply IH; exact H].
    inversion H; subst. constructor.
    + eapply built_wellFormed; eassumption.
    + apply IH. assumption.
Qed.

Lemma validate_loaded (rows : list Row) (r : Rng) (h : Home) :
  questionsLoaded (validate rows r h) = true ->
  validate rows r h = accept (questions (validateRows rows r)) h /\
  (questionsPerRound h
   <= Z.of_nat (List.length (questions (validateRows rows r))))%Z.
Proof.
  unfold validate.
  destruct (List.length rows <? 2)%nat; [discriminate|].
  destruct ((0 <? List.length (errorMessages (validateRows rows r)))%nat &&
            (List.length (questions (validateRows rows r)) =? 0)%nat);
    [discriminate|].
  destruct (Z.of_nat (List.length (questions (validateRows rows r)))
            <? questionsPerRound h)%Z eqn:Hfew; [discriminate|].
  intros _. apply Z.ltb_ge in Hfew. split; [reflexivity|exact Hfew].
Qed.

(** X14.  A bank that was loaded is sound: when the loaded flag is set after
    an upload, no error is shown, the count shown is the number of stored
    questions and is at least [questionsPerRound], and every stored
    question has a text, exactly four answers, none of them empty or with
    blanks around it, and a correct index among the four. *)
Theorem loaded_bank_is_well_formed
  (csvText : jsstring) (r : Rng) (h : Home)
  (Hloaded : questionsLoaded (parseAndValidateCSV csvText r h) = true) :
  let h' := parseAndValidateCSV csvText r h in
  uploadError h' = None /\
  questionCount h' = Z.of_nat (List.length (uploadedQuestions h')) /\
  (questionsPerRound h' <= questionCount h')%Z /\
  Forall wellFormed (uploadedQuestions h').
Proof.
  unfold parseAndValidateCSV in *.
  destruct (validate_loaded _ _ _ Hloaded) as [-> Hmin].
  simpl. repeat split; try assumption.
  unfold validateRows.
  destruct (UploadFacts.validateFrom_questions 1 (tl (parseCSV csvText))
              (mkAcc [] [] r)) as [qs [-> HF]].
  simpl. eapply built_all_wellFormed. exact HF.
Qed.

Lemma loaded_bank_is_well_formed_witness :
  questionCount (parseAndValidateCSV fourValidRows halves home4) = 4%Z /\
  Forall wellFormed
    (uploadedQuestions (parseAndValidateCSV fourValidRows halves home4)).
Proof.
  split; [vm_compute; reflexivity|].
  apply (@loaded_bank_is_well_formed fourValidRows halves home4).
  vm_compute. reflexivity.
Defined.

Lemma validateRow_counts (i : nat) (parts : Row) (a : Acc) :
  (List.length (questions (validateRow i parts a)) +
   List.length (errorMessages (validateRow i parts a)) +
   (if skipped parts then 1 else 0) =
   List.length (questions a) + List.length (errorMessages a) + 1)%nat.
Proof.
  unfold validateRow, skipped.
  repeat match goal with
         | |- context [if ?b then _ else _] => destruct b
         | |- context [let '(_, _) := ?p in _] => destruct p
         end; simpl; rewrite ?length_app; simpl; lia.
Qed.

Lemma validateFrom_counts (i : nat) (rest : list Row) (a : Acc) :
  (List.length (questions (validateFrom i rest a)) +
   List.length (errorMessages (validateFrom i rest a)) +
   List.length (filter skipped rest) =
   List.length (questions a) + List.length (errorMessages a) +
   List.length rest)%nat.
Proof.
  revert i a. induction rest as [|p rest IH]; intros i a; simpl.
  - lia.
  - pose proof (IH (S i) (validateRow i p a)) as H1.
    pose proof (validateRow_counts i p a) as H2.
    destruct (skipped p); simpl; lia.
Qed.

(** X15.  Every data row is accounted for exactly once: it gives one
    question, or one error message, or it is passed over because it has no
    field or an empty first field.  The three numbers add up to the number
    of rows after the header. *)
Theorem every_data_row_is_counted (rows : list Row) (r : Rng) :
  let a := validateRows rows r in
  (List.length (questions a) + List.length (errorMessages a) +
   List.length (filter skipped (tl rows)) = List.length (tl rows))%nat.
Proof.
  unfold validateRows.
  pose proof (validateFrom_counts 1 (tl rows) (mkAcc [] [] r)) as H.
  simpl in *. lia.
Qed.

Lemma part_firstn (parts : Row) (k : nat) :
  (k < 5)%nat -> part (firstn 5 parts) k = part parts k.
Proof.
  intros Hk. unfold part. rewrite nth_firstn.
  destruct (k <? 5)%nat eqn:H; [reflexivity|].
  apply Nat.ltb_ge in H. lia.
Qed.

Lemma validateRow_firstn (i : nat) (parts : Row) (a : Acc) :
  validateRow i (firstn 5 parts) a = validateRow i parts a.
Proof.
  unfold validateRow.
  rewrite !part_firstn by lia.
  assert (H0 : (List.length (firstn 5 parts) =? 0)%nat =
               (List.length parts =? 0)%nat).
  { rewrite length_firstn. destruct parts; reflexivity. }
  assert (H5 : (List.length (firstn 5 parts) <? 5)%nat =
               (List.length parts <? 5)%nat).
  { rewrite length_firstn.
    destruct (List.length parts <? 5)%nat eqn:H.
    - apply Nat.ltb_lt in H. apply Nat.ltb_lt. lia.
    - apply Nat.ltb_ge in H. apply Nat.ltb_ge. lia. }
  rewrite H0, H5. reflexivity.
Qed.

Lemma validateFrom_firstn (i : nat) (rest : list Row) (a : Acc) :
  validateFrom i (List.map (firstn 5) rest) a = validateFrom i rest a.
Proof.
  revert i a. induction rest as [|p rest IH]; intros i a.
  - reflexivity.
  - cbn [List.map validateFrom]. rewrite validateRow_firstn. apply IH.
Qed.

(** X16.  The validator reads the first five fields of a row and nothing
    else: cutting every row after its fifth field changes neither the
    questions, nor the messages, nor the fields of the component. *)
Theorem fields_after_the_fifth_are_ignored
  (rows : list Row) (r : Rng) (h : Home) :
  validate (List.map (firstn 5) rows) r h = validate rows r h.
Proof.
  unfold validate, validateRows.
  rewrite length_map.
  destruct rows as [|header rows]; [reflexivity|].
  cbn [List.map tl]. rewrite validateFrom_firstn. reflexivity.
Qed.

Lemma validateRow_errors_indep (i : nat) (parts : Row) (a1 a2 : Acc) :
  errorMessages a1 = errorMessages a2 ->
  errorMessages (validateRow i parts a1) =
  errorMessages (validateRow i parts a2).
Proof.
  intros H. unfold validateRow.
  repeat match goal with
         | |- context [if ?b then _ else _] => destruct b
         | |- context [let '(_, _) := ?p in _] => destruct p
         end; simpl; congruence.
Qed.

Lemma validateFrom_errors_indep (i : nat) (rest : list Row) (a1 a2 : Acc) :
  errorMessages a1 = errorMessages a2 ->
  errorMessages (validateFrom i rest a1) =
  errorMessages (validateFrom i rest a2).
Proof.
  revert i a1 a2. induction rest as [|p rest IH]; intros i a1 a2 H; simpl.
  - exact H.
  - apply IH. apply validateRow_errors_indep. exact H.
Qed.

Lemma sameQuestion_refl (qn : Question) : sameQuestion qn qn.
Proof. repeat split. apply Permutation_refl. Qed.

Lemma built_same (l : list Row) (qs1 qs2 : list Question) :
  Forall2 builtFrom l qs1 -> Forall2 builtFrom l qs2 ->
  Forall2 sameQuestion qs1 qs2.
Proof.
  intros H1. revert qs2. induction H1 as [|p q1 l qs1 Hb1 _ IH];
    intros qs2 H2; inversion H2; subst; constructor.
  - destruct Hb1 as [Hq1 [Hp1 Hg1]].
    match goal with
    | H : builtFrom p _ |- _ => destruct H as [Hq2 [Hp2 Hg2]]
    end.
    split; [congruence|]. split; [|congruence].
    eapply perm_trans; [exact Hp1|apply Permutation_sym; exact Hp2].
  - apply IH. assumption.
Qed.

(** X17.  The random numbers decide the order of the answers and nothing
    else: two uploads of the same text with different random numbers show
    the same error or none, the same loaded flag and the same count, and
    store question for question the same text, the same four answers in
    some order, and the same correct answer. *)
Theorem upload_verdict_ignores_randomness
  (csvText : jsstring) (r1 r2 : Rng) (h : Home) :
  let h1 := parseAndValidateCSV csvText r1 h in
  let h2 := parseAndValidateCSV csvText r2 h in
  uploadError h1 = uploadError h2 /\
  questionsLoaded h1 = questionsLoaded h2 /\
  questionCount h1 = questionCount h2 /\
  Forall2 sameQuestion (uploadedQuestions h1) (uploadedQuestions h2).
Proof.
  unfold parseAndValidateCSV, validate, validateRows.
  set (rows := parseCSV csvText).
  destruct (List.length rows <? 2)%nat.
  { simpl. repeat split.
    induction (uploadedQuestions h); constructor;
      [apply sameQuestion_refl|assumption]. }
  pose proof (validateFrom_errors_indep 1 (tl rows)
                (mkAcc [] [] r1) (mkAcc [] [] r2) eq_refl) as He.
  destruct (UploadFacts.validateFrom_questions 1 (tl rows) (mkAcc [] [] r1))
    as [qs1 [Hq1 HF1]].
  destruct (UploadFacts.validateFrom_questions 1 (tl rows) (mkAcc [] [] r2))
    as [qs2 [Hq2 HF2]].
  simpl in Hq1, Hq2. rewrite Hq1, Hq2, He.
  pose proof (built_same HF1 HF2) as Hsame.
  pose proof (Forall2_length Hsame) as Hlen. rewrite Hlen.
  assert (Hrefl : Forall2 sameQuestion (uploadedQuestions h)
                    (uploadedQuestions h)).
  { induction (uploadedQuestions h); constructor;
      [apply sameQuestion_refl|assumption]. }
  destruct ((0 <? List.length
               (errorMessages (validateFrom 1 (tl rows) (mkAcc [] [] r2))))%nat
            && (List.length qs2 =? 0)%nat).
  { simpl. repeat split. exact Hrefl. }
  destruct (Z.of_nat (List.length qs2) <? questionsPerRound h)%Z.
  { simpl. repeat split. exact Hrefl. }
  simpl. split; [reflexivity|]. split; [reflexivity|].
  split; [congruence|exact Hsame].
Qed.

Lemma firstn_perm_in {A} (n : nat) (shuffled bank : list A) (x : A) :
  Permutation shuffled bank -> In x (firstn n shuffled) -> In x bank.
Proof.
  intros Hp Hin. eapply Permutation_in; [exact Hp|].
  rewrite <- (firstn_skipn n shuffled). apply in_or_app. left. exact Hin.
Qed.

(** X18.  Upload and game agree.  When an upload was accepted with a
    positive [questionsPerRound], [startGame] shows the game, and the
    configuration it hands over starts an active round of exactly
    [questionsPerRound] questions, each one a sound question of the bank
    with no answer selected, with the full time limit on a running
    clock. *)
Theorem started_game_plays_the_uploaded_bank
  (csvText : jsstring) (r : Rng) (h : Home)
  (shuffled : list Question) (theme : Z) (g : Round.Game)
  (Hloaded : questionsLoaded (parseAndValidateCSV csvText r h) = true)
  (Hcount : (0 < questionsPerRound h)%Z)
  (Hsort : Permutation shuffled
             (uploadedQuestions (parseAndValidateCSV csvText r h))) :
  let h' := parseAndValidateCSV csvText r h in
  let g' := configureGame h' shuffled theme g in
  gameStarted (startGame h') = true /\
  List.length (Round.questionSets g') = Z.to_nat (questionsPerRound h) /\
  Forall (fun qs => Round.selected qs = None /\
                    In (Round.qsQuestion qs) (uploadedQuestions h') /\
                    wellFormed (Round.qsQuestion qs))
         (Round.questionSets g') /\
  Round.phase g' = Round.Active /\
  Round.timeRemaining g' = timeLimit h /\
  Round.timerInterval g' = true.
Proof.
  intros h' g'.
  pose proof (@loaded_bank_is_well_formed csvText r h Hloaded)
    as [_ [Hn [Hmin Hwf]]].
  fold h' in Hn, Hmin, Hwf, Hsort, Hloaded.
  assert (Hqpr : questionsPerRound h' = questionsPerRound h).
  { unfold h', parseAndValidateCSV, validate.
    repeat match goal with
           | |- context [if ?b then _ else _] => destruct b
           end; reflexivity. }
  assert (Htl : timeLimit h' = timeLimit h).
  { unfold h', parseAndValidateCSV, validate.
    repeat match goal with
           | |- context [if ?b then _ else _] => destruct b
           end; reflexivity. }
  rewrite Hn, Hqpr in Hmin.
  split. { unfold startGame. rewrite Hloaded. reflexivity. }
  unfold g', configureGame, Round.loadQuestionsFromData. simpl.
  destruct (0 <? List.length (uploadedQuestions h'))%nat eqn:Hne;
    [|apply Nat.ltb_ge in Hne; lia].
  unfold Round.startNewRound, Round.selectRandomQuestions, slice0. simpl.
  rewrite Hqpr, Htl.
  destruct (questionsPerRound h <? 0)%Z eqn:Hneg;
    [apply Z.ltb_lt in Hneg; lia|].
  split.
  { rewrite length_map, length_firstn, (Permutation_length Hsort). lia. }
  split; [|repeat split].
  apply Forall_forall. intros qs Hin.
  apply in_map_iff in Hin. destruct Hin as [q [<- Hin]]. simpl.
  pose proof (@firstn_perm_in _ _ _ _ _ Hsort Hin) as Hbank.
  split; [reflexivity|]. split; [exact Hbank|].
  rewrite Forall_forall in Hwf. apply Hwf. exact Hbank.
Qed.


Lemma started_game_plays_the_uploaded_bank_witness :
  gameStarted (startGame (parseAndValidateCSV fourValidRows halves home4))
  = true /\
  List.length
    (Round.questionSets
       (configureGame (parseAndValidateCSV fourValidRows halves home4)
          (rev (uploadedQuestions
                  (parseAndValidateCSV fourValidRows halves home4)))
          3 Round.newGame)) = 4%nat /\
  Round.phase
    (configureGame (parseAndValidateCSV fourValidRows halves home4)
       (rev (uploadedQuestions
               (parseAndValidateCSV fourValidRows halves home4)))
       3 Round.newGame) = Round.Active /\
  Round.timeRemaining
    (configureGame (parseAndValidateCSV fourValidRows halves home4)
       (rev (uploadedQuestions
               (parseAndValidateCSV fourValidRows halves home4)))
       3 Round.newGame) = 90%Z.
Proof.
  assert (Hloaded :
            questionsLoaded (parseAndValidateCSV fourValidRows halves home4)
            = true) by (vm_compute; reflexivity).
  assert (Hsort :
            Permutation
              (rev (uploadedQuestions
                      (parseAndValidateCSV fourValidRows halves home4)))
              (uploadedQuestions
                 (parseAndValidateCSV fourValidRows halves home4)))
    by (apply Permutation_sym, Permutation_rev).
  destruct (@started_game_plays_the_uploaded_bank fourValidRows halves home4
              _ 3%Z Round.newGame Hloaded eq_refl Hsort)
    as [H1 [H2 [_ [H4 [H5 _]]]]].
  repeat split; assumption.
Defined.

End UploadExtra.

(* ================================================================== *)
(** ** CSV scanner: rows, blank files, open quotes, the earlier variant *)
(* ================================================================== *)

Module CsvExtra.
Import CsvSpec.
Import CsvMoreSpec.

(** A property of the locals that every iteration keeps on the characters
    of a class holds after the loop. *)
Lemma scanLoop_inv (P : Scanner -> Prop) (Q : CodeUnit -> bool) :
  (forall s c n, Q c = true -> P s -> P (fst (scanChar s c n))) ->
  forall text s, forallb Q text = true -> P s -> P (scanLoop s text).
Proof.
  intros Hstep text.
  assert (H : forall n text s, (List.length text <= n)%nat ->
                forallb Q text = true -> P s -> P (scanLoop s text)).
  { clear text. induction n as [|n IH]; intros [|c rest] s Hlen HQ Hs;
      simpl in Hlen; try lia; try exact Hs.
    rewrite CsvFacts.scanLoop_cons.
    simpl in HQ. apply andb_prop in HQ. destruct HQ as [Hc Hrest].
    apply IH.
    - destruct (snd (scanChar s c (hd_error rest)));
        destruct rest; simpl in *; lia.
    - destruct (snd (scanChar s c (hd_error rest))); [|exact Hrest].
      destruct rest as [|c' rest']; [reflexivity|].
      simpl in Hrest. apply andb_prop in Hrest. apply Hrest.
    - apply Hstep; assumption. }
  intros s. apply (H (List.length text)). lia.
Qed.

Lemma scanLoop0_cons (s : Scanner0) (c : CodeUnit) (rest : jsstring) :
  scanLoop0 s (c :: rest) =
  scanLoop0 (fst (scanChar0 s c (hd_error rest)))
            (if snd (scanChar0 s c (hd_error rest)) then tl rest else rest).
Proof.
  simpl. destruct (scanChar0 s c (hd_error rest)) as [s' skip].
  destruct rest as [|c' rest']; simpl; destruct skip; reflexivity.
Qed.

Lemma scanLoop0_inv (P : Scanner0 -> Prop) :
  (forall s c n, P s -> P (fst (scanChar0 s c n))) ->
  forall text s, P s -> P (scanLoop0 s text).
Proof.
  intros Hstep text.
  assert (H : forall n text s, (List.length text <= n)%nat ->
                P s -> P (scanLoop0 s text)).
  { clear text. induction n as [|n IH]; intros [|c rest] s Hlen Hs;
      simpl in Hlen; try lia; try exact Hs.
    rewrite scanLoop0_cons. apply IH.
    - destruct (snd (scanChar0 s c (hd_error rest)));
        destruct rest; simpl in *; lia.
    - apply Hstep; assumption. }
  intros s. apply (H (List.length text)). lia.
Qed.

Lemma forallb_any (text : jsstring) : forallb (fun _ => true) text = true.
Proof. induction text; simpl; auto. Qed.

Lemma someNonEmpty_hasContent (row : Row) :
  someNonEmpty row = true -> hasContent row.
Proof.
  unfold someNonEmpty, hasContent. intros H.
  apply existsb_exists in H. destruct H as [field [Hin Hne]].
  exists field. split; [exact Hin|].
  destruct field; [discriminate|]. discriminate.
Qed.

Lemma endRow_content (s : Scanner) :
  Forall hasContent (rows s) -> Forall hasContent (rows (endRow s)).
Proof.
  intros H. unfold endRow. simpl.
  destruct (someNonEmpty (currentRow s ++ [fieldValue s])) eqn:Hrow;
    [|exact H].
  apply Forall_app. split; [exact H|].
  constructor; [|constructor]. apply someNonEmpty_hasContent. exact Hrow.
Qed.

Lemma scanChar_content (s : Scanner) (c : CodeUnit) (n : option CodeUnit) :
  Forall hasContent (rows s) ->
  Forall hasContent (rows (fst (scanChar s c n))).
Proof.
  intros H. unfold scanChar.
  repeat match goal with
         | |- context [if ?b then _ else _] => destruct b
         end; simpl; try exact H.
  apply (endRow_content s H).
Qed.

(** X20.  Whatever the text, no row that [parseCSV] returns is empty: every
    row has a field that is not the empty string.  The header the
    validator skips and the rows it reads are therefore rows with
    content, and its test for a row without fields never holds. *)
Theorem parseCSV_rows_have_content (csvText : jsstring) :
  Forall (fun row => hasContent row /\ (List.length row =? 0)%nat = false)
         (parseCSV csvText).
Proof.
  assert (H : Forall hasContent (parseCSV csvText)).
  { unfold parseCSV, finish. apply endRow_content.
    apply (@scanLoop_inv (fun s => Forall hasContent (rows s))
                         (fun _ => true)).
    - intros s c n _. apply scanChar_content.
    - apply forallb_any.
    - constructor. }
  eapply Forall_impl; [|exact H].
  intros row Hrow. split; [exact Hrow|].
  destruct Hrow as [field [Hin _]]. destruct row; [destruct Hin|reflexivity].
Qed.

Lemma trim_blank (x : jsstring) : blank x = true -> trim x = [].
Proof.
  unfold blank. induction x as [|c x IH]; intros H; [reflexivity|].
  simpl in H. apply andb_prop in H. destruct H as [Hc Hx].
  rewrite (CsvFacts.trim_ws_cons c x Hc). apply IH. exact Hx.
Qed.

Lemma blank_snoc (x : jsstring) (c : CodeUnit) :
  blank x = true -> isWhiteSpace c = true -> blank (x ++ [c]) = true.
Proof.
  unfold blank. intros Hx Hc. rewrite forallb_app, Hx. simpl.
  rewrite Hc. reflexivity.
Qed.

Lemma ws_not_quote (c : CodeUnit) : isWhiteSpace c = true -> isQuote c = false.
Proof.
  unfold isQuote. destruct (N.eqb_spec c QUOTE) as [->|]; [|reflexivity].
  vm_compute. discriminate.
Qed.

Lemma ws_not_comma (c : CodeUnit) : isWhiteSpace c = true -> isComma c = false.
Proof. unfold isComma. apply CsvFacts.comma_not_ws. Qed.

(** The locals while only blanks were read. *)
Lemma scanChar_blank (s : Scanner) (c : CodeUnit) (n : option CodeUnit) :
  isWhiteSpace c = true ->
  rows s = [] /\ currentRow s = [] /\ blank (currentField s) = true /\
  inQuotes s = false /\ fieldStartedWithQuote s = false ->
  rows (fst (scanChar s c n)) = [] /\
  currentRow (fst (scanChar s c n)) = [] /\
  blank (currentField (fst (scanChar s c n))) = true /\
  inQuotes (fst (scanChar s c n)) = false /\
  fieldStartedWithQuote (fst (scanChar s c n)) = false.
Proof.
  intros Hc [Hr [Hcr [Hcf [Hq Hf]]]]. unfold scanChar.
  rewrite (ws_not_quote c Hc), (ws_not_comma c Hc), Hq. simpl.
  destruct (isEol c); simpl.
  - unfold endRow, fieldValue. rewrite Hr, Hcr, Hf, (trim_blank _ Hcf).
    simpl. auto.
  - rewrite Hr, Hcr, Hq, Hf, (@blank_snoc _ _ Hcf Hc). auto.
Qed.

(** X21.  A file of blanks and line breaks only has no row, and the upload
    is refused with the message that asks for a header and a question; the
    questions of an earlier upload stay. *)
Theorem blank_file_has_no_row
  (csvText : jsstring) (r : Rng) (h : Upload.Home)
  (Hblank : blank csvText = true) :
  parseCSV csvText = [] /\
  Upload.uploadError (Upload.parseAndValidateCSV csvText r h) =
    Some (lit "File must contain at least a header and one question.") /\
  Upload.questionsLoaded (Upload.parseAndValidateCSV csvText r h) = false /\
  Upload.uploadedQuestions (Upload.parseAndValidateCSV csvText r h) =
    Upload.uploadedQuestions h.
Proof.
  assert (Hrows : parseCSV csvText = []).
  { unfold parseCSV, finish.
    destruct (@scanLoop_inv
                (fun s => rows s = [] /\ currentRow s = [] /\
                          blank (currentField s) = true /\
                          inQuotes s = false /\
                          fieldStartedWithQuote s = false)
                isWhiteSpace
                (fun s c n Hc Hs => @scanChar_blank s c n Hc Hs)
                csvText init Hblank)
      as [Hr [Hcr [Hcf [Hq Hf]]]].
    { repeat split. }
    unfold endRow, fieldValue. rewrite Hr, Hcr, Hf, (trim_blank _ Hcf).
    reflexivity. }
  split; [exact Hrows|].
  unfold Upload.parseAndValidateCSV, Upload.validate. rewrite Hrows. simpl.
  repeat split.
Qed.

Lemma blank_file_has_no_row_witness :
  parseCSV UploadSpec.blankText = [] /\
  Upload.questionsLoaded
    (Upload.parseAndValidateCSV UploadSpec.blankText UploadSpec.halves
       UploadSpec.home4) = false.
Proof.
  destruct (@blank_file_has_no_row UploadSpec.blankText UploadSpec.halves
              UploadSpec.home4 eq_refl) as [H1 [_ [H3 _]]].
  split; assumption.
Defined.

(** *** An opening quote that is never closed *)

Lemma scan_inside_quotes (body : jsstring) (s : Scanner) :
  inQuotes s = true -> quoteFree body = true ->
  scanLoop s body =
  mkScanner (rows s) (currentRow s) (currentField s ++ body) true
            (fieldStartedWithQuote s).
Proof.
  revert s. induction body as [|c body IH]; intros s Hq Hfree.
  - rewrite app_nil_r. destruct s; simpl in *. subst. reflexivity.
  - unfold quoteFree in Hfree. simpl in Hfree.
    apply andb_prop in Hfree. destruct Hfree as [Hc Hfree].
    apply negb_true_iff in Hc.
    rewrite CsvFacts.scanLoop_cons. unfold scanChar.
    rewrite Hc, Hq. simpl. rewrite !andb_false_r. simpl.
    rewrite IH by (simpl; assumption). simpl.
    rewrite <- app_assoc. reflexivity.
Qed.

(** X22.  An opening quote that is never closed takes the rest of the file
    as one field.  When the scanner is at the start of a field and reads a
    quote, and no quote follows in the text, then everything after the
    quote, commas and line breaks included, is the last field of a last
    row that also holds the fields read before on that line; like every
    row, it is dropped when all its fields are empty. *)
Theorem unclosed_quote_takes_the_rest
  (text : jsstring) (s : Scanner) (body : jsstring)
  (Hreach : Reach text s [] (QUOTE :: body))
  (Hfree : quoteFree body = true) :
  parseCSV text = pushRow (rows s) (currentRow s ++ [body]).
Proof.
  unfold parseCSV. rewrite (CsvFacts.Reach_scanLoop Hreach).
  destruct (CsvFacts.Reach_inv Hreach) as [Hstart _].
  destruct (Hstart eq_refl) as [Hcf [Hq Hf]].
  rewrite CsvFacts.scanLoop_cons. unfold scanChar at 1 2.
  change (isQuote QUOTE) with true. cbv iota.
  rewrite Hcf, Hq. simpl falsy. simpl negb. simpl andb. cbv iota.
  simpl fst. simpl snd. cbv iota.
  rewrite scan_inside_quotes by (simpl; auto).
  unfold finish, endRow, fieldValue, pushRow. simpl. reflexivity.
Qed.

Lemma unclosed_quote_takes_the_rest_witness :
  parseCSV unclosedText =
    [[lit "h1"; lit "h2"]; [lit "a"; lit "b,c" ++ [LF] ++ lit "d,e"]].
Proof.
  assert (Hreach :
            Reach unclosedText
              (mkScanner [[lit "h1"; lit "h2"]] [lit "a"] [] false false)
              [] (QUOTE :: unclosedBody)).
  { pose proof (Reach_start unclosedText) as R.
    unfold unclosedText, unclosedPrefix in R. vm_compute in R.
    do 8 (apply Reach_step in R; vm_compute in R).
    exact R. }
  exact (@unclosed_quote_takes_the_rest unclosedText _ unclosedBody
           Hreach eq_refl).
Defined.

(** *** The earlier variant of the parser *)

Lemma scanChar_agree (s : Scanner) (s0 : Scanner0) (c : CodeUnit)
  (n : option CodeUnit) :
  isQuote c = false -> agree s s0 ->
  agree (fst (scanChar s c n)) (fst (scanChar0 s0 c n)) /\
  snd (scanChar s c n) = snd (scanChar0 s0 c n).
Proof.
  intros Hc [Hr [Hcr [Hcf [Hq [Hq0 Hf]]]]].
  unfold scanChar, scanChar0, agree. rewrite Hc, Hq, Hq0. simpl.
  rewrite !andb_true_r.
  destruct (isComma c); simpl.
  { unfold fieldValue. rewrite Hf, Hr, Hcr, Hcf. repeat split; auto. }
  destruct (isEol c); simpl.
  { unfold fieldValue. rewrite Hf, Hr, Hcr, Hcf.
    destruct (someNonEmpty (currentRow0 s0 ++ [trim (currentField0 s0)]));
      repeat split; auto. }
  rewrite Hr, Hcr, Hcf. repeat split; auto.
Qed.

Lemma scanLoop_agree (text : jsstring) (s : Scanner) (s0 : Scanner0) :
  quoteFree text = true -> agree s s0 ->
  agree (scanLoop s text) (scanLoop0 s0 text).
Proof.
  assert (H : forall n text s s0, (List.length text <= n)%nat ->
                quoteFree text = true -> agree s s0 ->
                agree (scanLoop s text) (scanLoop0 s0 text)).
  { clear. induction n as [|n IH]; intros [|c rest] s s0 Hlen Hfree Hs;
      simpl in Hlen; try lia; try exact Hs.
    unfold quoteFree in Hfree. simpl in Hfree.
    apply andb_prop in Hfree. destruct Hfree as [Hc Hrest].
    apply negb_true_iff in Hc.
    rewrite CsvFacts.scanLoop_cons, scanLoop0_cons.
    destruct (@scanChar_agree s s0 c (hd_error rest) Hc Hs) as [Hs' Hskip].
    rewrite <- Hskip. apply IH.
    - destruct (snd (scanChar s c (hd_error rest)));
        destruct rest; simpl in *; lia.
    - destruct (snd (scanChar s c (hd_error rest))); [|exact Hrest].
      destruct rest as [|c' rest']; [reflexivity|].
      simpl in Hrest. apply andb_prop in Hrest. apply Hrest.
    - exact Hs'. }
  apply (H (List.length text)). lia.
Qed.

(** X23.  The variants of [parseCSV] kept in the file differ on quotes
    only: on a text without a double quote the earlier variant returns the
    rows of the current one. *)
Theorem parseCSV_variants_agree_without_quotes
  (csvText : jsstring) (Hfree : quoteFree csvText = true) :
  parseCSV_v0 csvText = parseCSV csvText.
Proof.
  unfold parseCSV, parseCSV_v0, finish.
  assert (Hinit : agree init (mkScanner0 [] [] [] false))
    by (repeat split).
  destruct (@scanLoop_agree csvText _ _ Hfree Hinit)
    as [Hr [Hcr [Hcf [Hq [Hq0 Hf]]]]].
  unfold endRow, endRow0, fieldValue. simpl. rewrite Hf, Hr, Hcr, Hcf.
  reflexivity.
Qed.

Lemma parseCSV_variants_agree_without_quotes_witness :
  parseCSV_v0 plainText = parseCSV plainText /\
  parseCSV plainText =
    [ [lit "question"; lit "correct"; lit "w1"; lit "w2"; lit "w3"];
      [lit "What is 2 + 2?"; lit "4"; lit "3"; lit "5"; lit "6"] ].
Proof.
  split; [|vm_compute; reflexivity].
  apply (@parseCSV_variants_agree_without_quotes plainText).
  vm_compute. reflexivity.
Defined.

Lemma trimmed_trim (x : jsstring) : trimmed (trim x).
Proof.
  unfold trimmed. unfold trim at 2.
  rewrite CsvFacts.trim_trimEnd, CsvFacts.trim_trimStart. reflexivity.
Qed.

Lemma endRow0_trimmed (s : Scanner0) :
  Forall (Forall trimmed) (rows0 s) /\ Forall trimmed (currentRow0 s) ->
  Forall (fun row => hasContent row /\ Forall trimmed row) (rows0 s) ->
  Forall (fun row => hasContent row /\ Forall trimmed row)
         (rows0 (endRow0 s)).
Proof.
  intros [_ Hcr] Hrows. unfold endRow0. simpl.
  destruct (someNonEmpty (currentRow0 s ++ [trim (currentField0 s)]))
    eqn:Hrow; [|exact Hrows].
  apply Forall_app. split; [exact Hrows|].
  constructor; [|constructor].
  split; [apply someNonEmpty_hasContent; exact Hrow|].
  apply Forall_app. split; [exact Hcr|].
  constructor; [apply trimmed_trim|constructor].
Qed.

Lemma scanChar0_trimmed (s : Scanner0) (c : CodeUnit) (n : option CodeUnit) :
  Forall (fun row => hasContent row /\ Forall trimmed row) (rows0 s) /\
  Forall trimmed (currentRow0 s) ->
  Forall (fun row => hasContent row /\ Forall trimmed row)
         (rows0 (fst (scanChar0 s c n))) /\
  Forall trimmed (currentRow0 (fst (scanChar0 s c n))).
Proof.
  intros [Hrows Hcr]. unfold scanChar0.
  repeat match goal with
         | |- context [if ?b then _ else _] => destruct b
         end; simpl; try (split; assumption).
  - split; [exact Hrows|].
    apply Forall_app. split; [exact Hcr|].
    constructor; [apply trimmed_trim|constructor].
  - split; [|constructor].
    apply (@endRow0_trimmed s); [split; [|exact Hcr]|exact Hrows].
    eapply Forall_impl; [|exact Hrows]. intros row Hrow. apply Hrow.
Qed.

(** X24.  Whatever the text, the earlier variant of [parseCSV] returns only
    rows with content whose fields have no blank at either end, quoted or
    not: it keeps no outer formatting of a quoted field. *)
Theorem parseCSV_v0_fields_are_trimmed (csvText : jsstring) :
  Forall (fun row => hasContent row /\ Forall trimmed row)
         (parseCSV_v0 csvText).
Proof.
  unfold parseCSV_v0.
  destruct (@scanLoop0_inv
              (fun s =>
                 Forall (fun row => hasContent row /\ Forall trimmed row)
                        (rows0 s) /\
                 Forall trimmed (currentRow0 s))
              (fun s c n Hs => @scanChar0_trimmed s c n Hs)
              csvText (mkScanner0 [] [] [] false))
    as [Hrows Hcr].
  { split; constructor. }
  apply endRow0_trimmed; [split; [|exact Hcr]|exact Hrows].
  eapply Forall_impl; [|exact Hrows]. intros row Hrow. apply Hrow.
Qed.

(** *** Line breaks *)

Lemma renderTable_snoc (body : list (list Field * Eol)) (last : list Field)
  (e : Eol) :
  renderTable (body ++ [(last, e)]) [] = renderTable body last ++ eolText e.
Proof.
  induction body as [|[fs e'] body IH]; simpl.
  - rewrite app_nil_r. reflexivity.
  - rewrite IH, !app_assoc. reflexivity.
Qed.

Lemma forallb_fst (body : list (list Field * Eol)) :
  forallb (fun row => forallb fieldOk (fst row)) body =
  forallb (forallb fieldOk) (List.map fst body).
Proof.
  induction body as [|row body IH]; simpl; [reflexivity|].
  rewrite IH. reflexivity.
Qed.

(** X25.  Line breaks are read alike.  For a table of well-formed fields,
    the rows [parseCSV] returns do not depend on which rows end in a line
    feed and which in a carriage return and line feed, nor on a line break
    after the last row. *)
Theorem line_breaks_do_not_matter
  (body body' : list (list Field * Eol)) (last : list Field) (e : Eol)
  (Hbody : forallb (fun row => forallb fieldOk (fst row)) body = true)
  (Hlast : forallb fieldOk last = true)
  (Hsame : List.map fst body' = List.map fst body) :
  parseCSV (renderTable body' last) = parseCSV (renderTable body last) /\
  parseCSV (renderTable body last ++ eolText e) =
  parseCSV (renderTable body last).
Proof.
  assert (Hbody' : forallb (fun row => forallb fieldOk (fst row)) body'
                   = true).
  { rewrite forallb_fst, Hsame, <- forallb_fst. exact Hbody. }
  split.
  - rewrite (CsvFacts.parseCSV_renderTable body' last Hbody' Hlast),
            (CsvFacts.parseCSV_renderTable body last Hbody Hlast), Hsame.
    reflexivity.
  - rewrite <- renderTable_snoc.
    rewrite (CsvFacts.parseCSV_renderTable (body ++ [(last, e)]) []),
            (CsvFacts.parseCSV_renderTable body last Hbody Hlast).
    + rewrite !map_app, filter_app. simpl. apply app_nil_r.
    + rewrite forallb_app, Hbody. simpl. rewrite Hlast. reflexivity.
    + reflexivity.
Qed.

Lemma line_breaks_do_not_matter_witness :
  parseCSV (renderTable (withEol eolCRLF twoRows) lastRow ++ [CR; LF]) =
  parseCSV (renderTable twoRows lastRow) /\
  parseCSV (renderTable twoRows lastRow) =
    [[lit "a" ++ [CR; LF] ++ lit "b"; lit "c"]; [lit "d"; lit "e"]].
Proof.
  split; [|vm_compute; reflexivity].
  pose proof (@line_breaks_do_not_matter (withEol eolCRLF twoRows)
                (withEol eolCRLF twoRows) lastRow eolCRLF
                eq_refl eq_refl eq_refl) as [_ H1].
  pose proof (@line_breaks_do_not_matter twoRows (withEol eolCRLF twoRows)
                lastRow eolLF eq_refl eq_refl eq_refl) as [H2 _].
  change [CR; LF] with (eolText eolCRLF).
  rewrite H1. exact H2.
Defined.

End CsvExtra.
